(** * gotoon: the TOON encoder and decoder, embedded and verified

    A shallow embedding of [toon.go], [encoder.go] and [decoder.go].

    Go strings are byte sequences ([list ascii]).  The functions of the Go
    standard library that the codec calls ([strings], [strconv], [regexp]
    for the two fixed patterns of the decoder) are given as executable
    definitions; floating-point formatting and parsing, and [fmt]'s [%v],
    are parameters of the development. *)

From Stdlib Require Import Strings.Ascii Strings.String.
From Stdlib Require Import ZArith Bool Arith Lia ZifyBool.
From Stdlib Require Import List Permutation.
Import ListNotations.

Set Implicit Arguments.
Set Warnings "-register-all".
Local Open Scope list_scope.

(** ** Go strings *)

Definition gostring := list ascii.

Definition str (s : string) : gostring := list_ascii_of_string s.
Arguments str s%_string.

Definition byte (n : nat) : ascii := ascii_of_nat n.

Definition TAB : ascii := byte 9.
Definition LF : ascii := byte 10.
Definition SP : ascii := byte 32.
Definition DQUOTE : ascii := byte 34.
Definition BACKSLASH : ascii := byte 92.

Definition code (c : ascii) : nat := nat_of_ascii c.

Definition isByte (n : nat) (c : ascii) : bool := Ascii.eqb c (byte n).

Arguments byte : simpl never.
Arguments code : simpl never.
Arguments isByte : simpl never.

Fixpoint gostring_eqb (a b : gostring) : bool :=
  match a, b with
  | [], [] => true
  | x :: a', y :: b' => Ascii.eqb x y && gostring_eqb a' b'
  | _, _ => false
  end.

Definition isEmpty (s : gostring) : bool :=
  match s with [] => true | _ => false end.

(** ** Package [strings] *)

Module Strings.

  (** [asciiSpace]: tab, line feed, vertical tab, form feed, carriage
      return, space. *)
Definition asciiSpace (c : ascii) : bool :=
    isByte 9 c || isByte 10 c || isByte 11 c || isByte 12 c || isByte 13 c || isByte 32 c.

  (** The white-space runes of [unicode.IsSpace] outside ASCII, as their
      UTF-8 encodings: U+0085 and U+00A0 on two bytes; U+1680,
      U+2000..U+200A, U+2028, U+2029, U+202F, U+205F and U+3000 on three. *)
Definition space2 (c1 c2 : ascii) : bool :=
    isByte 194 c1 && (isByte 133 c2 || isByte 160 c2).

Definition space3 (c1 c2 c3 : ascii) : bool :=
    (isByte 225 c1 && isByte 154 c2 && isByte 128 c3)
    || (isByte 226 c1 && isByte 128 c2 &&
          (((128 <=? code c3) && (code c3 <=? 138))
           || isByte 168 c3 || isByte 169 c3 || isByte 175 c3))
    || (isByte 226 c1 && isByte 129 c2 && isByte 159 c3)
    || (isByte 227 c1 && isByte 128 c2 && isByte 128 c3).

  Arguments asciiSpace : simpl never.
  Arguments space2 : simpl never.
  Arguments space3 : simpl never.

  (** [TrimLeftFunc(s, unicode.IsSpace)]: drops the leading runes that are
      white space.  A rune decoded at the front is white space exactly when
      the front bytes are one of the encodings above. *)
Fixpoint trimLeft (s : gostring) : gostring :=
    match s with
    | [] => []
    | c1 :: r1 =>
        if asciiSpace c1 then trimLeft r1 else
        match r1 with
        | [] => s
        | c2 :: r2 =>
            if space2 c1 c2 then trimLeft r2 else
            match r2 with
            | [] => s
            | c3 :: r3 => if space3 c1 c2 c3 then trimLeft r3 else s
            end
        end
    end.

  (** The same on the reversed string: [TrimRightFunc] decodes runes from
      the end. *)
Fixpoint trimRev (s : gostring) : gostring :=
    match s with
    | [] => []
    | c1 :: r1 =>
        if asciiSpace c1 then trimRev r1 else
        match r1 with
        | [] => s
        | c2 :: r2 =>
            if space2 c2 c1 then trimRev r2 else
            match r2 with
            | [] => s
            | c3 :: r3 => if space3 c3 c2 c1 then trimRev r3 else s
            end
        end
    end.

Definition trimRight (s : gostring) : gostring := rev (trimRev (rev s)).

Definition TrimSpace (s : gostring) : gostring := trimRight (trimLeft s).

Fixpoint HasPrefix (s prefix : gostring) : bool :=
    match prefix, s with
    | [], _ => true
    | p :: prefix', c :: s' => Ascii.eqb c p && HasPrefix s' prefix'
    | _ :: _, [] => false
    end.

Fixpoint Contains (s substr : gostring) : bool :=
    HasPrefix s substr ||
    match s with
    | [] => false
    | _ :: s' => Contains s' substr
    end.

Definition ContainsAny (s chars : gostring) : bool :=
    existsb (fun c => existsb (Ascii.eqb c) chars) s.

  (** [Split(s, sep)] for a separator of one byte, the only use the codec
      makes of it.  The result is never empty. *)
Fixpoint Split (s : gostring) (sep : ascii) : list gostring :=
    match s with
    | [] => [[]]
    | c :: s' =>
        if Ascii.eqb c sep then [] :: Split s' sep
        else match Split s' sep with
             | [] => [[c]]
             | p :: ps => (c :: p) :: ps
             end
    end.

  (** [SplitN(s, sep, 2)] for a separator of one byte: the text before the
      first separator and the text after it, or [s] alone. *)
Fixpoint SplitN2 (s : gostring) (sep : ascii) : list gostring :=
    match s with
    | [] => [[]]
    | c :: s' =>
        if Ascii.eqb c sep then [[]; s']
        else match SplitN2 s' sep with
             | p :: ps => (c :: p) :: ps
             | [] => [[c]]
             end
    end.

  (** [ReplaceAll(s, old, new)] for a non-empty [old]: the occurrences are
      replaced from the left and do not overlap.  [skip] counts the bytes of
      a replaced occurrence that are still to be dropped. *)
Fixpoint replaceFrom (skip : nat) (s old new : gostring) : gostring :=
    match s with
    | [] => []
    | c :: s' =>
        match skip with
        | S k => replaceFrom k s' old new
        | O =>
            if HasPrefix s old
            then new ++ replaceFrom (Nat.pred (length old)) s' old new
            else c :: replaceFrom 0 s' old new
        end
    end.

Definition ReplaceAll (s old new : gostring) : gostring :=
    replaceFrom 0 s old new.

Fixpoint Join (elems : list gostring) (sep : gostring) : gostring :=
    match elems with
    | [] => []
    | [e] => e
    | e :: rest => e ++ sep ++ Join rest sep
    end.

  (** [ToLower] on a string of one byte, as [getFieldName] calls it on
      [name[:1]]: an ASCII capital is lowered, another ASCII byte is kept,
      and a byte that is not ASCII is not valid UTF-8 on its own and is
      mapped to the encoding of U+FFFD. *)
Definition ToLower1 (c : ascii) : gostring :=
    if (65 <=? code c) && (code c <=? 90) then [byte (code c + 32)]
    else if code c <? 128 then [c]
    else [byte 239; byte 191; byte 189].

End Strings.

(** ** Package [strconv] *)

Module Strconv.

Definition isDigit (c : ascii) : bool := (48 <=? code c) && (code c <=? 57).

Definition digitVal (c : ascii) : Z := Z.of_nat (code c) - 48.

  Arguments isDigit : simpl never.
  Arguments digitVal : simpl never.

Definition digitChar (d : Z) : ascii := byte (48 + Z.to_nat d).

  (** The decimal digits of [n >= 0], most significant first, put in front
      of [acc]. *)
Fixpoint digitsOnto (fuel : nat) (n : Z) (acc : gostring) : gostring :=
    match fuel with
    | O => acc
    | S f =>
        let acc' := digitChar (n mod 10) :: acc in
        if (n / 10 =? 0)%Z then acc' else digitsOnto f (n / 10) acc'
    end.

Definition FormatUint (n : Z) : gostring :=
    digitsOnto (S (Z.to_nat (Z.log2 n))) n [].

  (** [fmt.Sprintf("%d", n)]. *)
Definition FormatInt (n : Z) : gostring :=
    if (n <? 0)%Z then "-"%char :: FormatUint (- n) else FormatUint n.

Fixpoint parseDigits (s : gostring) (acc : Z) : option Z :=
    match s with
    | [] => Some acc
    | c :: s' =>
        if isDigit c then parseDigits s' (acc * 10 + digitVal c) else None
    end.

  (** [ParseUint(s, 10, 64)]: [None] stands for a non-nil error (syntax or
      range). *)
Definition ParseUint (s : gostring) : option Z :=
    match s with
    | [] => None
    | _ =>
        match parseDigits s 0 with
        | Some n => if (n <? 2 ^ 64)%Z then Some n else None
        | None => None
        end
    end.

  (** [ParseInt(s, 10, 64)]. *)
Definition ParseInt (s : gostring) : option Z :=
    match s with
    | [] => None
    | c :: s' =>
        let neg := Ascii.eqb c "-"%char in
        let body := if neg || Ascii.eqb c "+"%char then s' else s in
        match ParseUint body with
        | None => None
        | Some un =>
            if neg then (if (un <=? 2 ^ 63)%Z then Some (- un)%Z else None)
            else (if (un <? 2 ^ 63)%Z then Some un else None)
        end
    end.

  (** [Atoi] on a string of digits, with the error dropped as
      [parseArrayDeclaration] drops it: out of range, [ParseInt] returns the
      largest [int] (64 bits). *)
Definition AtoiDigits (s : gostring) : Z :=
    match parseDigits s 0 with
    | Some n => Z.min n (2 ^ 63 - 1)
    | None => 0
    end.

Definition ParseBool (s : gostring) : option bool :=
    if existsb (gostring_eqb s)
         [str "1"; str "t"; str "T"; str "TRUE"; str "true"; str "True"]
    then Some true
    else if existsb (gostring_eqb s)
         [str "0"; str "f"; str "F"; str "FALSE"; str "false"; str "False"]
    then Some false
    else None.

  (** [fmt.Sprintf("%t", b)]. *)
Definition FormatBool (b : bool) : gostring :=
    if b then str "true" else str "false".

End Strconv.

(** ** Types and values, as [reflect] shows them *)

Inductive intKind := KInt | KInt8 | KInt16 | KInt32 | KInt64.
Inductive uintKind := KUint | KUint8 | KUint16 | KUint32 | KUint64.
Inductive floatKind := KFloat32 | KFloat64.

(** The kinds that neither the encoder nor the decoder names. *)
Inductive otherKind :=
  KUintptr | KComplex64 | KComplex128 | KChan | KFunc | KUnsafePointer.

(** The width of an integer kind; [int] and [uint] have 64 bits. *)
Definition intBits (k : intKind) : Z :=
  match k with KInt8 => 8 | KInt16 => 16 | KInt32 => 32 | _ => 64 end.

Definition uintBits (k : uintKind) : Z :=
  match k with KUint8 => 8 | KUint16 => 16 | KUint32 => 32 | _ => 64 end.

(** [SetInt] and [SetUint] store the 64-bit argument truncated to the width
    of the destination. *)
Definition wrapInt (k : intKind) (z : Z) : Z :=
  let b := intBits k in ((z + 2 ^ (b - 1)) mod 2 ^ b - 2 ^ (b - 1))%Z.

Definition wrapUint (k : uintKind) (z : Z) : Z := (z mod 2 ^ uintBits k)%Z.

(** A [reflect.StructField]: its name, what [Tag.Get] returns for the keys
    [toon] and [json] (empty when the key is absent), and whether the field
    is exported. *)
Record StructField := {
  Name : gostring;
  toonTag : gostring;
  jsonTag : gostring;
  IsExported : bool
}.

(** A [reflect.Type], as a finite tree.  The recursive types of Go, which
    refer to themselves through a pointer, a slice or a map, have no
    counterpart here. *)
Inductive type :=
| TBool
| TInt (k : intKind)
| TUint (k : uintKind)
| TFloat (k : floatKind)
| TString
| TInterface
| TPtr (elem : type)
| TSlice (elem : type)
| TArray (len : nat) (elem : type)
| TMap (key elem : type)
| TStruct (fields : list (StructField * type))
| TOther (k : otherKind).

Section Values.

  Variable float64 : Type.

  (** A [reflect.Value].  A nil pointer, interface, slice or map is [None].
      The entries of a map are listed in the order in which [MapKeys]
      enumerates them; Go leaves that order unspecified. *)
Inductive value :=
  | VBool (b : bool)
  | VInt (k : intKind) (z : Z)
  | VUint (k : uintKind) (z : Z)
  | VFloat (k : floatKind) (f : float64)
  | VString (s : gostring)
  | VInterface (dyn : option value)
  | VPtr (elem : type) (target : option value)
  | VSlice (elem : type) (data : option (list value))
  | VArray (elem : type) (data : list value)
  | VMap (key elem : type) (entries : option (list (value * value)))
  | VStruct (fields : list (StructField * value))
  | VOther (k : otherKind) (datum : Z).

End Values.

Arguments VBool {float64}.
Arguments VInt {float64}.
Arguments VUint {float64}.
Arguments VString {float64}.
Arguments VInterface {float64}.
Arguments VPtr {float64}.
Arguments VSlice {float64}.
Arguments VArray {float64}.
Arguments VMap {float64}.
Arguments VStruct {float64}.
Arguments VOther {float64}.

(** What the development takes from the Go runtime without modelling it:
    64-bit floating point with [strconv.ParseFloat(s, 64)] ([None] for a
    non-nil error), [==] on floats, [fmt]'s [%g], the rounding of
    [SetFloat] on a [float32], and [fmt]'s [%v] on values that are not
    scalars. *)
Class GoRuntime := {
  float64 : Type;
  floatZero : float64;
  floatEqb : float64 -> float64 -> bool;
  ParseFloat : gostring -> option float64;
  FormatG : float64 -> gostring;
  toFloat32 : float64 -> float64;
  SprintvOther : value float64 -> gostring
}.

Inductive error :=
| ErrInvalidSyntax
| ErrUnmarshalType
| ErrNilPointer
| ErrUnsupportedType
| NumError (fn : gostring) (num : gostring)
| ErrTabularElem
| ErrUnsupportedKind (t : type).

(** Why a call does not return: a run-time panic, a loop that never ends,
    or a model that ran out of fuel. *)
Inductive abort := Panic | Hang | OutOfFuel.

Inductive result (A : Type) :=
| Ok (a : A)
| Err (e : error)
| Abort (w : abort).

Arguments Ok {A}.
Arguments Err {A}.
Arguments Abort {A}.

Definition bind {A B} (m : result A) (k : A -> result B) : result B :=
  match m with
  | Ok a => k a
  | Err e => Err e
  | Abort w => Abort w
  end.

Notation "x <- m ;; k" := (bind m (fun x => k))
  (at level 61, m at next level, right associativity).

(** ** toon.go *)

Record MarshalOptions := {
  Indent : Z;
  Delimiter : gostring;
  UseTabular : bool
}.

Definition DelimiterComma : gostring := str ",".
Definition DelimiterTab : gostring := [TAB].
Definition DelimiterPipe : gostring := str "|".

Definition DefaultMarshalOptions : MarshalOptions :=
  {| Indent := 2; Delimiter := DelimiterComma; UseTabular := true |}.

(** [Valid]. *)
Definition Valid (data : gostring) : bool :=
  forallb (fun line =>
             let trimmed := Strings.TrimSpace line in
             if isEmpty trimmed || Strings.HasPrefix trimmed (str "#") then true
             else Strings.Contains trimmed (str ":")
                  || Strings.Contains trimmed (str "["))
          (Strings.Split data LF).

(** [getFieldName], the same function in the encoder and in the decoder. *)
Definition getFieldName (field : StructField) : gostring :=
  if negb (isEmpty (toonTag field)) then hd [] (Strings.Split (toonTag field) ","%char)
  else if negb (isEmpty (jsonTag field)) then hd [] (Strings.Split (jsonTag field) ","%char)
  else match Name field with
       | c :: rest => Strings.ToLower1 c ++ rest
       | [] => []
       end.

Definition isDash (name : gostring) : bool := gostring_eqb name (str "-").

Section Codec.

  Context {R : GoRuntime}.

  Local Abbreviation val := (value float64).

  (** The static type of a value ([Value.Type]). *)
Fixpoint typeOf (v : val) : type :=
    match v with
    | VBool _ => TBool
    | VInt k _ => TInt k
    | VUint k _ => TUint k
    | VFloat k _ => TFloat k
    | VString _ => TString
    | VInterface _ => TInterface
    | VPtr elem _ => TPtr elem
    | VSlice elem _ => TSlice elem
    | VArray elem data => TArray (length data) elem
    | VMap key elem _ => TMap key elem
    | VStruct fields =>
        TStruct (map (fun fv => (fst fv, typeOf (snd fv))) fields)
    | VOther k _ => TOther k
    end.

  (** [reflect.Zero] / [reflect.New(t).Elem()]. *)
Fixpoint zero (t : type) : val :=
    match t with
    | TBool => VBool false
    | TInt k => VInt k 0
    | TUint k => VUint k 0
    | TFloat k => VFloat k floatZero
    | TString => VString []
    | TInterface => VInterface None
    | TPtr elem => VPtr elem None
    | TSlice elem => VSlice elem None
    | TArray len elem => VArray elem (repeat (zero elem) len)
    | TMap key elem => VMap key elem None
    | TStruct fields => VStruct (map (fun ft => (fst ft, zero (snd ft))) fields)
    | TOther k => VOther k 0
    end.

  (** [fmt.Sprintf("%v", x)]: the scalars print as with [%d], [%g], [%t]
      and as the string itself. *)
Definition Sprintv (v : val) : gostring :=
    match v with
    | VString s => s
    | VInt _ z => Strconv.FormatInt z
    | VUint _ z => Strconv.FormatInt z
    | VFloat _ f => FormatG f
    | VBool b => Strconv.FormatBool b
    | _ => SprintvOther v
    end.

  (** ** encoder.go

      The encoder appends to one buffer; every function below returns the
      text it appends. *)

  Section Encoder.

    Variable opts : MarshalOptions.

Definition writeIndent (depth : Z) : gostring :=
      repeat SP (Z.to_nat (depth * Indent opts)).

Definition needsQuotes (s : gostring) : bool :=
      Strings.ContainsAny s [","%char; "|"%char; TAB; LF].

Fixpoint writePrimitiveValue (v : val) : gostring :=
      match v with
      | VPtr _ None | VInterface None => str "null"
      | VPtr _ (Some v') | VInterface (Some v') => writePrimitiveValue v'
      | VString s =>
          if needsQuotes s
          then [DQUOTE] ++ Strings.ReplaceAll s [DQUOTE] [BACKSLASH; DQUOTE]
                 ++ [DQUOTE]
          else s
      | VInt _ z => Strconv.FormatInt z
      | VUint _ z => Strconv.FormatInt z
      | VFloat _ f => FormatG f
      | VBool b => Strconv.FormatBool b
      | _ => Sprintv v
      end.

Definition encodePrimitive (v : val) (depth : Z) (key : gostring)
      : gostring :=
      writeIndent depth
        ++ (if isEmpty key then [] else key ++ str ": ")
        ++ writePrimitiveValue v ++ [LF].

    (** The fields a record loop visits: exported, and not named [-]. *)
Definition skipped (field : StructField) : bool :=
      negb (IsExported field) || isDash (getFieldName field).

Fixpoint writeStructAsRow_from (first : bool)
      (fields : list (StructField * val)) : gostring :=
      match fields with
      | [] => []
      | (field, fv) :: rest =>
          if negb (IsExported field) then writeStructAsRow_from first rest
          else if isDash (getFieldName field)
          then writeStructAsRow_from first rest
          else (if first then [] else Delimiter opts)
                 ++ writePrimitiveValue fv
                 ++ writeStructAsRow_from false rest
      end.

Definition writeStructAsRow (fields : list (StructField * val))
      : gostring :=
      writeStructAsRow_from true fields.

Fixpoint getStructFieldNames (fields : list (StructField * val))
      : list gostring :=
      match fields with
      | [] => []
      | (field, _) :: rest =>
          if negb (IsExported field) then getStructFieldNames rest
          else if isDash (getFieldName field) then getStructFieldNames rest
          else getFieldName field :: getStructFieldNames rest
      end.

    (** The loop [for v.Kind() == Ptr || v.Kind() == Interface]: the value
        behind the pointers and interfaces, or [None] when a nil is met. *)
Fixpoint deref (v : val) : option val :=
      match v with
      | VPtr _ None | VInterface None => None
      | VPtr _ (Some v') | VInterface (Some v') => deref v'
      | _ => Some v
      end.

Definition isComposite (t : type) : bool :=
      match t with
      | TStruct _ | TSlice _ | TArray _ _ | TMap _ _ => true
      | _ => false
      end.

Definition isUniformStructSlice (elems : list val) : bool :=
      match elems with
      | [] => false
      | first :: _ =>
          match deref first with
          | Some (VStruct fields) =>
              forallb (fun fv => negb (IsExported (fst fv))
                                 || negb (isComposite (typeOf (snd fv))))
                      fields
          | _ => false
          end
      end.

Definition lenTag (n : nat) : gostring :=
      str "[" ++ Strconv.FormatInt (Z.of_nat n).

Definition encodePrimitiveSlice (elems : list val) (depth : Z)
      (key : gostring) : gostring :=
      writeIndent depth ++ key ++ lenTag (length elems) ++ str "]: "
        ++ (fix loop (first : bool) (l : list val) : gostring :=
              match l with
              | [] => []
              | e :: l' =>
                  (if first then [] else Delimiter opts)
                    ++ writePrimitiveValue e ++ loop false l'
              end) true elems
        ++ [LF].

    (** A row of a nil element, or of an element that is not a record,
        panics in [reflect]. *)
Definition encodeTabularSlice (elems : list val) (depth : Z)
      (key : gostring) : result gostring :=
      match elems with
      | [] => Ok []
      | first :: _ =>
          match deref first with
          | None => Ok []
          | Some (VStruct fields0) =>
              let header :=
                writeIndent depth ++ key ++ lenTag (length elems) ++ str "]{"
                  ++ Strings.Join (getStructFieldNames fields0) (str ",")
                  ++ str "}:" ++ [LF] in
              rows <-
                (fix loop (l : list val) : result gostring :=
                   match l with
                   | [] => Ok []
                   | e :: l' =>
                       match deref e with
                       | Some (VStruct fields) =>
                           rest <- loop l' ;;
                           Ok (writeIndent (depth + 1)
                                 ++ writeStructAsRow fields ++ [LF] ++ rest)
                       | _ => Abort Panic
                       end
                   end) elems ;;
              Ok (header ++ rows)
          | Some _ => Abort Panic
          end
      end.

Fixpoint encodeListItem_from (first : bool)
      (fields : list (StructField * val)) (depth : Z) : gostring :=
      match fields with
      | [] => []
      | (field, fv) :: rest =>
          if negb (IsExported field) then encodeListItem_from first rest depth
          else if isDash (getFieldName field)
          then encodeListItem_from first rest depth
          else (if first then [] else writeIndent depth)
                 ++ getFieldName field ++ str ": "
                 ++ writePrimitiveValue fv ++ [LF]
                 ++ encodeListItem_from false rest depth
      end.

Definition encodeListItem (fields : list (StructField * val)) (depth : Z)
      : gostring :=
      encodeListItem_from true fields depth.

Fixpoint encodeListItemMap_from (first : bool)
      (entries : list (val * val)) (depth : Z) : gostring :=
      match entries with
      | [] => []
      | (k, v) :: rest =>
          (if first then [] else writeIndent depth)
            ++ Sprintv k ++ str ": " ++ writePrimitiveValue v ++ [LF]
            ++ encodeListItemMap_from false rest depth
      end.

Definition encodeListItemMap (entries : list (val * val)) (depth : Z)
      : gostring :=
      encodeListItemMap_from true entries depth.

Definition mapEntries (entries : option (list (val * val)))
      : list (val * val) :=
      match entries with Some es => es | None => [] end.

    (** In the loop that unwraps an element, [continue] on a nil element
        continues that same loop, whose condition still holds: the call
        writes [null] lines without end. *)
Definition encodeListSlice (elems : list val) (depth : Z)
      (key : gostring) : result gostring :=
      items <-
        (fix loop (l : list val) : result gostring :=
           match l with
           | [] => Ok []
           | e :: l' =>
               match deref e with
               | None => Abort Hang
               | Some elem =>
                   let item :=
                     match elem with
                     | VStruct fields => encodeListItem fields (depth + 2)
                     | VMap _ _ entries =>
                         encodeListItemMap (mapEntries entries) (depth + 2)
                     | _ => writePrimitiveValue elem ++ [LF]
                     end in
                   rest <- loop l' ;;
                   Ok (writeIndent (depth + 1) ++ str "- " ++ item ++ rest)
               end
           end) elems ;;
      Ok (writeIndent depth ++ key ++ lenTag (length elems) ++ str "]:"
            ++ [LF] ++ items).

Fixpoint derefType (t : type) : type :=
      match t with
      | TPtr elem => derefType elem
      | _ => t
      end.

Definition encodeSlice (elem : type) (elems : list val) (depth : Z)
      (key : gostring) : result gostring :=
      match elems with
      | [] =>
          Ok (if isEmpty key then []
              else writeIndent depth ++ key ++ str "[0]:" ++ [LF])
      | _ =>
          match derefType elem with
          | TStruct _ =>
              if UseTabular opts && isUniformStructSlice elems
              then encodeTabularSlice elems depth key
              else encodeListSlice elems depth key
          | TMap _ _ => encodeListSlice elems depth key
          | _ => Ok (encodePrimitiveSlice elems depth key)
          end
      end.

Definition blockHeader (depth : Z) (key : gostring) : gostring :=
      if isEmpty key then [] else writeIndent depth ++ key ++ str ":" ++ [LF].

Definition blockDepth (depth : Z) (key : gostring) : Z :=
      if isEmpty key then depth else (depth + 1)%Z.

Definition encodeStruct
      (encodeValue : val -> Z -> gostring -> result gostring)
      (fields : list (StructField * val)) (depth : Z) (key : gostring)
      : result gostring :=
      body <-
        (fix loop (l : list (StructField * val)) : result gostring :=
           match l with
           | [] => Ok []
           | (field, fv) :: l' =>
               if negb (IsExported field) then loop l'
               else if isDash (getFieldName field) then loop l'
               else
                 out <- encodeValue fv (blockDepth depth key)
                          (getFieldName field) ;;
                 rest <- loop l' ;;
                 Ok (out ++ rest)
           end) fields ;;
      Ok (blockHeader depth key ++ body).

Definition encodeMap
      (encodeValue : val -> Z -> gostring -> result gostring)
      (entries : list (val * val)) (depth : Z) (key : gostring)
      : result gostring :=
      body <-
        (fix loop (l : list (val * val)) : result gostring :=
           match l with
           | [] => Ok []
           | (k, v) :: l' =>
               out <- encodeValue v (blockDepth depth key) (Sprintv k) ;;
               rest <- loop l' ;;
               Ok (out ++ rest)
           end) entries ;;
      Ok (blockHeader depth key ++ body).

    (** A nil map has no keys, and [encodeMap] writes its header alone. *)
Fixpoint encodeValue (v : val) (depth : Z) (key : gostring) {struct v}
      : result gostring :=
      match v with
      | VPtr _ None | VInterface None =>
          Ok (if isEmpty key then []
              else writeIndent depth ++ key ++ str ": null" ++ [LF])
      | VPtr _ (Some v') | VInterface (Some v') => encodeValue v' depth key
      | VStruct fields => encodeStruct encodeValue fields depth key
      | VMap _ _ (Some entries) => encodeMap encodeValue entries depth key
      | VMap _ _ None => Ok (blockHeader depth key)
      | VSlice elem data =>
          encodeSlice elem (match data with Some l => l | None => [] end)
            depth key
      | VArray elem data => encodeSlice elem data depth key
      | _ => Ok (encodePrimitive v depth key)
      end.

    (** [encode]: [None] is the nil interface, for which [reflect.ValueOf]
        gives the invalid value and nothing is written. *)
Definition encode (v : option val) : result gostring :=
      match v with
      | None => Ok []
      | Some x => encodeValue x 0 []
      end.

  End Encoder.

  (** [MarshalWithOptions] and [Marshal] of toon.go. *)
Definition MarshalWithOptions (v : option val) (opts : MarshalOptions)
    : result gostring :=
    encode opts v.

Definition Marshal (v : option val) : result gostring :=
    MarshalWithOptions v DefaultMarshalOptions.

  (** ** decoder.go *)

Record decoder := { lines : list gostring; pos : nat }.

Definition newDecoder (data : gostring) : decoder :=
    {| lines := Strings.Split data LF; pos := 0 |}.

  (** A line that is empty once trimmed, or a comment. *)
Definition isBlank (line : gostring) : bool :=
    let t := Strings.TrimSpace line in
    isEmpty t || Strings.HasPrefix t (str "#").

Definition hasMore (d : decoder) : bool :=
    existsb (fun line => negb (isBlank line)) (skipn (pos d) (lines d)).

Definition currentLine (d : decoder) : gostring :=
    nth (pos d) (lines d) [].

Definition advance (d : decoder) : decoder :=
    {| lines := lines d; pos := S (pos d) |}.

Fixpoint countBlank (l : list gostring) : nat :=
    match l with
    | [] => 0
    | line :: l' => if isBlank line then S (countBlank l') else 0
    end.

Definition skipEmptyLines (d : decoder) : decoder :=
    {| lines := lines d;
       pos := pos d + countBlank (skipn (pos d) (lines d)) |}.

Fixpoint getIndent (line : gostring) : nat :=
    match line with
    | c :: line' => if Ascii.eqb c SP then S (getIndent line') else 0
    | [] => 0
    end.

  (** *** The two regular expressions *)

Fixpoint span (p : ascii -> bool) (s : gostring) : gostring * gostring :=
    match s with
    | c :: s' =>
        if p c then let (a, b) := span p s' in (c :: a, b) else ([], s)
    | [] => ([], [])
    end.

Definition isHint (c : ascii) : bool :=
    Ascii.eqb c ","%char || Ascii.eqb c TAB || Ascii.eqb c "|"%char.

  (** The optional group [(?:\{([^}]+)\})?] at the front of [s]: the text
      between the braces, empty when the group does not take part. *)
Definition matchColumns (s : gostring) : gostring :=
    match s with
    | c :: s' =>
        if Ascii.eqb c "{"%char then
          let (cols, rest) := span (fun x => negb (Ascii.eqb x "}"%char)) s' in
          match cols, rest with
          | _ :: _, _ :: _ => cols
          | _, _ => []
          end
        else []
    | [] => []
    end.

  (** [\[(\d+)(?:[,\t|])?\](?:\{([^}]+)\})?] at the front of [s]: the digits
      and the column text. *)
Definition matchBracket (s : gostring) : option (gostring * gostring) :=
    match s with
    | c :: s' =>
        if Ascii.eqb c "["%char then
          let (digits, rest) := span Strconv.isDigit s' in
          match digits with
          | [] => None
          | _ =>
              let rest' := match rest with
                           | h :: t => if isHint h then t else rest
                           | [] => rest
                           end in
              match rest' with
              | b :: after =>
                  if Ascii.eqb b "]"%char
                  then Some (digits, matchColumns after) else None
              | [] => None
              end
          end
        else None
    | [] => None
    end.

  (** The match of [^(.+?)\[(\d+)(?:[,\t|])?\](?:\{([^}]+)\})?]: the lazy
      first group stops at the first bracket, after at least one character
      and before any line feed, from which the rest matches.  [seen] tells
      that the first group is not empty. *)
Fixpoint findDeclaration (seen : bool) (s : gostring)
    : option (gostring * gostring) :=
    match s with
    | [] => None
    | c :: s' =>
        match (if seen then matchBracket s else None) with
        | Some m => Some m
        | None => if Ascii.eqb c LF then None else findDeclaration true s'
        end
    end.

Definition parseArrayDeclaration (key : gostring) : Z * list gostring :=
    match findDeclaration false key with
    | None => ((-1)%Z, [])
    | Some (digits, cols) =>
        (Strconv.AtoiDigits digits,
         if isEmpty cols then []
         else map Strings.TrimSpace (Strings.Split cols ","%char))
    end.

  (** The first group of [^(.+?)\[]. *)
Fixpoint beforeBracket (seen : bool) (s : gostring) : option gostring :=
    match s with
    | [] => None
    | c :: s' =>
        if seen && Ascii.eqb c "["%char then Some []
        else if Ascii.eqb c LF then None
        else match beforeBracket true s' with
             | Some p => Some (c :: p)
             | None => None
             end
    end.

Definition extractKeyFromArray (key : gostring) : gostring :=
    match beforeBracket false key with
    | Some name => name
    | None => key
    end.

  (** *** Scalars *)

  (** A token between double quotes loses them, and its [\"] become ["]. *)
Definition unquote (s : gostring) : gostring :=
    if (2 <=? length s) && Ascii.eqb (hd SP s) DQUOTE
       && Ascii.eqb (last s SP) DQUOTE
    then Strings.ReplaceAll (removelast (tl s)) [BACKSLASH; DQUOTE] [DQUOTE]
    else s.

  (** [setPrimitiveValue(v, s)].  What is stored depends on [v] through its
      type only; the function takes that type and returns the value that
      [v] holds afterwards. *)
Fixpoint setPrimitiveValue (t : type) (s : gostring) : result val :=
    let s := unquote (Strings.TrimSpace s) in
    match t with
    | TString => Ok (VString s)
    | TInt k =>
        match Strconv.ParseInt s with
        | Some i => Ok (VInt k (wrapInt k i))
        | None => Err (NumError (str "ParseInt") s)
        end
    | TUint k =>
        match Strconv.ParseUint s with
        | Some u => Ok (VUint k (wrapUint k u))
        | None => Err (NumError (str "ParseUint") s)
        end
    | TFloat k =>
        match ParseFloat s with
        | Some f =>
            Ok (VFloat k (match k with KFloat32 => toFloat32 f | KFloat64 => f end))
        | None => Err (NumError (str "ParseFloat") s)
        end
    | TBool =>
        match Strconv.ParseBool s with
        | Some b => Ok (VBool b)
        | None => Err (NumError (str "ParseBool") s)
        end
    | TInterface =>
        if gostring_eqb s (str "null") then Ok (VInterface None)
        else match Strconv.ParseInt s with
             | Some i => Ok (VInterface (Some (VInt KInt64 i)))
             | None =>
                 match ParseFloat s with
                 | Some f => Ok (VInterface (Some (VFloat KFloat64 f)))
                 | None =>
                     match Strconv.ParseBool s with
                     | Some b => Ok (VInterface (Some (VBool b)))
                     | None => Ok (VInterface (Some (VString s)))
                     end
                 end
             end
    | TPtr elem =>
        v <- setPrimitiveValue elem s ;;
        Ok (VPtr elem (Some v))
    | _ => Err (ErrUnsupportedKind t)
    end.

  (** *** Records, maps and slices *)

  (** A [map[string]int]: the latest entry of a key shadows the others. *)
Definition fieldMap := list (gostring * nat).

Definition lookup (m : fieldMap) (key : gostring) : option nat :=
    match find (fun e => gostring_eqb (fst e) key) m with
    | Some e => Some (snd e)
    | None => None
    end.

  (** The loop that fills the field map, from field [i] on.  The record
      decoders leave out the name [-]; the tabular decoder does not. *)
Fixpoint buildFieldMap (dropDash : bool) (i : nat)
    (fields : list (StructField * val)) (m : fieldMap) : fieldMap :=
    match fields with
    | [] => m
    | (field, _) :: rest =>
        if negb (IsExported field) then buildFieldMap dropDash (S i) rest m
        else
          let name := getFieldName field in
          if dropDash && isDash name then buildFieldMap dropDash (S i) rest m
          else buildFieldMap dropDash (S i) rest ((name, i) :: m)
    end.

  (** [v.Field(i)] read and written. *)
Fixpoint setField (fields : list (StructField * val)) (i : nat) (v : val)
    : list (StructField * val) :=
    match fields, i with
    | [], _ => []
    | (f, _) :: rest, O => (f, v) :: rest
    | fv :: rest, S i' => fv :: setField rest i' v
    end.

Definition fieldType (fields : list (StructField * val)) (i : nat)
    : option type :=
    match nth_error fields i with
    | Some (_, v) => Some (typeOf v)
    | None => None
    end.

  (** A value assigned to a field through the field map. *)
Definition setNamed (fm : fieldMap) (fields : list (StructField * val))
    (key value : gostring) : result (list (StructField * val)) :=
    match lookup fm key with
    | Some fieldIdx =>
        match fieldType fields fieldIdx with
        | Some t =>
            v <- setPrimitiveValue t value ;;
            Ok (setField fields fieldIdx v)
        | None => Abort Panic
        end
    | None => Ok fields
    end.

  (** The delimiter of a row or of an inline array is inferred from the
      text: a tab, else a pipe, else a comma. *)
Definition splitDelimited (s : gostring) : list gostring :=
    if Strings.Contains s [TAB] then Strings.Split s TAB
    else if Strings.Contains s (str "|") then Strings.Split s "|"%char
    else Strings.Split s ","%char.

  (** [v.Type().Elem()], which panics on a kind without element type.  A
      channel has an element type as well; a value of another kind keeps
      none here, and a channel under the header of an array is outside the
      model. *)
Definition elemOf (v : val) : option type :=
    match v with
    | VSlice elem _ | VArray elem _ | VPtr elem _ | VMap _ elem _ => Some elem
    | _ => None
    end.

Definition decodeInlineArray (v : val) (value : gostring) : result val :=
    match elemOf v with
    | None => Abort Panic
    | Some elemType =>
        match v with
        | VSlice _ _ =>
            slice <-
              (fix loop (parts : list gostring) (slice : list val)
                 : result (list val) :=
                 match parts with
                 | [] => Ok slice
                 | part :: parts' =>
                     let part := Strings.TrimSpace part in
                     if isEmpty part then loop parts' slice
                     else
                       elem <- setPrimitiveValue elemType part ;;
                       loop parts' (slice ++ [elem])
                 end) (splitDelimited value) [] ;;
            Ok (VSlice elemType (Some slice))
        | _ => Abort Panic
        end
    end.

  (** The loop over the column names of a row. *)
Fixpoint assignColumns (fm : fieldMap) (fieldNames : list gostring)
    (j : nat) (values : list gostring) (elem : list (StructField * val))
    : result (list (StructField * val)) :=
    match fieldNames with
    | [] => Ok elem
    | fieldName :: rest =>
        elem' <-
          (if j <? length values
           then setNamed fm elem fieldName (Strings.TrimSpace (nth j values []))
           else Ok elem) ;;
        assignColumns fm rest (S j) values elem'
    end.

  (** The row loop of [decodeTabularArray]; [n] bounds the number of its
      iterations, each of which consumes a line. *)
Fixpoint tabularRows (n : nat) (i length : Z) (fm : fieldMap)
    (fieldNames : list gostring) (indent : nat)
    (zeroElem : list (StructField * val)) (d : decoder) (slice : list val)
    : result (list val * decoder) :=
    if (i <? length)%Z && hasMore d then
      match n with
      | O => Abort OutOfFuel
      | S n' =>
          let d := skipEmptyLines d in
          if negb (hasMore d) then Ok (slice, d)
          else
            let line := currentLine d in
            if (getIndent line <=? indent)
               && isEmpty (Strings.TrimSpace line)
            then tabularRows n' (i + 1) length fm fieldNames indent zeroElem
                   (advance d) slice
            else
              let rowData := Strings.TrimSpace line in
              let d := advance d in
              let values := splitDelimited rowData in
              elem <- assignColumns fm fieldNames 0 values zeroElem ;;
              tabularRows n' (i + 1) length fm fieldNames indent zeroElem d
                (slice ++ [VStruct elem])
      end
    else Ok (slice, d).

Definition zeroFields (t : type) : option (list (StructField * val)) :=
    match zero t with
    | VStruct fields => Some fields
    | _ => None
    end.

  (** [MakeSlice] is given the declared length as the capacity; a length
      that the memory does not hold is outside the model. *)
Definition decodeTabularArray (v : val) (length : Z)
    (fieldNames : list gostring) (indent : nat) (d : decoder)
    : result (val * decoder) :=
    match elemOf v with
    | None => Abort Panic
    | Some elemType =>
        match zeroFields elemType with
        | None => Err ErrTabularElem
        | Some zeroElem =>
            match v with
            | VSlice _ _ =>
                let fm := buildFieldMap false 0 zeroElem [] in
                r <- tabularRows (List.length (lines d)) 0 length fm
                       fieldNames indent zeroElem d [] ;;
                Ok (VSlice elemType (Some (fst r)), snd r)
            | _ => Abort Panic
            end
        end
    end.

  (** The loop of [decodeStructFromListItem] over the lines after the
      first. *)
Fixpoint listItemLines (n : nat) (fm : fieldMap) (expectedIndent : nat)
    (fields : list (StructField * val)) (d : decoder)
    : result (list (StructField * val) * decoder) :=
    if negb (hasMore d) then Ok (fields, d)
    else
      match n with
      | O => Abort OutOfFuel
      | S n' =>
          let d := skipEmptyLines d in
          if negb (hasMore d) then Ok (fields, d)
          else
            let line := currentLine d in
            let indent := getIndent line in
            if indent <? expectedIndent then Ok (fields, d)
            else
              let trimmed := Strings.TrimSpace line in
              if negb (Strings.Contains trimmed (str ":")) then Ok (fields, d)
              else
                match Strings.SplitN2 trimmed ":"%char with
                | [k; v] =>
                    let key := Strings.TrimSpace k in
                    let value := Strings.TrimSpace v in
                    fields' <- setNamed fm fields key value ;;
                    listItemLines n' fm expectedIndent fields' (advance d)
                | _ => listItemLines n' fm expectedIndent fields (advance d)
                end
      end.

Definition decodeStructFromListItem (fields : list (StructField * val))
    (firstLine : gostring) (expectedIndent : nat) (d : decoder)
    : result (list (StructField * val) * decoder) :=
    let fm := buildFieldMap true 0 fields [] in
    fields' <-
      (if Strings.Contains firstLine (str ":") then
         match Strings.SplitN2 firstLine ":"%char with
         | [k; v] =>
             setNamed fm fields (Strings.TrimSpace k) (Strings.TrimSpace v)
         | _ => Abort Panic
         end
       else Ok fields) ;;
    listItemLines (List.length (lines d)) fm expectedIndent fields' d.

  (** The loop of [decodeSlice]. *)
Fixpoint sliceItems (n : nat) (elemType : type) (expectedIndent : nat)
    (d : decoder) (slice : list val) : result (list val * decoder) :=
    if negb (hasMore d) then Ok (slice, d)
    else
      match n with
      | O => Abort OutOfFuel
      | S n' =>
          let d := skipEmptyLines d in
          if negb (hasMore d) then Ok (slice, d)
          else
            let line := currentLine d in
            let indent := getIndent line in
            if (0 <? expectedIndent) && (indent <? expectedIndent)
            then Ok (slice, d)
            else
              let trimmed := Strings.TrimSpace line in
              if negb (Strings.HasPrefix trimmed (str "- ")) then Ok (slice, d)
              else
                let itemContent := Strings.TrimSpace (skipn 2 trimmed) in
                let d := advance d in
                r <-
                  match zero elemType with
                  | VStruct fields =>
                      if Strings.Contains itemContent (str ":") then
                        r <- decodeStructFromListItem fields itemContent
                               (indent + 2) d ;;
                        Ok (VStruct (fst r), snd r)
                      else Ok (VStruct fields, d)
                  | _ =>
                      elem <- setPrimitiveValue elemType itemContent ;;
                      Ok (elem, d)
                  end ;;
                sliceItems n' elemType expectedIndent (snd r)
                  (slice ++ [fst r])
      end.

Definition decodeSlice (v : val) (expectedIndent : nat) (d : decoder)
    : result (val * decoder) :=
    match v with
    | VSlice elemType _ =>
        r <- sliceItems (List.length (lines d)) elemType expectedIndent d [] ;;
        Ok (VSlice elemType (Some (fst r)), snd r)
    | _ => Abort Panic
    end.

  (** [==] on map keys of the kinds that [setPrimitiveValue] produces; two
      pointers that were allocated apart differ. *)
Fixpoint keyEqb (a b : val) : bool :=
    match a, b with
    | VString x, VString y => gostring_eqb x y
    | VInt _ x, VInt _ y => (x =? y)%Z
    | VUint _ x, VUint _ y => (x =? y)%Z
    | VFloat _ x, VFloat _ y => floatEqb x y
    | VBool x, VBool y => Bool.eqb x y
    | VInterface (Some x), VInterface (Some y) => keyEqb x y
    | VInterface None, VInterface None => true
    | _, _ => false
    end.

  (** [SetMapIndex]. *)
Fixpoint setMapIndex (entries : list (val * val)) (key elem : val)
    : list (val * val) :=
    match entries with
    | [] => [(key, elem)]
    | (k, e) :: rest =>
        if keyEqb k key then (k, elem) :: rest
        else (k, e) :: setMapIndex rest key elem
    end.

  Section Recursion.

    (** [decodeValue] one level down. *)
    Variable decodeValue : val -> nat -> decoder -> result (val * decoder).

Definition decodeArrayField (v : val) (length : Z)
      (fieldNames : list gostring) (value : gostring) (indent : nat)
      (d : decoder) : result (val * decoder) :=
      match fieldNames with
      | _ :: _ => decodeTabularArray v length fieldNames indent d
      | [] =>
          if negb (isEmpty value) then
            v' <- decodeInlineArray v value ;;
            Ok (v', d)
          else decodeValue v (indent + 2) d
      end.

Fixpoint structLines (n : nat) (fm : fieldMap) (expectedIndent : nat)
      (fields : list (StructField * val)) (d : decoder)
      : result (list (StructField * val) * decoder) :=
      if negb (hasMore d) then Ok (fields, d)
      else
        match n with
        | O => Abort OutOfFuel
        | S n' =>
            let d := skipEmptyLines d in
            if negb (hasMore d) then Ok (fields, d)
            else
              let line := currentLine d in
              let indent := getIndent line in
              if (0 <? expectedIndent) && (indent <? expectedIndent)
              then Ok (fields, d)
              else
                let trimmed := Strings.TrimSpace line in
                if negb (Strings.Contains trimmed (str ":"))
                then structLines n' fm expectedIndent fields (advance d)
                else
                  match Strings.SplitN2 trimmed ":"%char with
                  | [k; v] =>
                      let key := Strings.TrimSpace k in
                      let value := Strings.TrimSpace v in
                      let (arrayLen, fieldNames) := parseArrayDeclaration key in
                      let key := if (0 <=? arrayLen)%Z
                                 then extractKeyFromArray key else key in
                      match lookup fm key with
                      | None =>
                          structLines n' fm expectedIndent fields (advance d)
                      | Some fieldIdx =>
                          match nth_error fields fieldIdx with
                          | None => Abort Panic
                          | Some (_, fieldValue) =>
                              let d := advance d in
                              r <-
                                (if (0 <=? arrayLen)%Z then
                                   decodeArrayField fieldValue arrayLen
                                     fieldNames value indent d
                                 else if isEmpty value then
                                   decodeValue fieldValue (indent + 2) d
                                 else
                                   fv <- setPrimitiveValue (typeOf fieldValue)
                                           value ;;
                                   Ok (fv, d)) ;;
                              structLines n' fm expectedIndent
                                (setField fields fieldIdx (fst r)) (snd r)
                          end
                      end
                  | _ => structLines n' fm expectedIndent fields (advance d)
                  end
        end.

Definition decodeStruct (fields : list (StructField * val))
      (expectedIndent : nat) (d : decoder) : result (val * decoder) :=
      let fm := buildFieldMap true 0 fields [] in
      r <- structLines (List.length (lines d)) fm expectedIndent fields d ;;
      Ok (VStruct (fst r), snd r).

Fixpoint mapLines (n : nat) (keyType elemType : type)
      (expectedIndent : nat) (entries : list (val * val)) (d : decoder)
      : result (list (val * val) * decoder) :=
      if negb (hasMore d) then Ok (entries, d)
      else
        match n with
        | O => Abort OutOfFuel
        | S n' =>
            let d := skipEmptyLines d in
            if negb (hasMore d) then Ok (entries, d)
            else
              let line := currentLine d in
              let indent := getIndent line in
              if (0 <? expectedIndent) && (indent <? expectedIndent)
              then Ok (entries, d)
              else
                let trimmed := Strings.TrimSpace line in
                if negb (Strings.Contains trimmed (str ":"))
                then mapLines n' keyType elemType expectedIndent entries
                       (advance d)
                else
                  match Strings.SplitN2 trimmed ":"%char with
                  | [k; v] =>
                      let keyStr := Strings.TrimSpace k in
                      let valueStr := Strings.TrimSpace v in
                      key <- setPrimitiveValue keyType keyStr ;;
                      let d := advance d in
                      r <-
                        (if isEmpty valueStr then
                           decodeValue (zero elemType) (indent + 2) d
                         else
                           elem <- setPrimitiveValue elemType valueStr ;;
                           Ok (elem, d)) ;;
                      mapLines n' keyType elemType expectedIndent
                        (setMapIndex entries key (fst r)) (snd r)
                  | _ => mapLines n' keyType elemType expectedIndent entries
                           (advance d)
                  end
        end.

Definition decodeMap (v : val) (expectedIndent : nat) (d : decoder)
      : result (val * decoder) :=
      match v with
      | VMap keyType elemType entries =>
          r <- mapLines (List.length (lines d)) keyType elemType
                 expectedIndent (mapEntries entries) d ;;
          Ok (VMap keyType elemType (Some (fst r)), snd r)
      | _ => Abort Panic
      end.

Definition decodeValue_body (v : val) (expectedIndent : nat)
      (d : decoder) : result (val * decoder) :=
      let d := skipEmptyLines d in
      if negb (hasMore d) then Ok (v, d)
      else
        match v with
        | VStruct fields => decodeStruct fields expectedIndent d
        | VMap _ _ _ => decodeMap v expectedIndent d
        | VSlice _ _ => decodeSlice v expectedIndent d
        | VPtr elem target =>
            let pointee := match target with
                           | Some x => x
                           | None => zero elem
                           end in
            r <- decodeValue pointee expectedIndent d ;;
            Ok (VPtr elem (Some (fst r)), snd r)
        | VInterface _ =>
            r <- decodeMap (VMap TString TInterface (Some [])) expectedIndent d ;;
            Ok (VInterface (Some (fst r)), snd r)
        | _ =>
            let d := skipEmptyLines d in
            if negb (hasMore d) then Ok (v, d)
            else
              let line := currentLine d in
              let trimmed := Strings.TrimSpace line in
              let d := advance d in
              v' <- setPrimitiveValue (typeOf v) trimmed ;;
              Ok (v', d)
        end.

  End Recursion.

  (** [decodeValue]; [fuel] bounds the depth of the nested calls. *)
Fixpoint decodeValue (fuel : nat) (v : val) (expectedIndent : nat)
    (d : decoder) : result (val * decoder) :=
    match fuel with
    | O => Abort OutOfFuel
    | S fuel' => decodeValue_body (decodeValue fuel') v expectedIndent d
    end.

  (** [decode]; the result is the pointer with what it points to after the
      call. *)
Definition decode (fuel : nat) (v : option val) (d : decoder) : result val :=
    match v with
    | Some (VPtr elem (Some target)) =>
        r <- decodeValue fuel target 0 d ;;
        Ok (VPtr elem (Some (fst r)))
    | Some (VPtr _ None) => Err ErrNilPointer
    | _ => Err ErrUnmarshalType
    end.

Definition Unmarshal (fuel : nat) (data : gostring) (v : option val)
    : result val :=
    decode fuel v (newDecoder data).

End Codec.

(** ** Vocabulary of the statements *)

(** A call that returns no error: it returns a result, or does not return. *)
Definition errorFree {A} (m : result A) : Prop := forall e, m <> Err e.

(** What the encoder does to the double quotes of a string that it puts
    between quotes, and what the decoder does to the token. *)
Definition escape (s : gostring) : gostring :=
  Strings.ReplaceAll s [DQUOTE] [BACKSLASH; DQUOTE].

Definition unescape (s : gostring) : gostring :=
  Strings.ReplaceAll s [BACKSLASH; DQUOTE] [DQUOTE].

Definition isASCII (c : ascii) : bool := code c <? 128.

Arguments isASCII : simpl never.

(** The bytes of a number. *)
Definition numeric (c : ascii) : bool :=
  Strconv.isDigit c || Ascii.eqb c "-"%char.

Definition noDelimiter (tok : gostring) : Prop :=
  Strings.ContainsAny tok [","%char; "|"%char; TAB] = false.

(** The decoder that has read the lines [pre] and has the lines [post]
    before it. *)
Definition cursor (pre post : list gostring) : decoder :=
  {| lines := pre ++ post; pos := length pre |}.

(** A decoder over the lines of [d] that is not before it. *)
Definition forward (d d' : decoder) : Prop :=
  lines d' = lines d /\ pos d <= pos d'.

(** The lines that a decoder has not passed. *)
Definition remaining (d : decoder) : nat := length (lines d) - pos d.

(** How far [decodeValue] descends into a type. *)
Fixpoint tdepth (t : type) : nat :=
  match t with
  | TPtr elem => S (tdepth elem)
  | TMap _ elem => S (tdepth elem)
  | TStruct fields => S (list_max (map (fun ft => tdepth (snd ft)) fields))
  | _ => 1
  end.

Definition trimmed (tok : gostring) : Prop :=
  tok <> [] /\ Strings.TrimSpace tok = tok.

(** What the decoder needs of the cells of a row. *)
Record rowCells (toks : list gostring) : Prop := {
  cells_nonempty : toks <> [];
  cells_trimmed : Forall trimmed toks;
  cells_plain : Forall noDelimiter toks;
  cells_first : Strings.HasPrefix (hd [] toks) (str "#") = false
}.

(** A column name that a header carries. *)
Definition columnName (name : gostring) : Prop :=
  name <> [] /\ Strings.TrimSpace name = name
  /\ ~ In ","%char name /\ ~ In "}"%char name.

(** A name that the header of a table carries as a column: a column name
    without colon and line feed. *)
Definition headerName (name : gostring) : Prop :=
  columnName name /\ ~ In ":"%char name /\ ~ In LF name.

(** The text of a line before its first colon: not empty, not trimmed,
    without colon, and no comment. *)
Definition lineKey (key : gostring) : Prop :=
  key <> []
  /\ Strings.TrimSpace key = key
  /\ ~ In ":"%char key
  /\ Strings.HasPrefix key (str "#") = false.

(** One of the three delimiters that toon.go names. *)
Definition knownDelimiter (opts : MarshalOptions) : Prop :=
  In (Delimiter opts) [DelimiterComma; DelimiterTab; DelimiterPipe].

(** A name that a line carries as its key: it is not empty, has no white
    space at its ends, no colon, no opening bracket and no line feed, does
    not start a comment and is not the name [-] of a field left out. *)
Definition bareKey (k : gostring) : Prop :=
  k <> []
  /\ Strings.TrimSpace k = k
  /\ ~ In ":"%char k /\ ~ In "["%char k /\ ~ In LF k
  /\ Strings.HasPrefix k (str "#") = false
  /\ k <> str "-".

(** The range of an integer kind. *)
Definition intInRange (k : intKind) (z : Z) : Prop :=
  (- 2 ^ (intBits k - 1) <= z < 2 ^ (intBits k - 1))%Z.

Definition uintInRange (k : uintKind) (z : Z) : Prop :=
  (0 <= z < 2 ^ uintBits k)%Z.

(** A byte of ASCII that is no white space. *)
Definition graphic (c : ascii) : bool :=
  isASCII c && negb (Strings.asciiSpace c).

(** One white-space rune taken from the front. *)
Definition ltrim1 (s : gostring) : option gostring :=
  match s with
  | [] => None
  | c1 :: r1 =>
      if Strings.asciiSpace c1 then Some r1 else
      match r1 with
      | [] => None
      | c2 :: r2 =>
          if Strings.space2 c1 c2 then Some r2 else
          match r2 with
          | [] => None
          | c3 :: r3 => if Strings.space3 c1 c2 c3 then Some r3 else None
          end
      end
  end.

Definition rtrim1 (s : gostring) : option gostring :=
  match s with
  | [] => None
  | c1 :: r1 =>
      if Strings.asciiSpace c1 then Some r1 else
      match r1 with
      | [] => None
      | c2 :: r2 =>
          if Strings.space2 c2 c1 then Some r2 else
          match r2 with
          | [] => None
          | c3 :: r3 => if Strings.space3 c3 c2 c1 then Some r3 else None
          end
      end
  end.

Definition asciiHead (s : gostring) : bool :=
  match s with
  | [] => true
  | c :: _ => isASCII c
  end.

(** A runtime for closed examples: its floating-point numbers are the
    integers, written in decimal.  No example below holds a float. *)
Definition integerRuntime : GoRuntime :=
  {| float64 := Z;
     floatZero := 0%Z;
     floatEqb := Z.eqb;
     ParseFloat := Strconv.ParseInt;
     FormatG := Strconv.FormatInt;
     toFloat32 := fun f => f;
     SprintvOther := fun _ => [] |}.

(** A field with a [toon] tag. *)
Definition tagged (name tag : string) : StructField :=
  {| Name := str name; toonTag := str tag; jsonTag := []; IsExported := true |}.

Section Vocabulary.

  Context {R : GoRuntime}.

  (** The inference of section 4.1 of the specification, in its words: the
      literal [null], else an integer, else a float, else a boolean, else
      the text itself. *)
Inductive UntypedInference : gostring -> value float64 -> Prop :=
  | InferNull :
      UntypedInference (str "null") (VInterface None)
  | InferInt tok i :
      tok <> str "null" ->
      Strconv.ParseInt tok = Some i ->
      UntypedInference tok (VInterface (Some (VInt KInt64 i)))
  | InferFloat tok f :
      tok <> str "null" ->
      Strconv.ParseInt tok = None ->
      ParseFloat tok = Some f ->
      UntypedInference tok (VInterface (Some (VFloat KFloat64 f)))
  | InferBool tok b :
      tok <> str "null" ->
      Strconv.ParseInt tok = None ->
      ParseFloat tok = None ->
      Strconv.ParseBool tok = Some b ->
      UntypedInference tok (VInterface (Some (VBool b)))
  | InferString tok :
      tok <> str "null" ->
      Strconv.ParseInt tok = None ->
      ParseFloat tok = None ->
      Strconv.ParseBool tok = None ->
      UntypedInference tok (VInterface (Some (VString tok))).



  (** A record with one slice of strings, [Items []string `toon:"items"`]. *)
Definition itemsRecord (data : option (list (value float64)))
    : value float64 :=
    VStruct [(tagged "Items" "items", VSlice TString data)].

  (** A record with one slice of strings, [Friends []string
      `toon:"friends"`]. *)
Definition friendsRecord (data : option (list (value float64)))
    : value float64 :=
    VStruct [(tagged "Friends" "friends", VSlice TString data)].

  (** The same with a second field, [Name string `toon:"name"`]. *)
Definition itemsNameRecord (data : option (list (value float64)))
    (name : gostring) : value float64 :=
    VStruct [(tagged "Items" "items", VSlice TString data);
             (tagged "Name" "name", VString name)].

  (** The scalar kinds of the specification. *)
Definition isScalar (v : value float64) : bool :=
    match v with
    | VBool _ | VInt _ _ | VUint _ _ | VFloat _ _ | VString _ => true
    | _ => false
    end.

  (** A scalar that a line of its own carries unharmed: its token is not
      empty, has no white space at its ends and no line feed, and is
      decoded into the scalar. *)
Definition lineSafe (v : value float64) : Prop :=
    isScalar v = true
    /\ writePrimitiveValue v <> []
    /\ Strings.TrimSpace (writePrimitiveValue v) = writePrimitiveValue v
    /\ ~ In LF (writePrimitiveValue v)
    /\ setPrimitiveValue (typeOf v) (writePrimitiveValue v) = Ok v.

  (** A scalar that a cell of a row or of an inline array carries
      unharmed: its token holds none of the three delimiters either. *)
Definition cellSafe (v : value float64) : Prop :=
    lineSafe v
    /\ Strings.ContainsAny (writePrimitiveValue v) [","%char; "|"%char; TAB]
       = false.

  (** The line of a scalar field without its line feed, and the text of a
      record of such fields. *)
Definition fieldLine (fv : StructField * value float64) : gostring :=
    getFieldName (fst fv) ++ str ": " ++ writePrimitiveValue (snd fv).

Definition recordText (fields : list (StructField * value float64))
    : gostring :=
    concat (map (fun fv => fieldLine fv ++ [LF]) fields).

  (** A field that the record decoders find again on its line. *)
Definition plainField (fv : StructField * value float64) : Prop :=
    IsExported (fst fv) = true
    /\ bareKey (getFieldName (fst fv))
    /\ lineSafe (snd fv).

  (** A scalar that a row carries as a cell, also as its first: its token
      does not start a comment. *)
Definition rowSafe (v : value float64) : Prop :=
    cellSafe v
    /\ Strings.HasPrefix (writePrimitiveValue v) (str "#") = false.

  (** A field that has a column of its own. *)
Definition rowField (fv : StructField * value float64) : Prop :=
    IsExported (fst fv) = true
    /\ getFieldName (fst fv) <> str "-"
    /\ rowSafe (snd fv).

  (** The names of the fields [js] of a record type, and the tokens of
      these fields in a record: the columns of a header and the cells of a
      row, in the order [js]. *)
Definition columnNames (T : list (StructField * type)) (js : list nat)
    : list gostring :=
    map (fun j => match nth_error T j with
                  | Some ft => getFieldName (fst ft)
                  | None => []
                  end) js.

Definition cells (r : list (StructField * value float64)) (js : list nat)
    : list gostring :=
    map (fun j => match nth_error r j with
                  | Some fv => writePrimitiveValue (snd fv)
                  | None => []
                  end) js.

Definition rowLine (opts : MarshalOptions) (depth : Z)
    (r : list (StructField * value float64)) (js : list nat) : gostring :=
    writeIndent opts (depth + 1) ++ Strings.Join (cells r js) (Delimiter opts).

  (** The field types of a record, and a record of type [T] whose fields
      all have a column. *)
Definition typeFields (r : list (StructField * value float64))
    : list (StructField * type) :=
    map (fun fv => (fst fv, typeOf (snd fv))) r.

Definition tableRow (T : list (StructField * type))
    (r : list (StructField * value float64)) : Prop :=
    typeFields r = T /\ Forall rowField r.

  (** The line of an entry of a map without its line feed, the text of a
      map, and an entry that [decodeMap] finds again on its line: its key
      is a string that a line carries as its key and that is no quoted
      token, its value a scalar of type [T] that a line carries. *)
Definition entryLine (kv : value float64 * value float64) : gostring :=
    Sprintv (fst kv) ++ str ": " ++ writePrimitiveValue (snd kv).

Definition mapText (entries : list (value float64 * value float64))
    : gostring :=
    concat (map (fun kv => entryLine kv ++ [LF]) entries).

Definition plainEntry (T : type) (kv : value float64 * value float64)
    : Prop :=
    (exists k, fst kv = VString k /\ bareKey k /\ unquote k = k)
    /\ lineSafe (snd kv)
    /\ typeOf (snd kv) = T.

  (** The text of an inline array after its header, and of a row. *)
Definition inlineText (opts : MarshalOptions)
    (elems : list (value float64)) : gostring :=
    Strings.Join (map writePrimitiveValue elems) (Delimiter opts).

  (** The record type [struct { ID int `toon:"id"`; Name string
      `toon:"name"` }], a record of it, and a record with a slice of such
      records, [Users []User `toon:"users"`]. *)
Definition userType : list (StructField * type) :=
    [(tagged "ID" "id", TInt KInt); (tagged "Name" "name", TString)].

Definition user (id : Z) (name : gostring)
    : list (StructField * value float64) :=
    [(tagged "ID" "id", VInt KInt id); (tagged "Name" "name", VString name)].


Definition names (fields : list (StructField * value float64))
    : list gostring :=
    map (fun fv => getFieldName (fst fv)) fields.

Definition sameShape (a b : StructField * value float64) : Prop :=
    fst a = fst b /\ typeOf (snd a) = typeOf (snd b).

  (** The record after the columns [js] of a row of [r] are assigned. *)
Definition assigned (r : list (StructField * value float64))
    (js : list nat) (elem : list (StructField * value float64))
    : list (StructField * value float64) :=
    fold_left (fun e j => match nth_error r j with
                          | Some fv => setField e j (snd fv)
                          | None => e
                          end) js elem.

Definition zeroRecord (T : list (StructField * type))
    : list (StructField * value float64) :=
    map (fun ft => (fst ft, zero (snd ft))) T.

  (** The line of an inline array and the header line of a table. *)
Definition inlineLine (opts : MarshalOptions) (name : gostring)
    (elems : list (value float64)) : gostring :=
    name ++ lenTag (length elems) ++ str "]: " ++ inlineText opts elems.

Definition tableHeader (name : gostring) (T : list (StructField * type))
    (n : nat) : gostring :=
    name ++ lenTag n ++ str "]{"
      ++ Strings.Join (columnNames T (seq 0 (length T))) (str ",")
      ++ str "}:".

  (** The header line of a nested record and of a list, a line of a
      block [depth] levels in, and the lines of an item of a list: its
      first field after the dash, one level in, the others two levels
      in. *)
Definition blockLine (name : gostring) : gostring := name ++ str ":".

Definition listHeader (name : gostring) (n : nat) : gostring :=
    name ++ lenTag n ++ str "]:".

Definition nestedLine (opts : MarshalOptions) (depth : Z)
    (fv : StructField * value float64) : gostring :=
    writeIndent opts depth ++ fieldLine fv.

Definition itemLines (opts : MarshalOptions)
    (r : list (StructField * value float64)) : list gostring :=
    match r with
    | [] => []
    | fv :: rest =>
        (writeIndent opts 1 ++ str "- " ++ fieldLine fv)
          :: map (nestedLine opts 2) rest
    end.

  (** A line of a text that is no output of the encoder: a key, a colon,
      a space and a token.  The key is the text before the first colon,
      whatever brackets it holds; the token has no white space at its
      ends. *)
Definition tokenLine (kt : gostring * gostring) : gostring :=
    fst kt ++ str ": " ++ snd kt.

Definition plainToken (kt : gostring * gostring) : Prop :=
    lineKey (fst kt) /\ unquote (fst kt) = fst kt /\ ~ In LF (fst kt)
    /\ trimmed (snd kt) /\ ~ In LF (snd kt).

  (** The lines of an item of a list of maps, and the line of an item of
      a list of scalars, [m] spaces in. *)
Definition mapItemLines (opts : MarshalOptions)
    (entries : list (value float64 * value float64)) : list gostring :=
    match entries with
    | [] => []
    | kv :: rest =>
        (writeIndent opts 1 ++ str "- " ++ entryLine kv)
          :: map (fun kv => writeIndent opts 2 ++ entryLine kv) rest
    end.

Definition dashLine (m : nat) (v : value float64) : gostring :=
    repeat SP m ++ str "- " ++ writePrimitiveValue v.

  (** A record of type [T] whose fields are all found again on their
      lines. *)
Definition listItem (T : list (StructField * type))
    (r : list (StructField * value float64)) : Prop :=
    typeFields r = T /\ Forall plainField r.

  (** The lines below a block whose lines are [e] spaces in or more: the
      empty line that ends the text, or a line less far in. *)
Definition blockEnd (e : nat) (post : list gostring) : Prop :=
    post = [[]]
    \/ exists l rest, post = l :: rest /\ isBlank l = false /\ getIndent l < e.

  (** The lines that the encoder writes for a field at the top of a
      document, for the shapes that [decodeStruct] reads back: a scalar on
      its line, a sequence of scalars on one line, a table of records, a
      nested record of scalars and a list of records.  [old] is what the
      target holds in the field.  The decoder looks for a block two spaces
      in or more, whatever the options: the last two shapes need an
      indentation of two at least. *)
Inductive fieldLines (opts : MarshalOptions)
    : StructField -> value float64 -> value float64 -> list gostring -> Prop :=
  | ScalarLines f old v :
      plainField (f, v) -> typeOf old = typeOf v ->
      fieldLines opts f old v [fieldLine (f, v)]
  | InlineLines f t old elems :
      IsExported f = true -> bareKey (getFieldName f) ->
      elems <> [] -> Forall cellSafe elems ->
      Forall (fun e => typeOf e = t) elems ->
      (Z.of_nat (length elems) < 2 ^ 63)%Z ->
      fieldLines opts f (VSlice t old) (VSlice t (Some elems))
        [inlineLine opts (getFieldName f) elems]
  | TableLines f T old recs :
      IsExported f = true -> bareKey (getFieldName f) ->
      UseTabular opts = true ->
      recs <> [] -> T <> [] -> Forall (tableRow T) recs ->
      NoDup (map (fun ft => getFieldName (fst ft)) T) ->
      Forall (fun ft => headerName (getFieldName (fst ft))) T ->
      (Z.of_nat (length recs) < 2 ^ 63)%Z ->
      fieldLines opts f (VSlice (TStruct T) old)
        (VSlice (TStruct T) (Some (map VStruct recs)))
        (tableHeader (getFieldName f) T (length recs)
           :: map (fun r => rowLine opts 0 r (seq 0 (length T))) recs)
  | NestedLines f old inner :
      IsExported f = true -> bareKey (getFieldName f) ->
      (2 <= Indent opts)%Z ->
      inner <> [] -> Forall plainField inner -> NoDup (names inner) ->
      typeOf (VStruct old) = typeOf (VStruct inner) ->
      fieldLines opts f (VStruct old) (VStruct inner)
        (blockLine (getFieldName f) :: map (nestedLine opts 1) inner)
  | ListLines f T old recs :
      IsExported f = true -> bareKey (getFieldName f) ->
      UseTabular opts = false -> (2 <= Indent opts)%Z ->
      recs <> [] -> T <> [] -> Forall (listItem T) recs ->
      NoDup (map (fun ft => getFieldName (fst ft)) T) ->
      (Z.of_nat (length recs) < 2 ^ 63)%Z ->
      fieldLines opts f (VSlice (TStruct T) old)
        (VSlice (TStruct T) (Some (map VStruct recs)))
        (listHeader (getFieldName f) (length recs)
           :: flat_map (itemLines opts) recs).

  (** The lines of a record, field after field. *)
Inductive documentLines (opts : MarshalOptions)
    : list (StructField * value float64) ->
      list (StructField * value float64) -> list gostring -> Prop :=
  | DocumentEnd : documentLines opts [] [] []
  | DocumentField f old v ls target fields rest :
      fieldLines opts f old v ls ->
      documentLines opts target fields rest ->
      documentLines opts ((f, old) :: target) ((f, v) :: fields) (ls ++ rest).

  (** A text from its lines. *)
Definition unlines (ls : list gostring) : gostring :=
    concat (map (fun l => l ++ [LF]) ls).

  (** How far [decodeValue] descends into a value: into what a pointer
      points to, or into a new value of its element type when it is nil;
      into the fields of a record; into new values of the element type of
      a map. *)
Fixpoint vdepth (v : value float64) : nat :=
    match v with
    | VPtr elem (Some x) => S (Nat.max (vdepth x) (tdepth elem))
    | VPtr elem None => S (tdepth elem)
    | VMap _ elem _ => S (tdepth elem)
    | VStruct fields => S (list_max (map (fun fv => vdepth (snd fv)) fields))
    | _ => 1
    end.

  (** A pointer to a value, as [Unmarshal] receives it. *)
Definition pointerTo (v : value float64) : option (value float64) :=
    Some (VPtr (typeOf v) (Some v)).

Definition pointsTo (v : value float64) : result (value float64) :=
    Ok (VPtr (typeOf v) (Some v)).

End Vocabulary.

(** * Facts about the string functions *)

Module StringFacts.

  Import Strings.

Lemma code_bound (c : ascii) : code c < 256.
  Proof. apply nat_ascii_bounded. Qed.

Lemma code_inj (a b : ascii) : code a = code b -> a = b.
  Proof.
    unfold code. intros H.
    rewrite <- (ascii_nat_embedding a), <- (ascii_nat_embedding b).
    now rewrite H.
  Qed.

Lemma code_byte (n : nat) : n < 256 -> code (byte n) = n.
  Proof. intros H. apply nat_ascii_embedding. exact H. Qed.

Lemma eqb_code (a b : ascii) : Ascii.eqb a b = (code a =? code b).
  Proof.
    destruct (Ascii.eqb_spec a b) as [->|Hne].
    - now rewrite Nat.eqb_refl.
    - symmetry. apply Nat.eqb_neq. intros H. apply Hne. now apply code_inj.
  Qed.

Lemma isByte_code (n : nat) (c : ascii) :
    n < 256 -> isByte n c = (code c =? n).
  Proof.
    intros H. unfold isByte. rewrite eqb_code. now rewrite code_byte.
  Qed.

Lemma trimLeft_step (s : gostring) :
    trimLeft s = match ltrim1 s with Some r => trimLeft r | None => s end.
  Proof.
    unfold ltrim1, rtrim1. destruct s as [|c1 r1]; [reflexivity|].
    simpl. destruct (asciiSpace c1); [reflexivity|].
    destruct r1 as [|c2 r2]; [reflexivity|]. cbv beta iota.
    match goal with |- context [if ?b then _ else _] => destruct b end;
      [reflexivity|].
    destruct r2 as [|c3 r3]; [reflexivity|]. cbv beta iota.
    match goal with |- context [if ?b then _ else _] => destruct b end;
      reflexivity.
  Qed.

Lemma trimRev_step (s : gostring) :
    trimRev s = match rtrim1 s with Some r => trimRev r | None => s end.
  Proof.
    unfold ltrim1, rtrim1. destruct s as [|c1 r1]; [reflexivity|].
    simpl. destruct (asciiSpace c1); [reflexivity|].
    destruct r1 as [|c2 r2]; [reflexivity|]. cbv beta iota.
    match goal with |- context [if ?b then _ else _] => destruct b end;
      [reflexivity|].
    destruct r2 as [|c3 r3]; [reflexivity|]. cbv beta iota.
    match goal with |- context [if ?b then _ else _] => destruct b end;
      reflexivity.
  Qed.

Lemma ltrim1_length (s r : gostring) :
    ltrim1 s = Some r -> length r < length s.
  Proof.
    destruct s as [|c1 [|c2 [|c3 t]]]; simpl; try discriminate;
      repeat match goal with |- context [if ?b then _ else _] => destruct b end;
      intros H; inversion H; subst; simpl; lia.
  Qed.

Lemma rtrim1_length (s r : gostring) :
    rtrim1 s = Some r -> length r < length s.
  Proof.
    destruct s as [|c1 [|c2 [|c3 t]]]; simpl; try discriminate;
      repeat match goal with |- context [if ?b then _ else _] => destruct b end;
      intros H; inversion H; subst; simpl; lia.
  Qed.

Lemma trimLeft_length (s : gostring) : length (trimLeft s) <= length s.
  Proof.
    remember (length s) as n eqn:Hn. revert s Hn.
    induction n as [n IH] using lt_wf_ind. intros s Hn.
    rewrite trimLeft_step. destruct (ltrim1 s) as [r|] eqn:E; [|lia].
    apply ltrim1_length in E. specialize (IH (length r) ltac:(lia) r eq_refl).
    lia.
  Qed.

Lemma trimRev_length (s : gostring) : length (trimRev s) <= length s.
  Proof.
    remember (length s) as n eqn:Hn. revert s Hn.
    induction n as [n IH] using lt_wf_ind. intros s Hn.
    rewrite trimRev_step. destruct (rtrim1 s) as [r|] eqn:E; [|lia].
    apply rtrim1_length in E. specialize (IH (length r) ltac:(lia) r eq_refl).
    lia.
  Qed.

Lemma trimLeft_fixed (s : gostring) : trimLeft s = s <-> ltrim1 s = None.
  Proof.
    split; intros H.
    - destruct (ltrim1 s) as [r|] eqn:E; [|reflexivity].
      rewrite trimLeft_step, E in H.
      pose proof (trimLeft_length r). apply ltrim1_length in E.
      rewrite H in *. lia.
    - now rewrite trimLeft_step, H.
  Qed.

Lemma trimRev_fixed (s : gostring) : trimRev s = s <-> rtrim1 s = None.
  Proof.
    split; intros H.
    - destruct (rtrim1 s) as [r|] eqn:E; [|reflexivity].
      rewrite trimRev_step, E in H.
      pose proof (trimRev_length r). apply rtrim1_length in E.
      rewrite H in *. lia.
    - now rewrite trimRev_step, H.
  Qed.

Lemma trimRight_length (s : gostring) : length (trimRight s) <= length s.
  Proof.
    unfold trimRight. rewrite length_rev.
    pose proof (trimRev_length (rev s)). now rewrite length_rev in *.
  Qed.

Lemma trimRight_fixed (s : gostring) :
    trimRight s = s <-> rtrim1 (rev s) = None.
  Proof.
    unfold trimRight. rewrite <- trimRev_fixed. split; intros H.
    - rewrite <- H at 2. now rewrite rev_involutive.
    - rewrite H. apply rev_involutive.
  Qed.

  (** A string that [TrimSpace] leaves alone has no white space at either
      end. *)
Lemma TrimSpace_fixed (s : gostring) :
    TrimSpace s = s <-> ltrim1 s = None /\ rtrim1 (rev s) = None.
  Proof.
    unfold TrimSpace. split.
    - intros H.
      assert (HL : trimLeft s = s).
      { destruct (ltrim1 s) as [r|] eqn:E.
        - exfalso. pose proof (trimRight_length (trimLeft s)).
          rewrite H in *. rewrite trimLeft_step, E in *.
          pose proof (trimLeft_length r). apply ltrim1_length in E. lia.
        - now apply trimLeft_fixed. }
      rewrite HL in H. split.
      + now apply trimLeft_fixed.
      + now apply trimRight_fixed.
    - intros [HL HR]. apply trimLeft_fixed in HL. rewrite HL.
      now apply trimRight_fixed.
  Qed.


Lemma isASCII_code (c : ascii) : isASCII c = true -> code c < 128.
  Proof. unfold isASCII. intros H. apply Nat.ltb_lt. exact H. Qed.

Lemma asciiSpace_ascii (c : ascii) : asciiSpace c = true -> code c <= 32.
  Proof.
    unfold asciiSpace. rewrite !isByte_code by lia.
    generalize (code c). intros n. lia.
  Qed.

Lemma space2_inv (c1 c2 : ascii) :
    space2 c1 c2 = true -> code c1 = 194 /\ 128 <= code c2.
  Proof.
    unfold space2. rewrite !isByte_code by lia.
    generalize (code c1) (code c2). intros a b. lia.
  Qed.

Lemma space3_inv (c1 c2 c3 : ascii) :
    space3 c1 c2 c3 = true ->
    225 <= code c1 /\ 128 <= code c2 /\ 128 <= code c3.
  Proof.
    unfold space3. rewrite !isByte_code by lia.
    generalize (code c1) (code c2) (code c3). intros a b c. lia.
  Qed.

  (** Closes a goal in which a white-space test holds of an ASCII byte. *)
Ltac no_space :=
    exfalso;
    unfold asciiHead in *;
    repeat match goal with
      | H : isASCII _ = true |- _ => apply isASCII_code in H
      | H : asciiSpace _ = true |- _ => apply asciiSpace_ascii in H
      | H : space2 _ _ = true |- _ => apply space2_inv in H
      | H : space3 _ _ _ = true |- _ => apply space3_inv in H
      | H : _ = false |- _ => clear H
      end;
    lia.

Lemma ltrim1_app (u x : gostring) :
    ltrim1 u = None -> u <> [] -> asciiHead x = true ->
    ltrim1 (u ++ x) = None.
  Proof.
    intros Hu Hne Hx.
    destruct u as [|c1 [|c2 [|c3 u']]]; [congruence| | |]; simpl in *.
    - destruct (asciiSpace c1); [discriminate|].
      destruct x as [|x0 [|x1 x']]; simpl in *; [reflexivity| |].
      + destruct (space2 c1 x0) eqn:E; [no_space|reflexivity].
      + destruct (space2 c1 x0) eqn:E; [no_space|].
        destruct (space3 c1 x0 x1) eqn:E3; [no_space|reflexivity].
    - destruct (asciiSpace c1); [discriminate|].
      destruct (space2 c1 c2); [discriminate|].
      destruct x as [|x0 x']; simpl in *; [reflexivity|].
      destruct (space3 c1 c2 x0) eqn:E3; [no_space|reflexivity].
    - destruct (asciiSpace c1); [discriminate|].
      destruct (space2 c1 c2); [discriminate|].
      destruct (space3 c1 c2 c3); [discriminate|reflexivity].
  Qed.

Lemma rtrim1_app (u x : gostring) :
    rtrim1 u = None -> u <> [] -> asciiHead x = true ->
    rtrim1 (u ++ x) = None.
  Proof.
    intros Hu Hne Hx.
    destruct u as [|c1 [|c2 [|c3 u']]]; [congruence| | |]; simpl in *.
    - destruct (asciiSpace c1); [discriminate|].
      destruct x as [|x0 [|x1 x']]; simpl in *; [reflexivity| |].
      + destruct (space2 x0 c1) eqn:E; [no_space|reflexivity].
      + destruct (space2 x0 c1) eqn:E; [no_space|].
        destruct (space3 x1 x0 c1) eqn:E3; [no_space|reflexivity].
    - destruct (asciiSpace c1); [discriminate|].
      destruct (space2 c2 c1); [discriminate|].
      destruct x as [|x0 x']; simpl in *; [reflexivity|].
      destruct (space3 x0 c2 c1) eqn:E3; [no_space|reflexivity].
    - destruct (asciiSpace c1); [discriminate|].
      destruct (space2 c2 c1); [discriminate|].
      destruct (space3 c3 c2 c1); [discriminate|reflexivity].
  Qed.

End StringFacts.

(** * The line cursor *)

Section Cursor.

  Context {R : GoRuntime}.

Lemma gostring_eqb_eq (a b : gostring) : gostring_eqb a b = true <-> a = b.
  Proof.
    revert b. induction a as [|x a IH]; intros [|y b]; simpl;
      try (split; [discriminate|congruence]); [tauto|].
    rewrite andb_true_iff, IH. split.
    - intros [Hx ->]. apply Ascii.eqb_eq in Hx. now subst.
    - intros H. inversion H; subst. split; [apply Ascii.eqb_refl|reflexivity].
  Qed.

Lemma gostring_eqb_neq (a b : gostring) : gostring_eqb a b = false <-> a <> b.
  Proof.
    rewrite <- gostring_eqb_eq. destruct (gostring_eqb a b); split; congruence.
  Qed.

Lemma no_line_after_blanks (l : list gostring) (n : nat) :
    forallb isBlank l = true ->
    existsb (fun line => negb (isBlank line)) (skipn n l) = false.
  Proof.
    revert n. induction l as [|x l IH]; intros n H.
    - now destruct n.
    - simpl in H. apply andb_true_iff in H as [Hx Hl].
      destruct n; simpl.
      + rewrite Hx. simpl. apply (IH 0 Hl).
      + apply IH, Hl.
  Qed.

Lemma hasMore_blank (d : decoder) :
    forallb isBlank (lines d) = true -> hasMore (skipEmptyLines d) = false.
  Proof. intros H. unfold hasMore. simpl. now apply no_line_after_blanks. Qed.

  (** After the blank lines comes a line that is not blank, when there is
      one. *)
Lemma skipn_countBlank (l : list gostring) :
    existsb (fun line => negb (isBlank line)) l = true ->
    exists line rest,
      skipn (countBlank l) l = line :: rest /\ isBlank line = false.
  Proof.
    induction l as [|x l IH]; simpl; [discriminate|].
    destruct (isBlank x) eqn:Hx; simpl.
    - intros H. apply IH in H. exact H.
    - intros _. exists x, l. split; [reflexivity|exact Hx].
  Qed.

Lemma existsb_skip_blank (l : list gostring) :
    existsb (fun line => negb (isBlank line)) (skipn (countBlank l) l)
    = existsb (fun line => negb (isBlank line)) l.
  Proof.
    induction l as [|x l IH]; simpl; [reflexivity|].
    destruct (isBlank x) eqn:Hx; simpl; [exact IH|].
    now rewrite Hx.
  Qed.

Lemma hasMore_skipEmptyLines (d : decoder) :
    hasMore (skipEmptyLines d) = hasMore d.
  Proof.
    unfold hasMore, skipEmptyLines. simpl.
    rewrite Nat.add_comm, <- skipn_skipn. apply existsb_skip_blank.
  Qed.

End Cursor.

(** * Input without content (C10) *)

Section BlankInput.

  Context {R : GoRuntime}.

  (** C10.  When every line of the input is blank or a comment, [Unmarshal]
      into a pointer that is not nil returns no error and the value pointed
      to is what it was: nothing is assigned and nothing is allocated. *)
Theorem Unmarshal_blank_input
    (data : gostring) (elem : type) (target : value float64) (fuel : nat) :
    forallb isBlank (Strings.Split data LF) = true ->
    Unmarshal (S fuel) data (Some (VPtr elem (Some target)))
    = Ok (VPtr elem (Some target)).
  Proof.
    intros H. unfold Unmarshal, decode. simpl decodeValue.
    unfold decodeValue_body.
    rewrite (hasMore_blank (newDecoder data) H). reflexivity.
  Qed.

End BlankInput.

Lemma Unmarshal_blank_input_witness :
  Unmarshal (R := integerRuntime) 1
    ([LF] ++ str "# no content" ++ [LF] ++ str "   " ++ [LF])
    (pointerTo (itemsRecord None))
  = pointsTo (itemsRecord None).
Proof.
  apply (Unmarshal_blank_input (R := integerRuntime)). vm_compute. reflexivity.
Defined.

(** * Untyped targets (C5) *)

Section Untyped.

  Context {R : GoRuntime}.

Lemma setPrimitiveValue_TInterface (s : gostring) :
    setPrimitiveValue TInterface s =
    let tok := unquote (Strings.TrimSpace s) in
    if gostring_eqb tok (str "null") then Ok (VInterface None)
    else match Strconv.ParseInt tok with
         | Some i => Ok (VInterface (Some (VInt KInt64 i)))
         | None =>
             match ParseFloat tok with
             | Some f => Ok (VInterface (Some (VFloat KFloat64 f)))
             | None =>
                 match Strconv.ParseBool tok with
                 | Some b => Ok (VInterface (Some (VBool b)))
                 | None => Ok (VInterface (Some (VString tok)))
                 end
             end
         end.
  Proof. reflexivity. Qed.

  (** C5.  Into an untyped target, the token, trimmed and unquoted, is
      coerced in this order and in no other: the literal [null] gives nil;
      else an integer; else a float; else a boolean; else the text.  The
      coercion never fails. *)
Theorem setPrimitiveValue_untyped (s : gostring) :
    (exists v, setPrimitiveValue TInterface s = Ok v)
    /\ (forall v,
          setPrimitiveValue TInterface s = Ok v
          <-> UntypedInference (unquote (Strings.TrimSpace s)) v).
  Proof.
    rewrite setPrimitiveValue_TInterface.
    cbv zeta. generalize (unquote (Strings.TrimSpace s)). intros tok.
    destruct (gostring_eqb tok (str "null")) eqn:Hnull.
    - apply gostring_eqb_eq in Hnull. subst tok. split; [eauto|].
      intros v. split.
      + intros H. inversion H; subst. constructor.
      + intros H. inversion H; subst; try congruence.
    - apply gostring_eqb_neq in Hnull.
      destruct (Strconv.ParseInt tok) as [i|] eqn:Hi;
        [|destruct (ParseFloat tok) as [f|] eqn:Hf;
          [|destruct (Strconv.ParseBool tok) as [b|] eqn:Hb]];
        (split; [eauto|]); intros v; split; intros H.
      + inversion H; subst v. now apply InferInt.
      + inversion H; subst; congruence.
      + inversion H; subst v. now apply InferFloat.
      + inversion H; subst; congruence.
      + inversion H; subst v. now apply InferBool.
      + inversion H; subst; congruence.
      + inversion H; subst v. now apply InferString.
      + inversion H; subst; congruence.
  Qed.

End Untyped.

(** * The encoder returns no error *)

Section EncoderErrors.

  Context {R : GoRuntime}.

  Variable opts : MarshalOptions.

Lemma errorFree_bind {A B} (m : result A) (k : A -> result B) :
    errorFree m -> (forall a, errorFree (k a)) -> errorFree (bind m k).
  Proof.
    intros Hm Hk e. destruct m as [a|e'|w]; simpl.
    - apply Hk.
    - now destruct (Hm e').
    - discriminate.
  Qed.

Lemma errorFree_Ok {A} (a : A) : errorFree (Ok a).
  Proof. intros e; discriminate. Qed.

Lemma errorFree_Abort {A} w : errorFree (@Abort A w).
  Proof. intros e; discriminate. Qed.

Ltac ef :=
    lazymatch goal with
    | |- errorFree (Ok _) => apply errorFree_Ok
    | |- errorFree (Abort _) => apply errorFree_Abort
    | |- errorFree (bind ?m ?k) =>
        apply (@errorFree_bind _ _ m k); [|intros; try ef]
    end.

Lemma encodeTabularSlice_errorFree elems depth key :
    errorFree (encodeTabularSlice opts elems depth key).
  Proof.
    unfold encodeTabularSlice.
    match goal with
    | |- context [bind (?loop elems) _] =>
        assert (Hloop : forall l, errorFree (loop l))
    end.
    { induction l as [|x l IH]; [ef|].
      destruct (deref x) as [[]|]; try ef. exact IH. }
    destruct elems as [|first rest]; [ef|].
    destruct (deref first) as [[]|]; cbv zeta; try ef. ef. apply Hloop.
  Qed.

Lemma encodeListSlice_errorFree elems depth key :
    errorFree (encodeListSlice opts elems depth key).
  Proof.
    unfold encodeListSlice.
    ef.
    induction elems as [|x l IH]; [ef|].
    destruct (deref x); [|ef].
    cbv zeta. ef. exact IH.
  Qed.

Lemma encodeSlice_errorFree elem elems depth key :
    errorFree (encodeSlice opts elem elems depth key).
  Proof.
    unfold encodeSlice.
    destruct elems; [ef|].
    destruct (derefType elem); try ef.
    - apply encodeListSlice_errorFree.
    - destruct (UseTabular opts && _).
      + apply encodeTabularSlice_errorFree.
      + apply encodeListSlice_errorFree.
  Qed.

Lemma encodeValue_errorFree :
    forall v depth key, errorFree (encodeValue opts v depth key).
  Proof.
    fix IH 1. intros v depth key.
    destruct v as [b|k z|k z|k f|s|dyn|elem target|elem data|elem data
                   |kt et entries|fields|k datum];
      simpl; try ef.
    - destruct dyn as [v'|]; [apply IH|ef].
    - destruct target as [v'|]; [apply IH|ef].
    - apply encodeSlice_errorFree.
    - apply encodeSlice_errorFree.
    - destruct entries as [entries|]; [|ef].
      unfold encodeMap. ef.
      induction entries as [|[k v] l IHl]; [ef|].
      ef; [apply IH|exact IHl].
    - unfold encodeStruct. ef.
      induction fields as [|[field fv] l IHl]; [ef|].
      destruct (negb (IsExported field)); [exact IHl|].
      destruct (isDash (getFieldName field)); [exact IHl|].
      ef; [apply IH|exact IHl].
  Qed.

  (** C8.  A value of a kind that the encoder does not classify (a channel,
      a function, a complex number, ...) is not refused: it is written as
      [%v] prints it, on a line of its own, and the call succeeds.  No call
      of the encoder returns an error, [ErrUnsupportedType] included. *)
Theorem encodeValue_unsupported_kind (k : otherKind) (datum : Z)
    (depth : Z) (key : gostring) :
    encodeValue opts (VOther k datum) depth key
    = Ok (writeIndent opts depth
            ++ (if isEmpty key then [] else key ++ str ": ")
            ++ SprintvOther (VOther k datum) ++ [LF])
    /\ (forall (v : value float64) depth' key' e,
          encodeValue opts v depth' key' <> Err e)
    /\ (forall (v : option (value float64)) e,
          MarshalWithOptions v opts <> Err e).
  Proof.
    split; [reflexivity|]. split.
    - intros v depth' key' e. apply encodeValue_errorFree.
    - intros [v|] e; simpl; [apply encodeValue_errorFree|discriminate].
  Qed.

End EncoderErrors.

(** * Empty sequences (C7) *)

Section EmptySequences.

  Context {R : GoRuntime}.

Lemma countBlank_skipn (l : list gostring) :
    countBlank (skipn (countBlank l) l) = 0.
  Proof.
    induction l as [|x l IH]; simpl; [reflexivity|].
    destruct (isBlank x) eqn:Hx; simpl; [exact IH|now rewrite Hx].
  Qed.

Lemma skipEmptyLines_idem (d : decoder) :
    skipEmptyLines (skipEmptyLines d) = skipEmptyLines d.
  Proof.
    unfold skipEmptyLines. simpl. f_equal.
    rewrite (Nat.add_comm (pos d)), <- skipn_skipn, countBlank_skipn. lia.
  Qed.

Lemma hasMore_lines (d : decoder) :
    hasMore d = true -> exists n, length (lines d) = S n.
  Proof.
    unfold hasMore. destruct (lines d) as [|x l].
    - now rewrite skipn_nil.
    - intros _. now exists (length l).
  Qed.

  (** Below the line [key[N]:], a slice whose next line is no item is set
      to the empty slice. *)
Lemma decodeSlice_no_item (elem : type) data (expectedIndent : nat)
    (d : decoder) :
    hasMore d = true ->
    Strings.HasPrefix (Strings.TrimSpace (currentLine (skipEmptyLines d)))
      (str "- ") = false ->
    decodeSlice (VSlice elem data) expectedIndent (skipEmptyLines d)
    = Ok (VSlice elem (Some []), skipEmptyLines d).
  Proof.
    intros Hmore Hitem. unfold decodeSlice.
    destruct (hasMore_lines d Hmore) as [n Hn].
    change (lines (skipEmptyLines d)) with (lines d). rewrite Hn.
    cbn [sliceItems].
    rewrite skipEmptyLines_idem, hasMore_skipEmptyLines, Hmore. cbn [negb].
    cbv iota. rewrite Hitem.
    now destruct (_ && _).
  Qed.

  (** C7.  An empty slice under a key is written as the line [key[0]:], and
      so is a nil slice.  Read back, the line gives the empty slice when a
      line with content follows it; when none follows, [decodeValue]
      returns before [decodeSlice] is called and the field keeps the value
      it had, nil in a fresh record. *)
Theorem empty_slice_last_line (fuel : nat) :
    (forall opts elem depth key,
        encodeValue opts (VSlice elem (Some [])) depth key
        = Ok (if isEmpty key then []
              else writeIndent opts depth ++ key ++ str "[0]:" ++ [LF])
        /\ encodeValue opts (VSlice elem None) depth key
           = encodeValue opts (VSlice elem (Some [])) depth key)
    /\ (forall v length indent d,
          hasMore d = false ->
          decodeArrayField (decodeValue (S fuel)) v length [] [] indent d
          = Ok (v, skipEmptyLines d))
    /\ (forall elem data length indent d,
          hasMore d = true ->
          Strings.HasPrefix
            (Strings.TrimSpace (currentLine (skipEmptyLines d))) (str "- ")
          = false ->
          decodeArrayField (decodeValue (S fuel)) (VSlice elem data) length
            [] [] indent d
          = Ok (VSlice elem (Some []), skipEmptyLines d))
    /\ Marshal (Some (itemsRecord (Some []))) = Ok (str "items[0]:" ++ [LF])
    /\ Unmarshal (S (S fuel)) (str "items[0]:" ++ [LF])
         (pointerTo (itemsRecord None))
       = pointsTo (itemsRecord None)
    /\ Unmarshal (S (S fuel)) (str "items[0]:" ++ [LF] ++ str "name: x" ++ [LF])
         (pointerTo (itemsNameRecord None []))
       = pointsTo (itemsNameRecord (Some []) (str "x")).
  Proof.
    repeat split.
    - intros v length indent d Hmore.
      unfold decodeArrayField. simpl. unfold decodeValue_body.
      now rewrite hasMore_skipEmptyLines, Hmore.
    - intros elem data length indent d Hmore Hitem.
      unfold decodeArrayField. simpl. unfold decodeValue_body.
      rewrite hasMore_skipEmptyLines, Hmore. cbn [negb]. cbv iota.
      now apply decodeSlice_no_item.
  Qed.

End EmptySequences.

(** * Keys that declare no array (C9) *)

Section LiteralKeys.

  Context {R : GoRuntime}.

  Variable decodeValue' :
    value float64 -> nat -> decoder -> result (value float64 * decoder).

Lemma SplitN2_Contains (s k v : gostring) :
    Strings.SplitN2 s ":"%char = [k; v] ->
    Strings.Contains s (str ":") = true.
  Proof.
    revert k. induction s as [|c s IH]; intros k; [discriminate|].
    cbn [Strings.SplitN2 Strings.Contains Strings.HasPrefix str
         list_ascii_of_string].
    destruct (Ascii.eqb c ":"%char) eqn:Hc.
    - intros _. now destruct s.
    - destruct (Strings.SplitN2 s ":"%char) as [|p [|q [|]]] eqn:Hs;
        try discriminate.
      intros H. injection H as _ <-. cbn [andb orb]. now apply (IH p).
  Qed.

  (** C9.  A line of a record whose key does not match the pattern of an
      array declaration raises no error of its own.  [parseArrayDeclaration]
      returns length [-1] and no column names, the key is looked up as it is
      written, and the line goes the way of every other line: it is skipped
      when no field bears that name, else its value is decoded as a nested
      block when it is empty and as a scalar when it is not. *)
Theorem structLines_literal_key (n : nat) (fm : fieldMap)
    (expectedIndent : nat) (fields : list (StructField * value float64))
    (d : decoder) (k v : gostring) :
    let d' := skipEmptyLines d in
    let line := currentLine d' in
    hasMore d = true ->
    (0 <? expectedIndent) && (getIndent line <? expectedIndent) = false ->
    Strings.SplitN2 (Strings.TrimSpace line) ":"%char = [k; v] ->
    findDeclaration false (Strings.TrimSpace k) = None ->
    parseArrayDeclaration (Strings.TrimSpace k) = ((-1)%Z, [])
    /\ structLines decodeValue' (S n) fm expectedIndent fields d
       = match lookup fm (Strings.TrimSpace k) with
         | None => structLines decodeValue' n fm expectedIndent fields (advance d')
         | Some fieldIdx =>
             match nth_error fields fieldIdx with
             | None => Abort Panic
             | Some (_, fieldValue) =>
                 r <- (if isEmpty (Strings.TrimSpace v)
                       then decodeValue' fieldValue (getIndent line + 2)
                              (advance d')
                       else fv <- setPrimitiveValue (typeOf fieldValue)
                                    (Strings.TrimSpace v) ;;
                            Ok (fv, advance d')) ;;
                 structLines decodeValue' n fm expectedIndent
                   (setField fields fieldIdx (fst r)) (snd r)
             end
         end.
  Proof.
    intros d' line Hmore Hind Hsplit Hdecl.
    assert (Hparse : parseArrayDeclaration (Strings.TrimSpace k)
                     = ((-1)%Z, [])).
    { unfold parseArrayDeclaration. now rewrite Hdecl. }
    split; [exact Hparse|].
    cbn [structLines]. rewrite Hmore. cbn [negb]. cbv iota.
    rewrite hasMore_skipEmptyLines, Hmore. cbn [negb]. cbv iota.
    fold d'. fold line. rewrite Hind.
    rewrite (SplitN2_Contains _ Hsplit). cbn [negb]. cbv iota.
    rewrite Hsplit, Hparse. reflexivity.
  Qed.

End LiteralKeys.

Lemma structLines_literal_key_witness :
  let d := newDecoder (str "items[x]: a,b" ++ [LF]) in
  let fields := [(tagged "Items" "items",
                  VSlice (float64 := @float64 integerRuntime) TString None)] in
  let fm := buildFieldMap true 0 fields [] in
  parseArrayDeclaration (str "items[x]") = ((-1)%Z, [])
  /\ structLines (R := integerRuntime) (decodeValue 1) 1 fm 0 fields d
     = structLines (R := integerRuntime) (decodeValue 1) 0 fm 0 fields
         (advance (skipEmptyLines d)).
Proof.
  intros d fields fm.
  exact (@structLines_literal_key integerRuntime (decodeValue 1) 0 fm 0
           fields d (str "items[x]") (str " a,b")
           eq_refl eq_refl eq_refl eq_refl).
Defined.

(** * The order of the entries of a map (C6) *)

Section MapOrder.

  Context {R : GoRuntime}.

  Variable opts : MarshalOptions.



End MapOrder.



(** * Quoted strings (C4) *)

Section Quoting.

  Context {R : GoRuntime}.

  Import StringFacts.

Lemma HasPrefix_nil (s : gostring) : Strings.HasPrefix s [] = true.
  Proof. now destruct s. Qed.

Lemma escape_cons (c : ascii) (s : gostring) :
    escape (c :: s)
    = if Ascii.eqb c DQUOTE then BACKSLASH :: DQUOTE :: escape s
      else c :: escape s.
  Proof.
    unfold escape, Strings.ReplaceAll.
    cbn [Strings.replaceFrom Strings.HasPrefix length Nat.pred app].
    rewrite HasPrefix_nil, andb_true_r. reflexivity.
  Qed.

Lemma escape_head (s : gostring) :
    Strings.HasPrefix (escape s) [DQUOTE] = false.
  Proof.
    destruct s as [|c s]; [reflexivity|].
    rewrite escape_cons. destruct (Ascii.eqb c DQUOTE) eqn:Hc.
    - reflexivity.
    - cbn [Strings.HasPrefix]. now rewrite Hc.
  Qed.

Lemma unescape_escape (s : gostring) : unescape (escape s) = s.
  Proof.
    induction s as [|c s IH]; [reflexivity|].
    rewrite escape_cons. destruct (Ascii.eqb c DQUOTE) eqn:Hc.
    - apply Ascii.eqb_eq in Hc. subst c.
      unfold unescape, Strings.ReplaceAll in *.
      cbn [Strings.replaceFrom Strings.HasPrefix length Nat.pred app].
      rewrite !Ascii.eqb_refl, HasPrefix_nil. cbn [andb]. now rewrite IH.
    - unfold unescape, Strings.ReplaceAll in *.
      cbn [Strings.replaceFrom].
      replace (Strings.HasPrefix (c :: escape s) [BACKSLASH; DQUOTE])
        with false.
      + now rewrite IH.
      + cbn [Strings.HasPrefix].
        now rewrite escape_head, andb_false_r.
  Qed.

  (** A byte of ASCII that is no white space ends the trimming. *)
Lemma ltrim1_graphic (c : ascii) (r : gostring) :
    isASCII c = true -> Strings.asciiSpace c = false -> ltrim1 (c :: r) = None.
  Proof.
    intros Ha Hs. cbn [ltrim1]. rewrite Hs.
    destruct r as [|c2 [|c3 r]]; [reflexivity| |].
    - destruct (Strings.space2 c c2) eqn:E; [no_space|reflexivity].
    - destruct (Strings.space2 c c2) eqn:E; [no_space|].
      destruct (Strings.space3 c c2 c3) eqn:E3; [no_space|reflexivity].
  Qed.

Lemma rtrim1_graphic (c : ascii) (r : gostring) :
    isASCII c = true -> Strings.asciiSpace c = false -> rtrim1 (c :: r) = None.
  Proof.
    intros Ha Hs. cbn [rtrim1]. rewrite Hs.
    destruct r as [|c2 [|c3 r]]; [reflexivity| |].
    - destruct (Strings.space2 c2 c) eqn:E; [|reflexivity].
      apply space2_inv in E. apply isASCII_code in Ha. lia.
    - destruct (Strings.space2 c2 c) eqn:E.
      { apply space2_inv in E. apply isASCII_code in Ha. lia. }
      destruct (Strings.space3 c3 c2 c) eqn:E3; [|reflexivity].
      apply space3_inv in E3. apply isASCII_code in Ha. lia.
  Qed.

Lemma TrimSpace_quoted (s : gostring) :
    Strings.TrimSpace (DQUOTE :: s ++ [DQUOTE]) = DQUOTE :: s ++ [DQUOTE].
  Proof.
    apply TrimSpace_fixed. split.
    - now apply ltrim1_graphic.
    - change (DQUOTE :: s ++ [DQUOTE]) with ((DQUOTE :: s) ++ [DQUOTE]).
      rewrite rev_app_distr. now apply rtrim1_graphic.
  Qed.

Lemma unquote_quoted (s : gostring) :
    unquote (DQUOTE :: s ++ [DQUOTE]) = unescape s.
  Proof.
    unfold unquote.
    replace (2 <=? length (DQUOTE :: s ++ [DQUOTE])) with true.
    2:{ symmetry. apply Nat.leb_le. cbn [length]. rewrite length_app.
        simpl. lia. }
    cbn [hd tl andb]. rewrite Ascii.eqb_refl.
    change (DQUOTE :: s ++ [DQUOTE]) with ((DQUOTE :: s) ++ [DQUOTE]).
    rewrite last_last, Ascii.eqb_refl, removelast_last. reflexivity.
  Qed.

Lemma quoted_round_trip_parts (s : gostring) :
    needsQuotes s = true ->
    writePrimitiveValue (VString s) = [DQUOTE] ++ escape s ++ [DQUOTE]
    /\ setPrimitiveValue TString (writePrimitiveValue (VString s))
       = Ok (VString s).
  Proof.
    intros Hq. cbn [writePrimitiveValue]. rewrite Hq. split; [reflexivity|].
    cbn [setPrimitiveValue app]. fold (escape s).
    now rewrite TrimSpace_quoted, unquote_quoted, unescape_escape.
  Qed.

  (** C4, as the encoder has it.  A string that holds a comma, a pipe, a
      tab or a line feed is written between double quotes, each double
      quote of it behind a backslash; and that token, decoded as a string,
      is the string again. *)
Theorem quoted_string_round_trip (s : gostring) :
    needsQuotes s = true ->
    writePrimitiveValue (VString s)
    = [DQUOTE] ++ Strings.ReplaceAll s [DQUOTE] [BACKSLASH; DQUOTE]
        ++ [DQUOTE]
    /\ setPrimitiveValue TString (writePrimitiveValue (VString s))
       = Ok (VString s).
  Proof.
    intros Hq. cbn [writePrimitiveValue]. rewrite Hq. split; [reflexivity|].
    cbn [setPrimitiveValue app]. fold (escape s).
    now rewrite TrimSpace_quoted, unquote_quoted, unescape_escape.
  Qed.

End Quoting.

Lemma quoted_string_round_trip_witness :
  setPrimitiveValue (R := integerRuntime) TString
    (writePrimitiveValue (R := integerRuntime)
       (VString (str "say " ++ [DQUOTE] ++ str "a,b" ++ [DQUOTE])))
  = Ok (VString (str "say " ++ [DQUOTE] ++ str "a,b" ++ [DQUOTE])).
Proof.
  apply (@quoted_string_round_trip integerRuntime).
  reflexivity.
Defined.

(** C4, as the specification has it, fails: a string with double quotes and
    none of the four bytes is written as it is, without quotes of the
    encoder and without backslashes; when its own quotes stand at both
    ends, decoding takes them off. *)
Lemma quoting_counterexample :
  let s := [DQUOTE] ++ str "a" ++ [DQUOTE] in
  Strings.Contains s [DQUOTE] = true
  /\ writePrimitiveValue (R := integerRuntime) (VString s)
     = s
  /\ setPrimitiveValue (R := integerRuntime) TString
       (writePrimitiveValue (R := integerRuntime)
          (VString s))
     = Ok (VString (str "a")).
Proof. repeat split. Qed.

(** * Splitting and joining *)

Module SplitFacts.

  Import Strings.

Lemma eqb_false_not_In (c : ascii) (s : gostring) (x : ascii) :
    ~ In c (x :: s) -> Ascii.eqb x c = false /\ ~ In c s.
  Proof.
    intros H. split.
    - apply Ascii.eqb_neq. intros ->. apply H. now left.
    - intros Hin. apply H. now right.
  Qed.

Lemma Split_nonempty (s : gostring) (sep : ascii) : Split s sep <> [].
  Proof.
    induction s as [|c s IH]; simpl; [discriminate|].
    destruct (Ascii.eqb c sep); [discriminate|].
    now destruct (Split s sep).
  Qed.

Lemma Split_cons (c : ascii) (s : gostring) (sep : ascii) :
    Ascii.eqb c sep = false ->
    Split (c :: s) sep = (c :: hd [] (Split s sep)) :: tl (Split s sep).
  Proof.
    intros Hc. simpl. rewrite Hc.
    pose proof (Split_nonempty s sep) as Hne.
    now destruct (Split s sep).
  Qed.

Lemma Split_app (l rest : gostring) (sep : ascii) :
    ~ In sep l -> Split (l ++ sep :: rest) sep = l :: Split rest sep.
  Proof.
    induction l as [|c l IH]; intros Hl.
    - simpl. now rewrite Ascii.eqb_refl.
    - apply eqb_false_not_In in Hl as [Hc Hl].
      cbn [app]. rewrite Split_cons by exact Hc. now rewrite IH.
  Qed.

Lemma Split_one (l : gostring) (sep : ascii) :
    ~ In sep l -> Split l sep = [l].
  Proof.
    induction l as [|c l IH]; intros Hl; [reflexivity|].
    apply eqb_false_not_In in Hl as [Hc Hl].
    rewrite Split_cons by exact Hc. now rewrite IH.
  Qed.

  (** The lines of a text in which every line ends in a line feed. *)
Lemma Split_lines (ls : list gostring) :
    Forall (fun l => ~ In LF l) ls ->
    Split (concat (map (fun l => l ++ [LF]) ls)) LF = ls ++ [[]].
  Proof.
    induction 1 as [|l ls Hl _ IH]; [reflexivity|].
    cbn [map concat]. rewrite <- app_assoc. cbn [app].
    rewrite Split_app by exact Hl. now rewrite IH.
  Qed.

Lemma Join_cons (e : gostring) (rest : list gostring) (sep : gostring) :
    rest <> [] -> Join (e :: rest) sep = e ++ sep ++ Join rest sep.
  Proof. now destruct rest. Qed.

Lemma Split_Join (ps : list gostring) (sep : ascii) :
    ps <> [] -> Forall (fun p => ~ In sep p) ps ->
    Split (Join ps [sep]) sep = ps.
  Proof.
    intros Hne Hps. induction Hps as [|p ps Hp Hps IH]; [now destruct Hne|].
    destruct ps as [|q ps].
    - simpl. now apply Split_one.
    - rewrite Join_cons by discriminate. cbn [app].
      rewrite Split_app by exact Hp. now rewrite IH.
  Qed.

Lemma In_Join (c : ascii) (ps : list gostring) (sep : ascii) :
    In c (Join ps [sep]) ->
    (exists p, In p ps /\ In c p) \/ (c = sep /\ 2 <= length ps).
  Proof.
    induction ps as [|p ps IH]; [contradiction|].
    destruct ps as [|q ps].
    - simpl. intros H. left. exists p. split; [now left|exact H].
    - rewrite Join_cons by discriminate. cbn [app].
      rewrite in_app_iff. intros [H|[H|H]].
      + left. exists p. split; [now left|exact H].
      + right. split; [now symmetry|simpl; lia].
      + destruct (IH H) as [[p' [Hp' Hc]]|[Hc Hlen]].
        * left. exists p'. split; [now right|exact Hc].
        * right. split; [exact Hc|simpl; lia].
  Qed.

Lemma Contains_byte (s : gostring) (c : ascii) :
    Contains s [c] = true <-> In c s.
  Proof.
    induction s as [|x s IH]; simpl; [split; [discriminate|contradiction]|].
    rewrite orb_true_iff, IH, andb_true_iff, Ascii.eqb_eq.
    split.
    - intros [[H _]|H]; [now left|now right].
    - intros [H|H]; [left; split; [exact H|now destruct s]|now right].
  Qed.

Lemma Contains_byte_false (s : gostring) (c : ascii) :
    Contains s [c] = false <-> ~ In c s.
  Proof.
    rewrite <- Contains_byte. now destruct (Contains s [c]).
  Qed.

Lemma SplitN2_app (k v : gostring) (sep : ascii) :
    ~ In sep k -> SplitN2 (k ++ sep :: v) sep = [k; v].
  Proof.
    induction k as [|c k IH]; intros Hk.
    - simpl. now rewrite Ascii.eqb_refl.
    - apply eqb_false_not_In in Hk as [Hc Hk].
      cbn [app SplitN2]. rewrite Hc. now rewrite IH.
  Qed.

End SplitFacts.

(** * Decimal numbers *)

Module NumberFacts.

  Import Strconv StringFacts.

  Local Open Scope Z_scope.

Lemma digitChar_code (d : Z) :
    0 <= d < 10 -> code (digitChar d) = (48 + Z.to_nat d)%nat.
  Proof. intros H. unfold digitChar. apply code_byte. lia. Qed.

Lemma isDigit_digitChar (d : Z) : 0 <= d < 10 -> isDigit (digitChar d) = true.
  Proof.
    intros H. unfold isDigit. rewrite digitChar_code by exact H. lia.
  Qed.

Lemma digitVal_digitChar (d : Z) : 0 <= d < 10 -> digitVal (digitChar d) = d.
  Proof.
    intros H. unfold digitVal. rewrite digitChar_code by exact H. lia.
  Qed.

Lemma digitsOnto_S (f : nat) (n : Z) (acc : gostring) :
    digitsOnto (S f) n acc
    = if n / 10 =? 0 then digitChar (n mod 10) :: acc
      else digitsOnto f (n / 10) (digitChar (n mod 10) :: acc).
  Proof. reflexivity. Qed.

  (** The digits written for [n] are read back as [n]. *)
Lemma parseDigits_digitsOnto (f : nat) :
    forall n acc, 0 <= n < 2 ^ Z.of_nat (S f) ->
    exists k, forall a,
      parseDigits (digitsOnto (S f) n acc) a
      = parseDigits acc (a * 10 ^ Z.of_nat k + n).
  Proof.
    induction f as [|f IH]; intros n acc Hn.
    - exists 1%nat. intros a. rewrite digitsOnto_S.
      change (2 ^ Z.of_nat 1) with 2 in Hn.
      replace (n / 10) with 0 by (symmetry; apply Z.div_small; lia).
      cbn [Z.eqb parseDigits].
      rewrite isDigit_digitChar, digitVal_digitChar
        by (apply Z.mod_pos_bound; lia).
      rewrite Z.mod_small by lia.
      f_equal; try (change (10 ^ Z.of_nat 1) with 10; lia).
    - rewrite digitsOnto_S. destruct (n / 10 =? 0) eqn:Hq.
      + exists 1%nat. intros a. cbn [parseDigits].
        rewrite isDigit_digitChar, digitVal_digitChar
          by (apply Z.mod_pos_bound; lia).
        f_equal. change (10 ^ Z.of_nat 1) with 10.
        pose proof (Z.div_mod n 10). lia.
      + assert (Hq' : 0 <= n / 10 < 2 ^ Z.of_nat (S f)).
        { split; [apply Z.div_pos; lia|].
          apply Z.div_lt_upper_bound; [lia|].
          replace (Z.of_nat (S (S f))) with (Z.succ (Z.of_nat (S f))) in Hn
            by lia.
          rewrite Z.pow_succ_r in Hn by lia. lia. }
        destruct (IH (n / 10) (digitChar (n mod 10) :: acc) Hq') as [k Hk].
        exists (S k). intros a. rewrite Hk. cbn [parseDigits].
        rewrite isDigit_digitChar, digitVal_digitChar
          by (apply Z.mod_pos_bound; lia).
        f_equal.
        replace (Z.of_nat (S k)) with (Z.succ (Z.of_nat k)) by lia.
        rewrite Z.pow_succ_r by lia.
        pose proof (Z.div_mod n 10). lia.
  Qed.

Lemma log2_fuel (n : Z) :
    0 <= n -> n < 2 ^ Z.of_nat (S (Z.to_nat (Z.log2 n))).
  Proof.
    intros Hn.
    replace (Z.of_nat (S (Z.to_nat (Z.log2 n)))) with (Z.succ (Z.log2 n))
      by (pose proof (Z.log2_nonneg n); lia).
    destruct (Z.eq_dec n 0) as [->|Hnz]; [reflexivity|].
    apply Z.log2_spec. lia.
  Qed.

Lemma parseDigits_FormatUint (n : Z) :
    0 <= n -> parseDigits (FormatUint n) 0 = Some n.
  Proof.
    intros Hn. unfold FormatUint.
    destruct (@parseDigits_digitsOnto (Z.to_nat (Z.log2 n)) n [])
      as [k Hk]; [split; [exact Hn|now apply log2_fuel]|].
    rewrite Hk. reflexivity.
  Qed.

Lemma digitsOnto_numeric (f : nat) :
    forall n acc, Forall (fun c => numeric c = true) acc ->
    Forall (fun c => numeric c = true) (digitsOnto f n acc).
  Proof.
    induction f as [|f IH]; intros n acc Hacc; [exact Hacc|].
    assert (Hd : Forall (fun c => numeric c = true)
                   (digitChar (n mod 10) :: acc)).
    { constructor; [|exact Hacc]. unfold numeric.
      rewrite isDigit_digitChar by (apply Z.mod_pos_bound; lia).
      reflexivity. }
    rewrite digitsOnto_S. destruct (n / 10 =? 0); [exact Hd|now apply IH].
  Qed.

Lemma digitsOnto_head (f : nat) :
    forall n acc, exists c rest,
      digitsOnto (S f) n acc = c :: rest /\ isDigit c = true.
  Proof.
    induction f as [|f IH]; intros n acc.
    - rewrite digitsOnto_S. cbn [digitsOnto].
      exists (digitChar (n mod 10)), acc.
      split; [now destruct (n / 10 =? 0)|].
      apply isDigit_digitChar, Z.mod_pos_bound. lia.
    - rewrite digitsOnto_S. destruct (n / 10 =? 0).
      + exists (digitChar (n mod 10)), acc. split; [reflexivity|].
        apply isDigit_digitChar, Z.mod_pos_bound. lia.
      + apply IH.
  Qed.

Lemma FormatUint_head (n : Z) :
    exists c rest, FormatUint n = c :: rest /\ isDigit c = true.
  Proof. apply digitsOnto_head. Qed.

Lemma FormatInt_numeric (z : Z) :
    Forall (fun c => numeric c = true) (FormatInt z).
  Proof.
    unfold FormatInt. destruct (z <? 0).
    - constructor; [reflexivity|]. now apply digitsOnto_numeric.
    - now apply digitsOnto_numeric.
  Qed.

Lemma FormatInt_nonempty (z : Z) : FormatInt z <> [].
  Proof.
    unfold FormatInt. destruct (z <? 0); [discriminate|].
    destruct (FormatUint_head z) as [c [rest [-> _]]]. discriminate.
  Qed.

Lemma ParseUint_FormatUint (n : Z) :
    0 <= n < 2 ^ 64 -> ParseUint (FormatUint n) = Some n.
  Proof.
    intros Hn. unfold ParseUint.
    rewrite parseDigits_FormatUint by lia.
    destruct (FormatUint_head n) as [c [rest [-> _]]].
    replace (n <? 2 ^ 64) with true by lia. reflexivity.
  Qed.

Lemma isDigit_not_sign (c : ascii) :
    isDigit c = true ->
    Ascii.eqb c "-"%char = false /\ Ascii.eqb c "+"%char = false.
  Proof.
    unfold isDigit. rewrite !eqb_code.
    change (code "-"%char) with 45%nat. change (code "+"%char) with 43%nat.
    generalize (code c). intros m. lia.
  Qed.

Theorem ParseInt_FormatInt (z : Z) :
    - 2 ^ 63 <= z < 2 ^ 63 -> ParseInt (FormatInt z) = Some z.
  Proof.
    intros Hz. unfold FormatInt. destruct (z <? 0) eqn:Hneg.
    - cbn [ParseInt]. rewrite Ascii.eqb_refl. cbn [orb].
      rewrite ParseUint_FormatUint by lia.
      replace (- z <=? 2 ^ 63) with true by lia. f_equal. lia.
    - pose proof (ParseUint_FormatUint (n := z)) as Hu.
      destruct (FormatUint_head z) as [c [rest [Heq Hc]]].
      rewrite Heq in *. cbn [ParseInt].
      destruct (isDigit_not_sign c Hc) as [-> ->]. cbn [orb].
      rewrite Hu by lia.
      replace (z <? 2 ^ 63) with true by lia. reflexivity.
  Qed.

Lemma wrapInt_small (k : intKind) (z : Z) :
    - 2 ^ (intBits k - 1) <= z < 2 ^ (intBits k - 1) -> wrapInt k z = z.
  Proof.
    unfold wrapInt. destruct k; cbn [intBits]; intros H;
      rewrite Z.mod_small; lia.
  Qed.

Lemma wrapUint_small (k : uintKind) (z : Z) :
    0 <= z < 2 ^ uintBits k -> wrapUint k z = z.
  Proof. unfold wrapUint. intros H. now apply Z.mod_small. Qed.

Lemma intBits_le (k : intKind) : 2 ^ (intBits k - 1) <= 2 ^ 63.
  Proof. destruct k; cbn [intBits]; lia. Qed.

Lemma uintBits_le (k : uintKind) : 2 ^ uintBits k <= 2 ^ 64.
  Proof. destruct k; cbn [uintBits]; lia. Qed.

End NumberFacts.

(** * Tokens *)

Section TokenFacts.

  Context {R : GoRuntime}.

  Import Strings StringFacts SplitFacts NumberFacts.

Lemma graphic_inv (c : ascii) :
    graphic c = true -> isASCII c = true /\ asciiSpace c = false.
  Proof.
    unfold graphic. rewrite andb_true_iff, negb_true_iff. tauto.
  Qed.

  (** A string between two graphic bytes is not trimmed. *)
Lemma TrimSpace_ends (s : gostring) :
    s <> [] -> graphic (hd SP s) = true -> graphic (last s SP) = true ->
    TrimSpace s = s.
  Proof.
    intros Hne Hh Hl. apply TrimSpace_fixed. split.
    - destruct s as [|c r]; [congruence|].
      apply graphic_inv in Hh as [Ha Hs]. now apply ltrim1_graphic.
    - rewrite (app_removelast_last SP Hne), rev_app_distr. cbn [rev app].
      apply graphic_inv in Hl as [Ha Hs]. now apply rtrim1_graphic.
  Qed.

Lemma TrimSpace_ends_inv (s : gostring) :
    TrimSpace s = s -> trimLeft s = s /\ trimRight s = s.
  Proof.
    intros H. apply TrimSpace_fixed in H as [Hl Hr]. split.
    - now apply trimLeft_fixed.
    - now apply trimRight_fixed.
  Qed.

  (** One space in front of a trimmed token is trimmed away. *)
Lemma TrimSpace_space (tok : gostring) :
    TrimSpace tok = tok -> TrimSpace (SP :: tok) = tok.
  Proof.
    intros H. destruct (TrimSpace_ends_inv H) as [Hl Hr].
    unfold TrimSpace. cbn [trimLeft].
    change (asciiSpace SP) with true. cbv iota.
    now rewrite Hl, Hr.
  Qed.

Lemma last_Forall {A} (P : A -> Prop) (l : list A) (d : A) :
    l <> [] -> Forall P l -> P (last l d).
  Proof.
    intros Hne Hl. rewrite Forall_forall in Hl. apply Hl.
    rewrite (app_removelast_last d Hne) at 2.
    apply in_or_app. right. now left.
  Qed.

Lemma hd_Forall {A} (P : A -> Prop) (l : list A) (d : A) :
    l <> [] -> Forall P l -> P (hd d l).
  Proof. intros Hne Hl. destruct Hl; [congruence|assumption]. Qed.

Lemma TrimSpace_graphic (s : gostring) :
    s <> [] -> Forall (fun c => graphic c = true) s -> TrimSpace s = s.
  Proof.
    intros Hne Hs. apply TrimSpace_ends; [exact Hne| |].
    - now apply (@hd_Forall _ (fun c => graphic c = true)).
    - now apply (@last_Forall _ (fun c => graphic c = true)).
  Qed.

Lemma unquote_head (s : gostring) :
    Ascii.eqb (hd SP s) DQUOTE = false -> unquote s = s.
  Proof.
    intros H. unfold unquote. rewrite H.
    now rewrite andb_false_r.
  Qed.

  (** ** Numbers *)

Lemma numeric_code (c : ascii) :
    numeric c = true -> (45 <= code c <= 57)%nat.
  Proof.
    unfold numeric, Strconv.isDigit. rewrite eqb_code.
    change (code "-"%char) with 45%nat.
    generalize (code c). intros m. lia.
  Qed.

Lemma numeric_graphic (c : ascii) : numeric c = true -> graphic c = true.
  Proof.
    intros H. apply numeric_code in H.
    unfold graphic, isASCII, asciiSpace. rewrite !isByte_code by lia.
    revert H. generalize (code c). intros m H. lia.
  Qed.

Lemma numeric_not (c x : ascii) :
    numeric c = true -> (code x < 45 \/ 57 < code x)%nat -> c <> x.
  Proof. intros H Hx ->. apply numeric_code in H. lia. Qed.

  Section Numeric.

    Variable tok : gostring.
    Hypothesis Hne : tok <> [].
    Hypothesis Hnum : Forall (fun c => numeric c = true) tok.

Lemma numeric_TrimSpace : TrimSpace tok = tok.
    Proof.
      apply TrimSpace_graphic; [exact Hne|].
      eapply Forall_impl; [|exact Hnum]. intros c. apply numeric_graphic.
    Qed.

Lemma numeric_not_In (x : ascii) :
      (code x < 45 \/ 57 < code x)%nat -> ~ In x tok.
    Proof.
      intros Hx Hin. rewrite Forall_forall in Hnum.
      apply (numeric_not (Hnum _ Hin) Hx). reflexivity.
    Qed.

Lemma numeric_unquote : unquote tok = tok.
    Proof.
      apply unquote_head. apply Ascii.eqb_neq. intros Heq.
      assert (Hh : numeric (hd SP tok) = true)
        by now apply (@hd_Forall _ (fun c => numeric c = true)).
      apply numeric_code in Hh. rewrite Heq in Hh.
      change (code DQUOTE) with 34%nat in Hh. lia.
    Qed.

Lemma numeric_ContainsAny (chars : gostring) :
      Forall (fun x => (code x < 45 \/ 57 < code x)%nat) chars ->
      ContainsAny tok chars = false.
    Proof.
      intros Hchars. unfold ContainsAny.
      apply not_true_is_false. intros H.
      apply existsb_exists in H as [c [Hc H]].
      apply existsb_exists in H as [x [Hx H]].
      apply Ascii.eqb_eq in H. subst x.
      rewrite Forall_forall in Hchars.
      apply (@numeric_not_In c); [now apply Hchars|exact Hc].
    Qed.

  End Numeric.

Lemma special_codes :
    Forall (fun x => (code x < 45 \/ 57 < code x)%nat)
      [","%char; "|"%char; TAB; LF].
  Proof. repeat constructor; vm_compute; lia. Qed.

Lemma delimiter_codes :
    Forall (fun x => (code x < 45 \/ 57 < code x)%nat)
      [","%char; "|"%char; TAB].
  Proof. repeat constructor; vm_compute; lia. Qed.

Lemma In_ContainsAny (s chars : gostring) (c : ascii) :
    ContainsAny s chars = false -> In c chars -> ~ In c s.
  Proof.
    unfold ContainsAny. intros H Hc Hin.
    apply not_true_iff_false in H. apply H.
    apply existsb_exists. exists c. split; [exact Hin|].
    apply existsb_exists. exists c. split; [exact Hc|apply Ascii.eqb_refl].
  Qed.

Lemma intToken_safe (k : intKind) (z : Z) :
    intInRange k z -> cellSafe (VInt k z).
  Proof.
    intros Hz. unfold cellSafe, lineSafe. cbn [writePrimitiveValue isScalar typeOf].
    pose proof (Strconv.FormatInt z) as tok.
    pose proof (FormatInt_nonempty z) as Hne.
    pose proof (FormatInt_numeric z) as Hnum.
    pose proof (numeric_TrimSpace Hne Hnum) as Htrim.
    repeat split.
    - exact Hne.
    - exact Htrim.
    - eapply numeric_not_In; [exact Hnum|vm_compute; lia].
    - cbn [setPrimitiveValue]. rewrite Htrim, (numeric_unquote Hne Hnum).
      pose proof (intBits_le k). unfold intInRange in Hz.
      rewrite ParseInt_FormatInt by lia.
      now rewrite wrapInt_small.
    - eapply numeric_ContainsAny; [exact Hnum|apply delimiter_codes].
  Qed.

Lemma FormatUint_nonneg (z : Z) :
    (0 <= z)%Z -> Strconv.FormatInt z = Strconv.FormatUint z.
  Proof.
    intros Hz. unfold Strconv.FormatInt.
    now replace (z <? 0)%Z with false by lia.
  Qed.

Lemma uintToken_safe (k : uintKind) (z : Z) :
    uintInRange k z -> cellSafe (VUint k z).
  Proof.
    intros Hz. unfold cellSafe, lineSafe. cbn [writePrimitiveValue isScalar typeOf].
    pose proof (FormatInt_nonempty z) as Hne.
    pose proof (FormatInt_numeric z) as Hnum.
    pose proof (numeric_TrimSpace Hne Hnum) as Htrim.
    repeat split.
    - exact Hne.
    - exact Htrim.
    - eapply numeric_not_In; [exact Hnum|vm_compute; lia].
    - cbn [setPrimitiveValue]. rewrite Htrim, (numeric_unquote Hne Hnum).
      pose proof (uintBits_le k). unfold uintInRange in Hz.
      rewrite FormatUint_nonneg by lia.
      rewrite ParseUint_FormatUint by lia.
      now rewrite wrapUint_small.
    - eapply numeric_ContainsAny; [exact Hnum|apply delimiter_codes].
  Qed.

Lemma boolToken_safe (b : bool) : cellSafe (VBool b).
  Proof.
    unfold cellSafe, lineSafe.
    destruct b; repeat split; try discriminate;
      try (vm_compute; reflexivity);
      intros H; vm_compute in H; intuition discriminate.
  Qed.

  (** ** Strings *)

Lemma needsQuotes_false (s : gostring) :
    needsQuotes s = false ->
    ~ In LF s /\ ContainsAny s [","%char; "|"%char; TAB] = false.
  Proof.
    intros H. split.
    - eapply In_ContainsAny; [exact H|]. simpl. tauto.
    - apply not_true_is_false. intros Hc.
      apply existsb_exists in Hc as [c [Hc Hx]].
      apply existsb_exists in Hx as [x [Hx Heq]].
      apply Ascii.eqb_eq in Heq. subst x.
      eapply In_ContainsAny; [exact H| |exact Hc].
      simpl in Hx |- *. tauto.
  Qed.

  (** A string that is written as it is, and read as it is. *)
Lemma plainString_safe (s : gostring) :
    s <> [] -> TrimSpace s = s -> needsQuotes s = false -> unquote s = s ->
    cellSafe (VString s).
  Proof.
    intros Hne Htrim Hq Hu.
    destruct (needsQuotes_false _ Hq) as [Hlf Hd].
    unfold cellSafe, lineSafe. cbn [writePrimitiveValue isScalar typeOf].
    rewrite Hq. repeat split; try assumption.
    cbn [setPrimitiveValue]. now rewrite Htrim, Hu.
  Qed.

Lemma In_escape (c : ascii) (s : gostring) :
    In c (escape s) -> In c s \/ c = BACKSLASH.
  Proof.
    induction s as [|x s IH]; [contradiction|].
    rewrite escape_cons. destruct (Ascii.eqb x DQUOTE) eqn:Hx.
    - apply Ascii.eqb_eq in Hx. subst x. intros [H|[H|H]].
      + now right.
      + left. now left.
      + destruct (IH H); [left; now right|now right].
    - intros [H|H]; [left; now left|].
      destruct (IH H); [left; now right|now right].
  Qed.

  (** A string that is written between quotes, on one line. *)
Lemma quotedString_safe (s : gostring) :
    needsQuotes s = true -> ~ In LF s -> lineSafe (VString s).
  Proof.
    intros Hq Hlf. unfold lineSafe. cbn [isScalar typeOf].
    destruct (quoted_round_trip_parts s Hq) as [Hw Hr].
    rewrite Hw. repeat split.
    - discriminate.
    - apply TrimSpace_quoted.
    - cbn [app]. intros [H|H]; [discriminate H|].
      apply in_app_or in H as [H|[H|[]]]; [|discriminate H].
      apply In_escape in H as [H|H]; [now apply Hlf|discriminate H].
    - rewrite <- Hw. exact Hr.
  Qed.

End TokenFacts.

(** * Inline arrays (C3) *)

Section InlineArrays.

  Context {R : GoRuntime}.

  Import Strings StringFacts SplitFacts.

Lemma noDelimiter_In (tok : gostring) (c : ascii) :
    noDelimiter tok -> In c [","%char; "|"%char; TAB] -> ~ In c tok.
  Proof. intros H Hc. eapply In_ContainsAny; eassumption. Qed.

Lemma Join_no_byte (toks : list gostring) (sep c : ascii) :
    Forall noDelimiter toks -> In c [","%char; "|"%char; TAB] ->
    c <> sep -> Contains (Join toks [sep]) [c] = false.
  Proof.
    intros Htoks Hc Hsep. apply Contains_byte_false. intros Hin.
    apply In_Join in Hin as [[p [Hp Hin]]|[Heq _]]; [|congruence].
    rewrite Forall_forall in Htoks.
    now apply (noDelimiter_In (Htoks _ Hp) Hc).
  Qed.

Lemma Join_one_no_byte (tok : gostring) (sep : gostring) (c : ascii) :
    noDelimiter tok -> In c [","%char; "|"%char; TAB] ->
    Contains (Join [tok] sep) [c] = false.
  Proof.
    intros Htok Hc. apply Contains_byte_false. simpl.
    now apply noDelimiter_In.
  Qed.

Lemma Join_has_sep (toks : list gostring) (sep : ascii) :
    2 <= length toks -> Contains (Join toks [sep]) [sep] = true.
  Proof.
    intros Hlen. apply Contains_byte.
    destruct toks as [|p [|q toks]]; simpl in Hlen; try lia.
    rewrite Join_cons by discriminate.
    apply in_or_app. right. now left.
  Qed.

  (** The delimiter that the decoder infers from a row is the one that
      joined its tokens. *)
Lemma splitDelimited_Join (toks : list gostring) (sep : ascii) :
    In sep [","%char; "|"%char; TAB] ->
    toks <> [] -> Forall noDelimiter toks ->
    splitDelimited (Join toks [sep]) = toks.
  Proof.
    intros Hsep Hne Htoks.
    assert (Hsplit : forall c, In c [","%char; "|"%char; TAB] ->
                               c = sep \/ length toks = 1 ->
                               Split (Join toks [sep]) c = toks).
    { intros c Hc [->|Hone].
      - apply Split_Join; [exact Hne|].
        eapply Forall_impl; [|exact Htoks].
        intros tok Htok. now apply noDelimiter_In.
      - destruct toks as [|tok [|]]; try discriminate.
        simpl. apply Split_one. inversion Htoks; subst.
        now apply noDelimiter_In. }
    assert (Hcases : length toks = 1 \/ 2 <= length toks).
    { destruct toks as [|p [|q toks]]; simpl; [congruence|lia|lia]. }
    unfold splitDelimited. change (str "|") with ["|"%char].
    destruct Hsep as [<-|[<-|[<-|[]]]].
    - rewrite !Join_no_byte by (try exact Htoks; simpl; try tauto; discriminate).
      apply Hsplit; simpl; tauto.
    - rewrite Join_no_byte by (try exact Htoks; simpl; try tauto; discriminate).
      destruct Hcases as [Hone|Htwo].
      + destruct toks as [|tok [|]]; try discriminate.
        inversion Htoks; subst.
        rewrite Join_one_no_byte by (try assumption; simpl; tauto).
        apply Hsplit; simpl; tauto.
      + rewrite Join_has_sep by exact Htwo.
        apply Hsplit; simpl; tauto.
    - destruct Hcases as [Hone|Htwo].
      + destruct toks as [|tok [|]]; try discriminate.
        inversion Htoks; subst.
        rewrite !Join_one_no_byte by (try assumption; simpl; tauto).
        apply Hsplit; simpl; tauto.
      + rewrite Join_has_sep by exact Htwo.
        apply Hsplit; simpl; tauto.
  Qed.

Lemma knownDelimiter_byte (opts : MarshalOptions) :
    knownDelimiter opts ->
    exists sep, Delimiter opts = [sep] /\ In sep [","%char; "|"%char; TAB].
  Proof.
    unfold knownDelimiter. intros [H|[H|[H|[]]]]; rewrite <- H.
    - exists ","%char. simpl. tauto.
    - exists TAB. simpl. tauto.
    - exists "|"%char. simpl. tauto.
  Qed.

  Variable opts : MarshalOptions.

Lemma Join_flat_map (toks : list gostring) (tok sep : gostring) :
    Join (tok :: toks) sep = tok ++ flat_map (fun p => sep ++ p) toks.
  Proof.
    revert tok. induction toks as [|p toks IH]; intros tok.
    - simpl. now rewrite app_nil_r.
    - rewrite Join_cons by discriminate. rewrite IH. cbn [flat_map].
      now rewrite <- app_assoc.
  Qed.

Lemma encodePrimitiveSlice_inlineText elems depth key :
    encodePrimitiveSlice opts elems depth key
    = writeIndent opts depth ++ key ++ lenTag (length elems) ++ str "]: "
        ++ inlineText opts elems ++ [LF].
  Proof.
    unfold encodePrimitiveSlice, inlineText. do 5 f_equal.
    match goal with
    | |- ?loop true elems = _ =>
        assert (Hloop : forall l,
                   loop false l
                   = flat_map (fun p => Delimiter opts ++ p)
                       (map writePrimitiveValue l))
    end.
    { induction l as [|e l IH]; [reflexivity|].
      cbn [map flat_map]. rewrite <- IH. now rewrite <- app_assoc. }
    destruct elems as [|e elems]; [reflexivity|].
    cbn [map]. rewrite Join_flat_map, <- Hloop. reflexivity.
  Qed.

Lemma cellSafe_token (t : type) (e : value float64) :
    cellSafe e -> typeOf e = t ->
    let tok := writePrimitiveValue e in
    TrimSpace tok = tok /\ isEmpty tok = false /\ noDelimiter tok
    /\ setPrimitiveValue t tok = Ok e.
  Proof.
    intros [[_ [Hne [Htrim [_ Hset]]]] Hd] <-. cbv zeta.
    repeat split; try assumption.
    now destruct (writePrimitiveValue e).
  Qed.

Lemma decodeInlineArray_tokens (t : type) data
    (elems : list (value float64)) :
    Forall cellSafe elems -> Forall (fun e => typeOf e = t) elems ->
    elems <> [] -> knownDelimiter opts ->
    decodeInlineArray (VSlice t data) (inlineText opts elems)
    = Ok (VSlice t (Some elems)).
  Proof.
    intros Hsafe Htype Hne Hdelim.
    destruct (knownDelimiter_byte Hdelim) as [sep [Hsep Hin]].
    unfold decodeInlineArray, inlineText. cbn [elemOf]. rewrite Hsep.
    rewrite splitDelimited_Join; [|exact Hin|now destruct elems|].
    2:{ apply Forall_forall. intros tok Htok.
        apply in_map_iff in Htok as [e [<- He]].
        rewrite Forall_forall in Hsafe, Htype.
        apply (cellSafe_token (Hsafe _ He) (Htype _ He)). }
    match goal with
    | |- bind (?loop _ []) _ = _ =>
        assert (Hloop : forall es acc,
                   Forall cellSafe es -> Forall (fun e => typeOf e = t) es ->
                   loop (map writePrimitiveValue es) acc = Ok (acc ++ es))
    end.
    { induction es as [|e es IH]; intros acc Hs Ht.
      - now rewrite app_nil_r.
      - inversion Hs; subst. inversion Ht; subst.
        destruct (cellSafe_token H1 eq_refl) as [Htrim [Hemp [_ Hset]]].
        cbn [map]. rewrite Htrim, Hemp, Hset. cbn [bind].
        rewrite IH by assumption. now rewrite <- app_assoc. }
    now rewrite Hloop.
  Qed.

  (** C3, as the codec has it.  A sequence of scalars that is not empty is
      written on one line, its tokens joined by the delimiter; when every
      token is one that a cell carries unharmed, decoding the text after
      the header gives the same elements, as many and in the same
      order. *)
Theorem inline_round_trip (t : type)
    (data : option (list (value float64)))
    (elems : list (value float64)) (depth : Z) (key : gostring) :
    knownDelimiter opts ->
    elems <> [] ->
    Forall cellSafe elems ->
    Forall (fun e => typeOf e = t) elems ->
    encodePrimitiveSlice opts elems depth key
    = writeIndent opts depth ++ key ++ lenTag (length elems) ++ str "]: "
        ++ inlineText opts elems ++ [LF]
    /\ decodeInlineArray (VSlice t data) (inlineText opts elems)
       = Ok (VSlice t (Some elems))
    /\ (let friends :=
          Some [VString (str "ana"); VString (str "luis"); VString (str "sam")]
        in
        Marshal (Some (friendsRecord friends))
        = Ok (str "friends[3]: ana,luis,sam" ++ [LF])
        /\ forall fuel,
            Unmarshal (S (S fuel)) (str "friends[3]: ana,luis,sam" ++ [LF])
              (pointerTo (friendsRecord None))
            = pointsTo (friendsRecord friends)).
  Proof.
    intros Hdelim Hne Hsafe Htype. split; [|split].
    - apply encodePrimitiveSlice_inlineText.
    - now apply decodeInlineArray_tokens.
    - split; [reflexivity|]. intros fuel. reflexivity.
  Qed.

End InlineArrays.

Lemma inline_round_trip_witness :
  let friends :=
    [VString (float64 := @float64 integerRuntime) (str "ana");
     VString (str "luis"); VString (str "sam")] in
  encodePrimitiveSlice (R := integerRuntime) DefaultMarshalOptions friends 0
    (str "friends")
  = str "friends[3]: ana,luis,sam" ++ [LF]
  /\ decodeInlineArray (R := integerRuntime) (VSlice TString None)
       (str "ana,luis,sam")
     = Ok (VSlice TString (Some friends)).
Proof.
  intros friends.
  destruct (@inline_round_trip integerRuntime DefaultMarshalOptions TString
              None friends 0 (str "friends")) as [Henc [Hdec _]].
  - left. reflexivity.
  - discriminate.
  - repeat constructor; apply plainString_safe;
      solve [discriminate | vm_compute; reflexivity].
  - repeat constructor.
  - split; [exact Henc|exact Hdec].
Defined.

(** C3, as the specification has it, fails.  A string with a comma is
    written between quotes and split at the comma when it is read: one
    element comes back as two.  An empty string is written as an empty
    token, which the decoder passes over: two elements come back as
    one. *)
Lemma inline_counterexample :
  decodeInlineArray (R := integerRuntime) (VSlice TString None)
    (inlineText (R := integerRuntime) DefaultMarshalOptions
       [VString (str "a,b")])
  = Ok (VSlice TString
          (Some [VString ([DQUOTE] ++ str "a"); VString (str "b" ++ [DQUOTE])]))
  /\ Marshal (R := integerRuntime)
       (Some (friendsRecord (Some [VString []; VString (str "x")])))
     = Ok (str "friends[2]: ,x" ++ [LF])
  /\ Unmarshal (R := integerRuntime) 2 (str "friends[2]: ,x" ++ [LF])
       (pointerTo (friendsRecord None))
     = pointsTo (friendsRecord (Some [VString (str "x")])).
Proof. repeat split. Qed.

(** * The cursor on a known line *)

Section KnownLine.

  Context {R : GoRuntime}.

  Import Strings StringFacts SplitFacts.

Lemma skipn_length_app {A} (a b : list A) : skipn (length a) (a ++ b) = b.
  Proof. induction a; simpl; auto. Qed.

Lemma cursor_hasMore pre l post :
    isBlank l = false -> hasMore (cursor pre (l :: post)) = true.
  Proof.
    intros Hl. unfold hasMore, cursor. cbn [lines pos].
    rewrite skipn_length_app. cbn [existsb]. now rewrite Hl.
  Qed.

Lemma cursor_skip pre l post :
    isBlank l = false ->
    skipEmptyLines (cursor pre (l :: post)) = cursor pre (l :: post).
  Proof.
    intros Hl. unfold skipEmptyLines, cursor. cbn [lines pos].
    rewrite skipn_length_app. cbn [countBlank]. rewrite Hl.
    now rewrite Nat.add_0_r.
  Qed.

Lemma cursor_current pre l post : currentLine (cursor pre (l :: post)) = l.
  Proof. unfold currentLine, cursor. cbn [lines pos]. apply nth_middle. Qed.

Lemma cursor_advance pre l post :
    advance (cursor pre (l :: post)) = cursor (pre ++ [l]) post.
  Proof.
    unfold advance, cursor. cbn [lines pos].
    rewrite <- app_assoc. cbn [app]. f_equal.
    rewrite length_app. simpl. lia.
  Qed.

  (** Nothing but blank lines is left. *)
Lemma cursor_end pre post :
    forallb isBlank post = true -> hasMore (cursor pre post) = false.
  Proof.
    intros H. unfold hasMore, cursor. cbn [lines pos].
    rewrite skipn_length_app.
    apply (no_line_after_blanks post 0 H).
  Qed.

Lemma cursor_lines pre post :
    length (lines (cursor pre post)) = length pre + length post.
  Proof. unfold cursor. cbn [lines]. apply length_app. Qed.

Lemma isBlank_false (l : gostring) :
    l <> [] -> TrimSpace l = l -> HasPrefix l (str "#") = false ->
    isBlank l = false.
  Proof.
    intros Hne Htrim Hhash. unfold isBlank. cbv zeta. rewrite Htrim, Hhash.
    now destruct l.
  Qed.

End KnownLine.

(** * Keys *)

Section Keys.

  Context {R : GoRuntime}.

  Import Strings StringFacts SplitFacts.

Lemma matchBracket_head (s : gostring) :
    Ascii.eqb (hd SP s) "["%char = false -> matchBracket s = None.
  Proof.
    destruct s as [|c s]; [reflexivity|]. cbn [hd matchBracket].
    now intros ->.
  Qed.

Lemma findDeclaration_no_bracket (s : gostring) (seen : bool) :
    ~ In "["%char s -> findDeclaration seen s = None.
  Proof.
    revert seen. induction s as [|c s IH]; intros seen Hs; [reflexivity|].
    apply eqb_false_not_In in Hs as [Hc Hs].
    cbn [findDeclaration].
    assert (Hm : (if seen then matchBracket (c :: s) else None) = None).
    { destruct seen; [|reflexivity]. now apply matchBracket_head. }
    rewrite Hm. destruct (Ascii.eqb c LF); [reflexivity|now apply IH].
  Qed.

Lemma parseArrayDeclaration_no_bracket (key : gostring) :
    ~ In "["%char key -> parseArrayDeclaration key = ((-1)%Z, []).
  Proof.
    intros H. unfold parseArrayDeclaration.
    now rewrite findDeclaration_no_bracket.
  Qed.

  (** ** The field map *)

Lemma lookup_cons (m : fieldMap) (k key : gostring) (i : nat) :
    lookup ((k, i) :: m) key
    = if gostring_eqb k key then Some i else lookup m key.
  Proof.
    unfold lookup. cbn [find fst snd]. now destruct (gostring_eqb k key).
  Qed.

Lemma lookup_buildFieldMap_other dropDash fields :
    forall i m key,
      ~ In key (names fields) ->
      lookup (buildFieldMap dropDash i fields m) key = lookup m key.
  Proof.
    induction fields as [|[f v] fields IH]; intros i m key Hkey;
      [reflexivity|].
    cbn [buildFieldMap].
    assert (Hrest : ~ In key (names fields)).
    { intros H. apply Hkey. now right. }
    destruct (negb (IsExported f)); [now apply IH|].
    cbv zeta. destruct (dropDash && isDash (getFieldName f));
      [now apply IH|].
    rewrite IH by exact Hrest. rewrite lookup_cons.
    destruct (gostring_eqb (getFieldName f) key) eqn:Heq; [|reflexivity].
    apply gostring_eqb_eq in Heq. exfalso. apply Hkey. now left.
  Qed.

Lemma lookup_buildFieldMap dropDash fields :
    forall i m j key,
      Forall (fun fv => IsExported (fst fv) = true
                        /\ getFieldName (fst fv) <> str "-") fields ->
      NoDup (names fields) ->
      nth_error (names fields) j = Some key ->
      lookup (buildFieldMap dropDash i fields m) key = Some (i + j).
  Proof.
    induction fields as [|[f v] fields IH]; intros i m j key Hall Hnd Hj.
    - now destruct j.
    - inversion Hall as [|? ? [Hexp Hdash] Hall']; subst.
      inversion Hnd as [|? ? Hnotin Hnd']; subst.
      cbn [fst] in Hexp, Hdash.
      cbn [buildFieldMap fst]. rewrite Hexp. cbn [negb]. cbv zeta.
      replace (isDash (getFieldName f)) with false
        by (symmetry; now apply gostring_eqb_neq).
      rewrite andb_false_r.
      destruct j as [|j].
      + injection Hj as <-.
        rewrite lookup_buildFieldMap_other by exact Hnotin.
        rewrite lookup_cons.
        replace (gostring_eqb (getFieldName f) (getFieldName f)) with true
          by (symmetry; now apply gostring_eqb_eq).
        f_equal. lia.
      + rewrite (IH (S i) _ j key Hall' Hnd' Hj). f_equal. lia.
  Qed.

Lemma setField_middle (done : list (StructField * value float64)) f v0 v
    rest :
    setField (done ++ (f, v0) :: rest) (length done) v
    = done ++ (f, v) :: rest.
  Proof.
    induction done as [|[g w] done IH]; [reflexivity|].
    cbn [app length setField]. now rewrite IH.
  Qed.

Lemma nth_error_middle {A} (a : list A) (x : A) (b : list A) :
    nth_error (a ++ x :: b) (length a) = Some x.
  Proof. induction a; simpl; auto. Qed.

End Keys.

(** * Flat records (C1) *)

Section FlatRecords.

  Context {R : GoRuntime}.

  Import Strings StringFacts SplitFacts.

Lemma fieldLine_eq (fv : StructField * value float64) :
    fieldLine fv
    = getFieldName (fst fv) ++ ":"%char :: SP :: writePrimitiveValue (snd fv).
  Proof. reflexivity. Qed.

  (** A key, a colon, a space and a token make a line that is read as
      that key and that token. *)
  Section KeyLine.

    Variables key tok : gostring.
    Hypothesis Hkey : bareKey key.
    Hypothesis Htok : tok <> [].
    Hypothesis Htrim : TrimSpace tok = tok.

Let line := key ++ ":"%char :: SP :: tok.

Lemma keyLine_TrimSpace : TrimSpace line = line.
    Proof.
      destruct Hkey as [Hne [Hk _]].
      apply TrimSpace_fixed in Hk as [Hkl _].
      apply TrimSpace_fixed in Htrim as [_ Htr].
      apply TrimSpace_fixed. split.
      - now apply ltrim1_app.
      - unfold line. rewrite rev_app_distr. cbn [rev].
        rewrite <- !app_assoc. cbn [app].
        apply rtrim1_app; [exact Htr| |reflexivity].
        intros H. apply (f_equal (@rev ascii)) in H.
        rewrite rev_involutive in H. now apply Htok.
    Qed.

Lemma keyLine_isBlank : isBlank line = false.
    Proof.
      apply isBlank_false.
      - unfold line. destruct key; discriminate.
      - apply keyLine_TrimSpace.
      - destruct Hkey as [Hne [_ [_ [_ [_ [Hhash _]]]]]].
        unfold line. destruct key as [|c k]; [congruence|].
        cbn [app HasPrefix str list_ascii_of_string] in *.
        rewrite HasPrefix_nil in *. exact Hhash.
    Qed.

Lemma keyLine_SplitN2 : SplitN2 line ":"%char = [key; SP :: tok].
    Proof.
      destruct Hkey as [_ [_ [Hcolon _]]]. now apply SplitN2_app.
    Qed.

Lemma keyLine_Contains : Contains line (str ":") = true.
    Proof.
      apply Contains_byte. unfold line. apply in_or_app. right. now left.
    Qed.

Lemma keyLine_key : TrimSpace key = key.
    Proof. now destruct Hkey as [_ [Hk _]]. Qed.

Lemma keyLine_value : TrimSpace (SP :: tok) = tok.
    Proof. now apply TrimSpace_space. Qed.

Lemma keyLine_parse : parseArrayDeclaration key = ((-1)%Z, []).
    Proof.
      destruct Hkey as [_ [_ [_ [Hbr _]]]].
      now apply parseArrayDeclaration_no_bracket.
    Qed.

  End KeyLine.

  Section Loop.

  Variable decodeValue' :
    value float64 -> nat -> decoder -> result (value float64 * decoder).

  (** One turn of the loop of [decodeStruct] on the line of a plain
      field. *)
Lemma structLines_plain_field (n : nat) (fm : fieldMap)
    (done rest : list (StructField * value float64))
    (f : StructField) (v0 v : value float64)
    (pre post : list gostring) :
    plainField (f, v) ->
    typeOf v0 = typeOf v ->
    lookup fm (getFieldName f) = Some (length done) ->
    structLines decodeValue' (S n) fm 0 (done ++ (f, v0) :: rest)
      (cursor pre (fieldLine (f, v) :: post))
    = structLines decodeValue' n fm 0 (done ++ (f, v) :: rest)
        (cursor (pre ++ [fieldLine (f, v)]) post).
  Proof.
    intros [Hexp [Hkey [Hsc [Hne [Htrim [Hlf Hset]]]]]] Htype Hlook.
    cbn [fst snd] in *.
    pose proof (keyLine_isBlank Hkey Hne Htrim) as Hblank.
    cbn [structLines].
    rewrite fieldLine_eq. cbn [fst snd].
    rewrite cursor_hasMore by exact Hblank. cbn [negb]. cbv iota.
    rewrite cursor_skip by exact Hblank.
    rewrite cursor_hasMore by exact Hblank. cbn [negb]. cbv iota.
    rewrite cursor_current. cbv zeta.
    change (0 <? 0) with false. cbn [andb]. cbv iota.
    rewrite (keyLine_TrimSpace Hkey Hne Htrim).
    rewrite (keyLine_Contains _ _). cbn [negb]. cbv iota.
    rewrite (keyLine_SplitN2 _ Hkey).
    rewrite (keyLine_key Hkey), (keyLine_value Htrim).
    rewrite (keyLine_parse Hkey).
    change (0 <=? -1)%Z with false. cbv iota.
    rewrite Hlook, nth_error_middle.
    replace (isEmpty (writePrimitiveValue v)) with false
      by now destruct (writePrimitiveValue v).
    rewrite Htype, Hset. cbn [bind fst snd].
    now rewrite setField_middle, cursor_advance.
  Qed.

  (** The loop of [decodeStruct] over the lines of plain fields. *)
Lemma structLines_plain_fields (fm : fieldMap) :
    forall (todo ttodo done : list (StructField * value float64))
           (pre : list gostring) (n : nat),
      Forall plainField todo ->
      Forall2 sameShape ttodo todo ->
      (forall j fv, nth_error todo j = Some fv ->
                    lookup fm (getFieldName (fst fv))
                    = Some (length done + j)) ->
      length todo <= n ->
      structLines decodeValue' n fm 0 (done ++ ttodo)
        (cursor pre (map fieldLine todo ++ [[]]))
      = Ok (done ++ todo, cursor (pre ++ map fieldLine todo) [[]]).
  Proof.
    induction todo as [|[f v] todo IH];
      intros ttodo done pre n Hall Hshape Hlook Hn.
    - inversion Hshape; subst. cbn [map app]. rewrite !app_nil_r.
      destruct n; cbn [structLines];
        now rewrite cursor_end by reflexivity.
    - inversion Hshape as [|[f0 v0] ? ? ? [Hf Ht] Hshape']; subst.
      cbn [fst snd] in Hf, Ht. subst f0.
      inversion Hall as [|? ? Hplain Hall']; subst.
      destruct n as [|n]; [simpl in Hn; lia|].
      cbn [map app].
      pose proof (Hlook 0 (f, v) eq_refl) as Hl0. cbn [fst] in Hl0.
      rewrite Nat.add_0_r in Hl0.
      rewrite structLines_plain_field; [|exact Hplain|exact Ht|exact Hl0].
      replace (done ++ (f, v) :: l) with ((done ++ [(f, v)]) ++ l)
        by now rewrite <- app_assoc.
      rewrite IH; [|exact Hall'|exact Hshape'| |simpl in Hn; lia].
      + rewrite <- !app_assoc. reflexivity.
      + intros j fv Hj. rewrite (Hlook (S j) fv Hj).
        rewrite length_app. f_equal. simpl. lia.
  Qed.

  End Loop.

  Variable opts : MarshalOptions.

Lemma writeIndent_zero : writeIndent opts 0 = [].
  Proof. reflexivity. Qed.

Lemma encodeValue_scalar (v : value float64) (depth : Z) (key : gostring) :
    isScalar v = true ->
    encodeValue opts v depth key = Ok (encodePrimitive opts v depth key).
  Proof. now destruct v. Qed.

Lemma bareKey_live (f : StructField) :
    IsExported f = true -> bareKey (getFieldName f) ->
    skipped f = false /\ isEmpty (getFieldName f) = false.
  Proof.
    intros Hexp [Hne [_ [_ [_ [_ [_ Hdash]]]]]]. unfold skipped.
    rewrite Hexp. cbn [negb orb]. split.
    - now apply gostring_eqb_neq.
    - now destruct (getFieldName f).
  Qed.

Lemma encodeStruct_plain (fields : list (StructField * value float64)) :
    Forall plainField fields ->
    encodeValue opts (VStruct fields) 0 [] = Ok (recordText fields).
  Proof.
    intros Hall. cbn [encodeValue]. unfold encodeStruct.
    cbn [blockHeader blockDepth isEmpty app].
    match goal with
    | |- bind (?loop fields) _ = _ =>
        assert (Hloop : loop fields = Ok (recordText fields))
    end.
    { induction Hall as [|[f v] fields [Hexp [Hkey Hsafe]] _ IH];
        [reflexivity|].
      cbn [fst snd] in *.
      destruct (bareKey_live f Hexp Hkey) as [Hskip Hemp].
      unfold skipped in Hskip. apply orb_false_iff in Hskip as [He Hd].
      rewrite He, Hd, IH.
      rewrite encodeValue_scalar by apply Hsafe.
      unfold encodePrimitive. rewrite writeIndent_zero, Hemp.
      cbn [bind app]. unfold recordText. cbn [map concat].
      unfold fieldLine. cbn [fst snd]. now rewrite <- !app_assoc. }
    now rewrite Hloop.
  Qed.

Lemma fieldLine_no_LF (fv : StructField * value float64) :
    plainField fv -> ~ In LF (fieldLine fv).
  Proof.
    intros [_ [[_ [_ [_ [_ [Hk _]]]]] [_ [_ [_ [Hv _]]]]]].
    rewrite fieldLine_eq. intros H.
    apply in_app_or in H as [H|[H|[H|H]]]; try discriminate H; tauto.
  Qed.

Lemma recordText_lines (fields : list (StructField * value float64)) :
    Forall plainField fields ->
    Split (recordText fields) LF = map fieldLine fields ++ [[]].
  Proof.
    intros Hall. unfold recordText.
    rewrite <- (map_map fieldLine (fun l => l ++ [LF])).
    apply Split_lines. apply Forall_map.
    eapply Forall_impl; [|exact Hall]. apply fieldLine_no_LF.
  Qed.

Lemma sameShape_of_type (target fields : list (StructField * value float64)) :
    typeOf (VStruct target) = typeOf (VStruct fields) ->
    Forall2 sameShape target fields.
  Proof.
    cbn [typeOf]. intros H. injection H as H.
    revert fields H. induction target as [|a target IH]; intros [|b fields] H;
      try discriminate; constructor.
    - cbn [map] in H. injection H as H1 H2 _. now split.
    - cbn [map] in H. injection H as _ _ H. now apply IH.
  Qed.

Lemma sameShape_names (target fields : list (StructField * value float64)) :
    Forall2 sameShape target fields -> names target = names fields.
  Proof.
    induction 1 as [|a b target fields [Hf _] _ IH]; [reflexivity|].
    unfold names in *. cbn [map]. now rewrite Hf, IH.
  Qed.

Lemma sameShape_live (target fields : list (StructField * value float64)) :
    Forall2 sameShape target fields -> Forall plainField fields ->
    Forall (fun fv => IsExported (fst fv) = true
                      /\ getFieldName (fst fv) <> str "-") target.
  Proof.
    induction 1 as [|a b target fields [Hf _] _ IH]; intros Hall;
      constructor; inversion Hall as [|? ? [Hexp [Hkey _]] Hall']; subst.
    - rewrite Hf. split; [exact Hexp|]. apply Hkey.
    - now apply IH.
  Qed.

  (** C1, as the codec has it.  A record of plain fields (exported, under
      names that a line carries as keys, no two the same, with scalars
      that a line carries unharmed) is written one field a line, and
      [Unmarshal] of that text into a record of the same type gives the
      record again, whatever the target held and whatever the options. *)
Theorem flat_record_round_trip
    (fields target : list (StructField * value float64)) (fuel : nat) :
    Forall plainField fields ->
    NoDup (names fields) ->
    typeOf (VStruct target) = typeOf (VStruct fields) ->
    MarshalWithOptions (Some (VStruct fields)) opts = Ok (recordText fields)
    /\ Unmarshal (S (S fuel)) (recordText fields)
         (Some (VPtr (typeOf (VStruct fields)) (Some (VStruct target))))
       = Ok (VPtr (typeOf (VStruct fields)) (Some (VStruct fields))).
  Proof.
    intros Hall Hnd Htype. split; [now apply encodeStruct_plain|].
    pose proof (sameShape_of_type Htype) as Hshape.
    unfold Unmarshal, newDecoder, decode.
    rewrite recordText_lines by exact Hall.
    change {| lines := map fieldLine fields ++ [[]]; pos := 0 |}
      with (cursor [] (map fieldLine fields ++ [[]])).
    cbn [decodeValue]. unfold decodeValue_body at 1.
    destruct fields as [|fv fields].
    - inversion Hshape; subst. reflexivity.
    - set (todo := fv :: fields) in *.
      assert (Hblank : isBlank (fieldLine fv) = false).
      { inversion Hall as [|? ? [_ [Hkey [_ [Hne [Htrim _]]]]] _]; subst.
        rewrite fieldLine_eq. now apply keyLine_isBlank. }
      change (map fieldLine todo ++ [[]])
        with (fieldLine fv :: (map fieldLine fields ++ [[]])).
      rewrite cursor_skip, cursor_hasMore by exact Hblank.
      cbn [negb]. cbv iota. unfold decodeStruct.
      change (fieldLine fv :: (map fieldLine fields ++ [[]]))
        with (map fieldLine todo ++ [[]]).
      match goal with
      | |- context [structLines ?rec ?n ?fm _ _ _] =>
          pose proof (@structLines_plain_fields rec fm todo target [] [] n
                        Hall Hshape) as Hrun
      end.
      cbn [app length plus] in Hrun. rewrite Hrun; [reflexivity| |].
      + intros j fv' Hj.
        apply (@lookup_buildFieldMap R true target 0 [] j).
        * exact (sameShape_live Hshape Hall).
        * now rewrite (sameShape_names Hshape).
        * rewrite (sameShape_names Hshape). unfold names.
          now rewrite nth_error_map, Hj.
      + rewrite cursor_lines, length_app, length_map. simpl. lia.
  Qed.

End FlatRecords.

Ltac closed_token :=
  repeat split;
  try discriminate;
  try (vm_compute; reflexivity);
  try (intros H; vm_compute in H; intuition discriminate).

Lemma flat_record_round_trip_witness :
  let fields :=
    [(tagged "Name" "name",
      VString (float64 := @float64 integerRuntime) (str "Ada Lovelace"));
     (tagged "Age" "age", VInt KInt 36);
     (tagged "Level" "level", VUint KUint8 7);
     (tagged "Active" "active", VBool true);
     (tagged "Note" "note", VString (str "a,b"))] in
  let target :=
    [(tagged "Name" "name", VString []);
     (tagged "Age" "age", VInt KInt 0);
     (tagged "Level" "level", VUint KUint8 0);
     (tagged "Active" "active", VBool false);
     (tagged "Note" "note", VString [])] in
  Marshal (R := integerRuntime) (Some (VStruct fields))
  = Ok (str "name: Ada Lovelace" ++ [LF] ++ str "age: 36" ++ [LF]
          ++ str "level: 7" ++ [LF] ++ str "active: true" ++ [LF]
          ++ str "note: " ++ [DQUOTE] ++ str "a,b" ++ [DQUOTE] ++ [LF])
  /\ Unmarshal (R := integerRuntime) 2 (recordText fields)
       (pointerTo (VStruct target))
     = pointsTo (VStruct fields).
Proof.
  intros fields target.
  apply (@flat_record_round_trip integerRuntime DefaultMarshalOptions
           fields target 0).
  - repeat constructor; closed_token.
  - vm_compute. repeat constructor; simpl; intuition discriminate.
  - reflexivity.
Defined.

(** C1, as the specification has it, fails.  The line of an empty string
    has no value, and the decoder reads the block below it into the field:
    the next line becomes the value of the empty field and is lost for its
    own.  White space at the ends of a string is lost as well. *)
Lemma flat_record_counterexample :
  let a := tagged "A" "a" in
  let b := tagged "B" "b" in
  Marshal (R := integerRuntime)
    (Some (VStruct [(a, VString []); (b, VString (str "x"))]))
  = Ok (str "a: " ++ [LF] ++ str "b: x" ++ [LF])
  /\ Unmarshal (R := integerRuntime) 3 (str "a: " ++ [LF] ++ str "b: x" ++ [LF])
       (pointerTo (VStruct [(a, VString []); (b, VString [])]))
     = pointsTo (VStruct [(a, VString (str "b: x")); (b, VString [])])
  /\ Marshal (R := integerRuntime)
       (Some (VStruct [(a, VString (str " y "))]))
     = Ok (str "a:  y " ++ [LF])
  /\ Unmarshal (R := integerRuntime) 3 (str "a:  y " ++ [LF])
       (pointerTo (VStruct [(a, VString [])]))
     = pointsTo (VStruct [(a, VString (str "y"))]).
Proof. repeat split. Qed.

(** * Rows *)

Section Rows.

  Context {R : GoRuntime}.

  Import Strings StringFacts SplitFacts.

Lemma trimLeft_spaces (n : nat) (s : gostring) :
    trimLeft (repeat SP n ++ s) = trimLeft s.
  Proof.
    induction n as [|n IH]; [reflexivity|].
    cbn [repeat app trimLeft]. change (asciiSpace SP) with true. exact IH.
  Qed.

Lemma TrimSpace_spaces (n : nat) (s : gostring) :
    TrimSpace (repeat SP n ++ s) = TrimSpace s.
  Proof. unfold TrimSpace. now rewrite trimLeft_spaces. Qed.

Lemma Join_snoc (init : list gostring) (cl sep : gostring) :
    Join (init ++ [cl]) sep = flat_map (fun p => p ++ sep) init ++ cl.
  Proof.
    induction init as [|p init IH]; [reflexivity|].
    cbn [app flat_map]. rewrite Join_cons by now destruct init.
    rewrite IH. now rewrite <- !app_assoc.
  Qed.

Lemma flat_map_sep_last (init : list gostring) (sep : ascii) :
    asciiHead (rev (flat_map (fun p => p ++ [sep]) init))
    = match init with [] => true | _ => isASCII sep end.
  Proof.
    destruct init as [|p init]; [reflexivity|].
    assert (Hne : p :: init <> []) by discriminate.
    rewrite (app_removelast_last [] Hne), flat_map_app.
    cbn [flat_map]. rewrite app_nil_r, app_assoc, rev_app_distr.
    reflexivity.
  Qed.

  (** Cells that are not trimmed make a row that is not trimmed. *)
Lemma Join_TrimSpace (toks : list gostring) (sep : ascii) :
    toks <> [] -> Forall trimmed toks -> isASCII sep = true ->
    TrimSpace (Join toks [sep]) = Join toks [sep].
  Proof.
    intros Hne Htoks Hsep. apply TrimSpace_fixed. split.
    - destruct toks as [|tok toks]; [congruence|].
      inversion Htoks as [|? ? [Htok Htrim] _]; subst.
      rewrite Join_flat_map.
      apply TrimSpace_fixed in Htrim as [Hl _].
      apply ltrim1_app; [exact Hl|exact Htok|].
      destruct toks; [reflexivity|exact Hsep].
    - rewrite (app_removelast_last [] Hne) in Htoks |- *.
      apply Forall_app in Htoks as [_ Hlast].
      inversion Hlast as [|? ? [Htok Htrim] _]; subst.
      rewrite Join_snoc, rev_app_distr.
      apply TrimSpace_fixed in Htrim as [_ Hr].
      apply rtrim1_app; [exact Hr| |].
      + intros H. apply (f_equal (@rev ascii)) in H.
        rewrite rev_involutive in H. now apply Htok.
      + rewrite flat_map_sep_last.
        match goal with
        | |- match ?x with _ => _ end = _ => destruct x
        end; [reflexivity|exact Hsep].
  Qed.

Lemma Join_head (tok : gostring) (toks : list gostring) (sep : gostring) :
    tok <> [] ->
    Join (tok :: toks) sep <> []
    /\ HasPrefix (Join (tok :: toks) sep) (str "#") = HasPrefix tok (str "#").
  Proof.
    intros Hne. rewrite Join_flat_map.
    destruct tok as [|c tok]; [congruence|]. split; [discriminate|].
    cbn [app HasPrefix str list_ascii_of_string]. now rewrite !HasPrefix_nil.
  Qed.

Lemma delimiter_ascii (sep : ascii) :
    In sep [","%char; "|"%char; TAB] -> isASCII sep = true.
  Proof. intros [<-|[<-|[<-|[]]]]; reflexivity. Qed.

Lemma rowLine_nonempty (toks : list gostring) (sep : ascii) :
    rowCells toks -> isEmpty (Join toks [sep]) = false.
  Proof.
    intros [Hne Htr _ _].
    destruct toks as [|tok toks']; [congruence|].
    inversion Htr as [|? ? [Htok _] _]; subst.
    destruct (Join_head toks' [sep] Htok) as [H _].
    now destruct (Join (tok :: toks') [sep]).
  Qed.

  Section RowLine.

    Variables (toks : list gostring) (sep : ascii) (n : nat).
    Hypothesis Hsep : In sep [","%char; "|"%char; TAB].
    Hypothesis Hcells : rowCells toks.

Let line := repeat SP n ++ Join toks [sep].

Lemma rowLine_TrimSpace : TrimSpace line = Join toks [sep].
    Proof.
      unfold line. rewrite TrimSpace_spaces.
      destruct Hcells. apply Join_TrimSpace; try assumption.
      now apply delimiter_ascii.
    Qed.

Lemma rowLine_isBlank : isBlank line = false.
    Proof.
      unfold isBlank. cbv zeta.
      rewrite rowLine_TrimSpace, (rowLine_nonempty sep Hcells).
      destruct Hcells as [Hne Htr _ Hfirst].
      destruct toks as [|tok toks']; [congruence|].
      inversion Htr as [|? ? [Htok _] _]; subst.
      destruct (Join_head toks' [sep] Htok) as [_ ->]. exact Hfirst.
    Qed.

Lemma rowLine_split : splitDelimited (Join toks [sep]) = toks.
    Proof. destruct Hcells. now apply splitDelimited_Join. Qed.

  End RowLine.

End Rows.

(** * The columns of a row *)

Section Columns.

  Context {R : GoRuntime}.

  Import Strings StringFacts SplitFacts.

Lemma Forall2_nth_error_r {A B} (P : A -> B -> Prop) (a : list A)
    (b : list B) (j : nat) (y : B) :
    Forall2 P a b -> nth_error b j = Some y ->
    exists x, nth_error a j = Some x /\ P x y.
  Proof.
    intros H. revert j. induction H as [|x0 y0 a b Hxy _ IH]; intros j Hj.
    - now destruct j.
    - destruct j as [|j].
      + injection Hj as <-. now exists x0.
      + now apply IH.
  Qed.

Lemma nth_error_setField (e : list (StructField * value float64))
    (j i : nat) (v : value float64) :
    nth_error (setField e j v) i
    = if i =? j then option_map (fun fw => (fst fw, v)) (nth_error e i)
      else nth_error e i.
  Proof.
    revert j i. induction e as [|[f w] e IH]; intros j i.
    - assert (Hnil : setField [] j v = []) by now destruct j.
      rewrite Hnil. destruct i; cbn [nth_error option_map];
        now destruct (_ =? j).
    - destruct j as [|j], i as [|i]; try reflexivity.
      cbn [setField nth_error]. rewrite IH. reflexivity.
  Qed.

Lemma setField_shape (elem r : list (StructField * value float64))
    (j : nat) (fv : StructField * value float64) :
    Forall2 sameShape elem r -> nth_error r j = Some fv ->
    Forall2 sameShape (setField elem j (snd fv)) r.
  Proof.
    intros H. revert j. induction H as [|[f w] y elem r [Hf Ht] H IH];
      intros j Hj.
    - now destruct j.
    - destruct j as [|j]; cbn [setField].
      + injection Hj as <-. constructor; [|exact H]. now split.
      + constructor; [now split|]. now apply IH.
  Qed.

Lemma assigned_cons (r : list (StructField * value float64)) (j : nat)
    (js : list nat) (elem : list (StructField * value float64)) :
    assigned r (j :: js) elem
    = assigned r js (match nth_error r j with
                     | Some fv => setField elem j (snd fv)
                     | None => elem
                     end).
  Proof. reflexivity. Qed.

Lemma nth_error_assigned (r : list (StructField * value float64)) :
    forall js elem i,
      Forall2 sameShape elem r ->
      nth_error (assigned r js elem) i
      = if existsb (Nat.eqb i) js then nth_error r i else nth_error elem i.
  Proof.
    induction js as [|j js IH]; intros elem i Hshape; [reflexivity|].
    rewrite assigned_cons. cbn [existsb].
    destruct (nth_error r j) as [fv|] eqn:Hj.
    - rewrite IH by now apply setField_shape.
      destruct (existsb (Nat.eqb i) js); [now rewrite orb_true_r|].
      rewrite orb_false_r, nth_error_setField.
      destruct (i =? j) eqn:Hij; [|reflexivity].
      apply Nat.eqb_eq in Hij. subst i.
      destruct (Forall2_nth_error_r j Hshape Hj) as [x [Hx [Hf _]]].
      rewrite Hx, Hj. cbn [option_map]. rewrite Hf. now destruct fv.
    - rewrite IH by exact Hshape.
      destruct (existsb (Nat.eqb i) js); [now rewrite orb_true_r|].
      rewrite orb_false_r.
      destruct (i =? j) eqn:Hij; [|reflexivity].
      apply Nat.eqb_eq in Hij. subst i. rewrite Hj.
      apply nth_error_None. apply nth_error_None in Hj.
      now rewrite (Forall2_length Hshape).
  Qed.

Lemma assigned_all (r : list (StructField * value float64))
    (js : list nat) (elem : list (StructField * value float64)) :
    Forall2 sameShape elem r ->
    (forall i, i < length r -> In i js) ->
    assigned r js elem = r.
  Proof.
    intros Hshape Hall. apply nth_error_ext. intros i.
    rewrite nth_error_assigned by exact Hshape.
    destruct (existsb (Nat.eqb i) js) eqn:Hi; [reflexivity|].
    assert (Hlen : length r <= i).
    { destruct (Nat.lt_ge_cases i (length r)) as [Hlt|Hge]; [|exact Hge].
      exfalso. apply not_true_iff_false in Hi. apply Hi.
      apply existsb_exists. exists i.
      split; [now apply Hall|apply Nat.eqb_refl]. }
    transitivity (@None (StructField * value float64)).
    - apply nth_error_None. now rewrite (Forall2_length Hshape).
    - symmetry. now apply nth_error_None.
  Qed.

  Variables (fm : fieldMap) (r : list (StructField * value float64)).

Let T := map (fun fv => (fst fv, typeOf (snd fv))) r.

  Hypothesis Hfm :
    forall j ft, nth_error T j = Some ft ->
                 lookup fm (getFieldName (fst ft)) = Some j.
  Hypothesis Hr : Forall rowField r.

Lemma assignColumns_cells :
    forall js vpre elem,
      Forall (fun j => j < length r) js ->
      Forall2 sameShape elem r ->
      assignColumns fm (columnNames T js) (length vpre)
        (vpre ++ cells r js) elem
      = Ok (assigned r js elem).
  Proof.
    induction js as [|j js IH]; intros vpre elem Hjs Hshape; [reflexivity|].
    inversion Hjs as [|? ? Hj Hjs']; subst.
    destruct (nth_error r j) as [[f v]|] eqn:Hrj;
      [|apply nth_error_None in Hrj; lia].
    assert (HT : nth_error T j = Some (f, typeOf v)).
    { unfold T. now rewrite nth_error_map, Hrj. }
    destruct (Forall2_nth_error_r j Hshape Hrj) as [[f0 e0] [He [Hf Ht]]].
    cbn [fst snd] in Hf, Ht. subst f0.
    rewrite Forall_forall in Hr.
    destruct (Hr _ (nth_error_In _ _ Hrj))
      as [_ [_ [[[_ [Hne [Htrim [_ Hset]]]] _] _]]].
    cbn [fst snd] in *.
    rewrite assigned_cons.
    cbn [columnNames cells map assignColumns].
    fold (columnNames T js). fold (cells r js).
    rewrite HT, Hrj. cbn [fst snd].
    replace (length vpre <? length (vpre ++ writePrimitiveValue v :: cells r js))
      with true
      by (symmetry; apply Nat.ltb_lt; rewrite length_app; simpl; lia).
    rewrite nth_middle, Htrim.
    pose proof (Hfm _ HT) as Hlook. cbn [fst] in Hlook.
    unfold setNamed. rewrite Hlook.
    unfold fieldType. rewrite He, Ht, Hset. cbn [bind].
    replace (S (length vpre)) with (length (vpre ++ [writePrimitiveValue v]))
      by (rewrite length_app; simpl; lia).
    replace (vpre ++ writePrimitiveValue v :: cells r js)
      with ((vpre ++ [writePrimitiveValue v]) ++ cells r js)
      by now rewrite <- app_assoc.
    apply IH; [exact Hjs'|].
    now apply (setField_shape j Hshape Hrj).
  Qed.

End Columns.

(** * Tabular arrays (C2) *)

Section Tabular.

  Context {R : GoRuntime}.

  Import Strings StringFacts SplitFacts.

Lemma map_nth_error_seq {A B} (g : A -> B) (d : B) (l : list A) :
    map (fun j => match nth_error l j with Some x => g x | None => d end)
        (seq 0 (length l))
    = map g l.
  Proof.
    induction l as [|a l IH]; [reflexivity|].
    cbn [length seq map nth_error]. f_equal.
    rewrite <- seq_shift, map_map. exact IH.
  Qed.

Lemma zeroRecord_shape (r : list (StructField * value float64)) :
    Forall rowField r -> Forall2 sameShape (zeroRecord (typeFields r)) r.
  Proof.
    induction 1 as [|[f v] r [_ [_ [[[Hsc _] _] _]]] _ IH]; constructor;
      [|exact IH].
    split; [reflexivity|]. cbn [fst snd] in *.
    destruct v; try discriminate Hsc; reflexivity.
  Qed.

Lemma zeroRecord_names (T : list (StructField * type)) :
    names (zeroRecord T) = map (fun ft => getFieldName (fst ft)) T.
  Proof. unfold names, zeroRecord. now rewrite map_map. Qed.

Lemma typeFields_length (r : list (StructField * value float64)) :
    length (typeFields r) = length r.
  Proof. apply length_map. Qed.

Lemma cells_rowCells (r : list (StructField * value float64))
    (js : list nat) :
    js <> [] -> Forall (fun j => j < length r) js -> Forall rowField r ->
    rowCells (cells r js).
  Proof.
    intros Hne Hjs Hr.
    assert (Hcell : forall j, j < length r ->
              exists fv, nth_error r j = Some fv /\ rowField fv).
    { intros j Hj. destruct (nth_error r j) as [fv|] eqn:E.
      - exists fv. split; [reflexivity|].
        rewrite Forall_forall in Hr. apply Hr. eapply nth_error_In, E.
      - apply nth_error_None in E. lia. }
    constructor.
    - destruct js; [congruence|discriminate].
    - apply Forall_map. eapply Forall_impl; [|exact Hjs].
      intros j Hj. destruct (Hcell j Hj) as [fv [-> [_ [_ [[Hl _] _]]]]].
      destruct Hl as [_ [Hn [Ht _]]]. now split.
    - apply Forall_map. eapply Forall_impl; [|exact Hjs].
      intros j Hj. destruct (Hcell j Hj) as [fv [-> [_ [_ [[_ Hd] _]]]]].
      exact Hd.
    - destruct js as [|j js]; [congruence|]. inversion Hjs; subst.
      destruct (Hcell j) as [fv [Hfv [_ [_ [_ Hh]]]]]; [assumption|].
      cbn [cells map hd]. now rewrite Hfv.
  Qed.

  Variable opts : MarshalOptions.

Lemma writeStructAsRow_cells (r : list (StructField * value float64)) :
    Forall rowField r ->
    writeStructAsRow opts r
    = Join (cells r (seq 0 (length r))) (Delimiter opts).
  Proof.
    intros Hr. unfold cells.
    rewrite (map_nth_error_seq (fun fv => writePrimitiveValue (snd fv)) [] r).
    unfold writeStructAsRow.
    assert (Hfrom : forall l, Forall rowField l ->
              writeStructAsRow_from opts false l
              = flat_map (fun p => Delimiter opts ++ p)
                  (map (fun fv => writePrimitiveValue (snd fv)) l)).
    { induction 1 as [|[f v] l [Hexp [Hdash _]] _ IH]; [reflexivity|].
      cbn [fst snd] in *. cbn [writeStructAsRow_from map flat_map].
      rewrite Hexp. cbn [negb].
      replace (isDash (getFieldName f)) with false
        by (symmetry; now apply gostring_eqb_neq).
      now rewrite IH, <- app_assoc. }
    destruct Hr as [|[f v] l [Hexp [Hdash _]] Hl]; [reflexivity|].
    cbn [fst snd] in *. cbn [writeStructAsRow_from map].
    rewrite Hexp. cbn [negb].
    replace (isDash (getFieldName f)) with false
      by (symmetry; now apply gostring_eqb_neq).
    rewrite Join_flat_map, Hfrom by exact Hl. reflexivity.
  Qed.

Lemma getStructFieldNames_columns (r : list (StructField * value float64)) :
    Forall rowField r ->
    getStructFieldNames r
    = columnNames (typeFields r) (seq 0 (length (typeFields r))).
  Proof.
    intros Hr. unfold columnNames.
    rewrite (map_nth_error_seq (fun ft => getFieldName (fst ft)) []
               (typeFields r)).
    unfold typeFields. rewrite map_map. cbn [fst].
    induction Hr as [|[f v] l [Hexp [Hdash _]] _ IH]; [reflexivity|].
    cbn [fst snd] in *. cbn [getStructFieldNames map].
    rewrite Hexp. cbn [negb].
    replace (isDash (getFieldName f)) with false
      by (symmetry; now apply gostring_eqb_neq).
    now rewrite IH.
  Qed.

Lemma isUniformStructSlice_rows (r : list (StructField * value float64))
    (rest : list (value float64)) :
    Forall rowField r -> isUniformStructSlice (VStruct r :: rest) = true.
  Proof.
    intros Hr. cbn [isUniformStructSlice deref].
    apply forallb_forall. intros [f v] Hin.
    rewrite Forall_forall in Hr.
    destruct (Hr _ Hin) as [_ [_ [[[Hsc _] _] _]]]. cbn [fst snd] in *.
    destruct v; try discriminate Hsc; apply orb_true_r.
  Qed.

  Section Decoding.

    Variables (T : list (StructField * type)) (js : list nat).
    Variables (sep : ascii) (depth : Z) (indent : nat).

    Hypothesis Hsep : In sep [","%char; "|"%char; TAB].
    Hypothesis Hdelim : Delimiter opts = [sep].
    Hypothesis HT : T <> [].
    Hypothesis Hnames : NoDup (map (fun ft => getFieldName (fst ft)) T).
    Hypothesis Hperm : Permutation js (seq 0 (length T)).

Lemma columns_bound : Forall (fun j => j < length T) js.
    Proof.
      apply Forall_forall. intros j Hj.
      apply (Permutation_in _ Hperm), in_seq in Hj. lia.
    Qed.

Lemma columns_cover (i : nat) : i < length T -> In i js.
    Proof.
      intros Hi. apply (Permutation_in _ (Permutation_sym Hperm)).
      apply in_seq. lia.
    Qed.

Lemma columns_nonempty : js <> [].
    Proof.
      intros ->. apply Permutation_nil in Hperm.
      destruct T; [congruence|discriminate].
    Qed.

Let fm := buildFieldMap false 0 (zeroRecord T) [].
Let cols := columnNames T js.

Lemma fm_lookup (r : list (StructField * value float64)) :
      tableRow T r ->
      forall j ft, nth_error (typeFields r) j = Some ft ->
                   lookup fm (getFieldName (fst ft)) = Some j.
    Proof.
      intros [Htype Hr] j ft Hj. rewrite Htype in Hj.
      apply (@lookup_buildFieldMap R false (zeroRecord T) 0 [] j).
      - rewrite <- Htype. clear - Hr.
        induction Hr as [|[f v] l [Hexp [Hdash _]] _ IH]; constructor;
          [now split|exact IH].
      - now rewrite zeroRecord_names.
      - rewrite zeroRecord_names, nth_error_map, Hj. reflexivity.
    Qed.

Lemma row_assign (r : list (StructField * value float64)) :
      tableRow T r ->
      assignColumns fm cols 0 (cells r js) (zeroRecord T) = Ok r.
    Proof.
      intros Hrow. pose proof Hrow as [Htype Hr].
      pose proof (@assignColumns_cells R fm r (fm_lookup Hrow) Hr js []
                    (zeroRecord T)) as H.
      fold (typeFields r) in H.
      rewrite Htype in H. cbn [length app] in H. unfold cols. rewrite H.
      - f_equal. apply assigned_all.
        + rewrite <- Htype. now apply zeroRecord_shape.
        + intros i Hi. apply columns_cover.
          now rewrite <- Htype, typeFields_length.
      - rewrite <- (typeFields_length r), Htype. apply columns_bound.
      - rewrite <- Htype. now apply zeroRecord_shape.
    Qed.

Lemma row_cells (r : list (StructField * value float64)) :
      tableRow T r -> rowCells (cells r js).
    Proof.
      intros [Htype Hr]. apply cells_rowCells; [apply columns_nonempty| |exact Hr].
      rewrite <- (typeFields_length r), Htype. apply columns_bound.
    Qed.

Lemma rowLine_eq (r : list (StructField * value float64)) :
      rowLine opts depth r js
      = repeat SP (Z.to_nat ((depth + 1) * Indent opts))
          ++ Join (cells r js) [sep].
    Proof. unfold rowLine, writeIndent. now rewrite Hdelim. Qed.

    (** One turn of the loop of [decodeTabularArray] on a row. *)
Lemma tabularRows_row (n : nat) (i N : Z)
      (r : list (StructField * value float64)) (pre post : list gostring)
      (slice : list (value float64)) :
      tableRow T r -> (i < N)%Z ->
      tabularRows (S n) i N fm cols indent (zeroRecord T)
        (cursor pre (rowLine opts depth r js :: post)) slice
      = tabularRows n (i + 1) N fm cols indent (zeroRecord T)
          (cursor (pre ++ [rowLine opts depth r js]) post)
          (slice ++ [VStruct r]).
    Proof.
      intros Hrow Hi.
      pose proof (row_cells Hrow) as Hcells.
      rewrite rowLine_eq.
      set (m := Z.to_nat ((depth + 1) * Indent opts)).
      pose proof (rowLine_isBlank m Hsep Hcells) as Hblank.
      cbn [tabularRows].
      replace (i <? N)%Z with true by lia.
      rewrite cursor_hasMore by exact Hblank. cbn [andb]. cbv iota.
      rewrite cursor_skip by exact Hblank.
      rewrite cursor_hasMore by exact Hblank. cbn [negb]. cbv iota.
      rewrite cursor_current. cbv zeta.
      rewrite (rowLine_TrimSpace m Hsep Hcells).
      rewrite (rowLine_nonempty sep Hcells), andb_false_r.
      rewrite (rowLine_split Hsep Hcells).
      rewrite (row_assign Hrow). cbn [bind].
      now rewrite cursor_advance.
    Qed.

Lemma tabularRows_rows :
      forall (recs : list (list (StructField * value float64)))
             (n : nat) (i : Z) (pre post : list gostring)
             (slice : list (value float64)),
        Forall (tableRow T) recs ->
        length recs <= n ->
        tabularRows n i (i + Z.of_nat (length recs)) fm cols indent
          (zeroRecord T)
          (cursor pre (map (fun r => rowLine opts depth r js) recs ++ post))
          slice
        = Ok (slice ++ map VStruct recs,
              cursor (pre ++ map (fun r => rowLine opts depth r js) recs)
                post).
    Proof.
      induction recs as [|r recs IH]; intros n i pre post slice Hall Hn.
      - cbn [length map app]. rewrite !app_nil_r.
        replace (i + Z.of_nat 0)%Z with i by lia.
        destruct n; cbn [tabularRows];
          replace (i <? i)%Z with false by lia; reflexivity.
      - inversion Hall as [|? ? Hrow Hall']; subst.
        destruct n as [|n]; [simpl in Hn; lia|].
        cbn [map app].
        rewrite tabularRows_row by (try exact Hrow; cbn [length]; lia).
        replace (i + Z.of_nat (length (r :: recs)))%Z
          with (i + 1 + Z.of_nat (length recs))%Z by (cbn [length]; lia).
        rewrite IH by (try exact Hall'; simpl in Hn; lia).
        now rewrite <- !app_assoc.
    Qed.

  End Decoding.

Lemma tableRow_length (T : list (StructField * type))
    (r : list (StructField * value float64)) :
    tableRow T r -> length r = length T.
  Proof. intros [<- _]. symmetry. apply length_map. Qed.

Lemma encodeTabularSlice_rows (T : list (StructField * type))
    (recs : list (list (StructField * value float64))) (depth : Z)
    (key : gostring) :
    recs <> [] -> Forall (tableRow T) recs ->
    encodeTabularSlice opts (map VStruct recs) depth key
    = Ok (writeIndent opts depth ++ key ++ lenTag (length recs) ++ str "]{"
            ++ Join (columnNames T (seq 0 (length T))) (str ",")
            ++ str "}:" ++ [LF]
            ++ concat (map (fun r => rowLine opts depth r (seq 0 (length T))
                                       ++ [LF]) recs)).
  Proof.
    intros Hne Hall. unfold encodeTabularSlice.
    match goal with
    | |- context [bind (?loop (map VStruct recs)) _] =>
        assert (Hloop : forall l, Forall (tableRow T) l ->
                  loop (map VStruct l)
                  = Ok (concat (map (fun r =>
                          rowLine opts depth r (seq 0 (length T)) ++ [LF])
                          l)))
    end.
    { induction 1 as [|r l Hrow _ IH]; [reflexivity|].
      cbn [map deref concat]. rewrite IH. cbn [bind].
      rewrite (writeStructAsRow_cells (proj2 Hrow)).
      rewrite (tableRow_length Hrow). unfold rowLine.
      now rewrite <- !app_assoc. }
    rewrite Hloop by exact Hall. clear Hloop.
    destruct recs as [|r0 recs]; [congruence|].
    inversion Hall as [|? ? Hrow0 _]; subst.
    cbn [map deref bind]. cbv zeta.
    rewrite (getStructFieldNames_columns (proj2 Hrow0)).
    rewrite (proj1 Hrow0). cbn [length]. rewrite length_map.
    now rewrite <- !app_assoc.
  Qed.

Lemma decodeTabularArray_rows (T : list (StructField * type))
    (recs : list (list (StructField * value float64))) (js : list nat)
    (data : option (list (value float64))) (depth : Z) (indent : nat)
    (pre post : list gostring) :
    knownDelimiter opts -> T <> [] ->
    Forall (tableRow T) recs ->
    NoDup (map (fun ft => getFieldName (fst ft)) T) ->
    Permutation js (seq 0 (length T)) ->
    decodeTabularArray (VSlice (TStruct T) data)
      (Z.of_nat (length recs)) (columnNames T js) indent
      (cursor pre (map (fun r => rowLine opts depth r js) recs ++ post))
    = Ok (VSlice (TStruct T) (Some (map VStruct recs)),
          cursor (pre ++ map (fun r => rowLine opts depth r js) recs) post).
  Proof.
    intros Hdelim HT Hall Hnd Hperm.
    destruct (knownDelimiter_byte Hdelim) as [sep [Hsep Hin]].
    unfold decodeTabularArray. cbn [elemOf zeroFields zero].
    fold (zeroRecord T).
    replace (Z.of_nat (length recs)) with (0 + Z.of_nat (length recs))%Z
      by lia.
    rewrite (@tabularRows_rows T js sep depth indent Hin Hsep HT Hnd Hperm).
    + reflexivity.
    + exact Hall.
    + rewrite cursor_lines, length_app, length_map. lia.
  Qed.

Lemma encodeSlice_rows (T : list (StructField * type))
    (recs : list (list (StructField * value float64))) (depth : Z)
    (key : gostring) :
    UseTabular opts = true -> recs <> [] -> Forall (tableRow T) recs ->
    encodeValue opts (VSlice (TStruct T) (Some (map VStruct recs))) depth key
    = encodeTabularSlice opts (map VStruct recs) depth key.
  Proof.
    intros Htab Hne Hall. cbn [encodeValue]. unfold encodeSlice.
    destruct recs as [|r0 recs']; [congruence|].
    inversion Hall as [|? ? Hrow0 _]; subst.
    cbn [map derefType]. rewrite Htab.
    now rewrite (isUniformStructSlice_rows (map VStruct recs')
                   (proj2 Hrow0)).
  Qed.


End Tabular.



(** * The entry points *)

Section EntryPoints.

  Context {R : GoRuntime}.

  Import Strings StringFacts SplitFacts.


Lemma Split_app_any (a b : gostring) (sep : ascii) :
    Split (a ++ sep :: b) sep = Split a sep ++ Split b sep.
  Proof.
    induction a as [|c a IH]; cbn [app].
    - simpl. now rewrite Ascii.eqb_refl.
    - destruct (Ascii.eqb c sep) eqn:Hc.
      + simpl. rewrite Hc. now rewrite IH.
      + rewrite !Split_cons by exact Hc. rewrite IH.
        pose proof (Split_nonempty a sep).
        now destruct (Split a sep).
  Qed.

  (** X2.  [Valid] judges a text line by line: two texts joined by a line
      feed are valid exactly when both are. *)
Theorem Valid_line_feed (a b : gostring) :
    Valid (a ++ LF :: b) = Valid a && Valid b.
  Proof. unfold Valid. now rewrite Split_app_any, forallb_app. Qed.

  (** X3.  [Valid] accepts what the encoder writes for a record of plain
      fields. *)
Theorem Valid_recordText (opts : MarshalOptions)
    (fields : list (StructField * value float64)) :
    Forall plainField fields ->
    exists text,
      MarshalWithOptions (Some (VStruct fields)) opts = Ok text
      /\ Valid text = true.
  Proof.
    intros Hall. exists (recordText fields).
    split; [now apply encodeStruct_plain|].
    unfold Valid. rewrite recordText_lines by exact Hall.
    rewrite forallb_app. apply andb_true_iff. split; [|reflexivity].
    apply forallb_forall. intros line Hline.
    apply in_map_iff in Hline as [fv [<- Hfv]].
    rewrite Forall_forall in Hall.
    destruct (Hall _ Hfv) as [_ [Hkey [_ [Hne [Htrim _]]]]].
    rewrite fieldLine_eq. cbv zeta.
    rewrite (keyLine_TrimSpace Hkey Hne Htrim).
    rewrite (keyLine_Contains _ _).
    now destruct (isEmpty _ || _).
  Qed.

End EntryPoints.

Lemma Valid_recordText_witness :
  exists text,
    MarshalWithOptions (R := integerRuntime)
      (Some (VStruct [(tagged "Name" "name", VString (str "Ada"));
                      (tagged "Age" "age", VInt KInt 36)]))
      DefaultMarshalOptions
    = Ok text
    /\ Valid text = true.
Proof.
  apply (@Valid_recordText integerRuntime).
  repeat constructor; closed_token.
Defined.

(** * Field names *)

Section FieldNames.

  Import Strings StringFacts SplitFacts.

Lemma Split_head (name rest : gostring) :
    ~ In ","%char name ->
    hd [] (Split (name ++ ","%char :: rest) ","%char) = name.
  Proof. intros H. now rewrite Split_app. Qed.

  (** X4.  The name of a field is the text of its [toon] tag before the
      first comma; without a [toon] tag, that of its [json] tag; without
      both, its Go name with the first letter lowered.  What follows the
      comma of a tag is dropped. *)
Theorem getFieldName_resolution (f : StructField) (name rest : gostring) :
    ~ In ","%char name ->
    (toonTag f = name ++ ","%char :: rest -> getFieldName f = name)
    /\ (name <> [] -> toonTag f = name -> getFieldName f = name)
    /\ (toonTag f = [] -> jsonTag f = name ++ ","%char :: rest ->
        getFieldName f = name)
    /\ (toonTag f = [] -> name <> [] -> jsonTag f = name ->
        getFieldName f = name)
    /\ (toonTag f = [] -> jsonTag f = [] ->
        forall c, (65 <= code c <= 90)%nat -> Name f = c :: name ->
                  getFieldName f = byte (code c + 32) :: name).
  Proof.
    intros Hname. unfold getFieldName. repeat split.
    - intros ->. replace (isEmpty (name ++ ","%char :: rest)) with false
        by now destruct name.
      now apply Split_head.
    - intros Hne ->. replace (isEmpty name) with false by now destruct name.
      cbn [negb]. now rewrite Split_one.
    - intros -> ->. cbn [isEmpty negb].
      replace (isEmpty (name ++ ","%char :: rest)) with false
        by now destruct name.
      now apply Split_head.
    - intros -> Hne ->. cbn [isEmpty negb].
      replace (isEmpty name) with false by now destruct name.
      cbn [negb]. now rewrite Split_one.
    - intros -> -> c Hc ->. cbn [isEmpty negb]. unfold ToLower1.
      replace ((65 <=? code c) && (code c <=? 90)) with true by lia.
      reflexivity.
  Qed.

End FieldNames.

Lemma getFieldName_resolution_witness :
  getFieldName {| Name := str "UserName"; toonTag := str "user,omitempty";
                  jsonTag := str "u"; IsExported := true |}
  = str "user".
Proof.
  destruct (@getFieldName_resolution
              {| Name := str "UserName"; toonTag := str "user,omitempty";
                 jsonTag := str "u"; IsExported := true |}
              (str "user") (str "omitempty")) as [Htoon _].
  - intros H. vm_compute in H. intuition discriminate.
  - apply Htoon. reflexivity.
Defined.

(** * Indentation and the cursor *)

Section Indentation.

  Context {R : GoRuntime}.

  Import Strings StringFacts SplitFacts.

Lemma getIndent_spaces (n : nat) (line : gostring) :
    getIndent (repeat SP n ++ line) = n + getIndent line.
  Proof.
    induction n as [|n IH]; [reflexivity|].
    cbn [repeat app getIndent]. rewrite Ascii.eqb_refl. now rewrite IH.
  Qed.

  (** X5.  The decoder measures the indentation that the encoder writes:
      in front of a line that does not start with a space, [getIndent]
      counts the [depth * Indent] spaces of [writeIndent]. *)
Theorem getIndent_writeIndent (opts : MarshalOptions) (depth : Z)
    (line : gostring) :
    getIndent line = 0 ->
    getIndent (writeIndent opts depth ++ line)
    = Z.to_nat (depth * Indent opts).
  Proof.
    intros H. unfold writeIndent. rewrite getIndent_spaces, H. lia.
  Qed.

Lemma hd_skipn {A} (l : list A) (n : nat) (d : A) :
    hd d (skipn n l) = nth n l d.
  Proof.
    revert n. induction l as [|x l IH]; intros [|n]; try reflexivity.
    apply IH.
  Qed.

Lemma countBlank_le (l : list gostring) : countBlank l <= length l.
  Proof.
    induction l as [|x l IH]; simpl; [lia|].
    destruct (isBlank x); simpl; lia.
  Qed.

Lemma countBlank_blank (l : list gostring) :
    forallb isBlank (firstn (countBlank l) l) = true.
  Proof.
    induction l as [|x l IH]; [reflexivity|]. cbn [countBlank].
    destruct (isBlank x) eqn:Hx; [|reflexivity].
    cbn [firstn forallb]. now rewrite Hx.
  Qed.

  (** X6.  When a line with content is left, [skipEmptyLines] stops on the
      first such line: the cursor does not move back and stays inside the
      text, the lines that it passes are blank or comments, the lines are
      what they were, and a second call moves nothing. *)
Theorem skipEmptyLines_content (d : decoder) :
    hasMore d = true ->
    let d' := skipEmptyLines d in
    isBlank (currentLine d') = false
    /\ pos d <= pos d' < length (lines d)
    /\ forallb isBlank (firstn (pos d' - pos d) (skipn (pos d) (lines d)))
       = true
    /\ lines d' = lines d
    /\ skipEmptyLines d' = d'.
  Proof.
    intros Hmore d'. unfold hasMore in Hmore.
    destruct (skipn_countBlank _ Hmore) as [line [rest [Hskip Hline]]].
    assert (Hpos : pos d' = pos d + countBlank (skipn (pos d) (lines d)))
      by reflexivity.
    assert (Hcur : currentLine d' = line).
    { unfold currentLine. change (lines d') with (lines d).
      rewrite Hpos, <- hd_skipn, Nat.add_comm, <- skipn_skipn, Hskip.
      reflexivity. }
    repeat split.
    - now rewrite Hcur.
    - lia.
    - rewrite Hpos.
      assert (Hlen : length (skipn (countBlank (skipn (pos d) (lines d)))
                               (skipn (pos d) (lines d))) = S (length rest))
        by now rewrite Hskip.
      rewrite !length_skipn in Hlen. lia.
    - rewrite Hpos.
      replace (pos d + countBlank (skipn (pos d) (lines d)) - pos d)
        with (countBlank (skipn (pos d) (lines d))) by lia.
      apply countBlank_blank.
    - apply skipEmptyLines_idem.
  Qed.

End Indentation.

Lemma getIndent_writeIndent_witness :
  getIndent (writeIndent DefaultMarshalOptions 2 ++ str "name: Ada") = 4.
Proof.
  apply (getIndent_writeIndent DefaultMarshalOptions 2 (str "name: Ada")).
  reflexivity.
Defined.

Lemma skipEmptyLines_content_witness :
  let d := newDecoder ([LF] ++ str "# note" ++ [LF] ++ str "a: 1" ++ [LF]) in
  isBlank (currentLine (skipEmptyLines d)) = false.
Proof.
  intros d. apply (skipEmptyLines_content d). reflexivity.
Defined.

(** * Lists of records and of maps *)

Section ListSlices.

  Context {R : GoRuntime}.

  Variable opts : MarshalOptions.

  (** X7.  [encodeListSlice] returns exactly when no element is nil behind
      its pointers and interfaces.  On a nil element the loop that unwraps
      it continues itself, and the call does not return. *)
Theorem encodeListSlice_nil_element (elems : list (value float64))
    (depth : Z) (key : gostring) :
    ((exists e, In e elems /\ deref e = None) <->
     encodeListSlice opts elems depth key = Abort Hang)
    /\ (Forall (fun e => deref e <> None) elems <->
        exists text, encodeListSlice opts elems depth key = Ok text).
  Proof.
    unfold encodeListSlice.
    match goal with
    | |- context [bind (?loop elems) _] =>
        assert (Hloop : forall l,
                   (Forall (fun e => deref e <> None) l /\
                    exists t, loop l = Ok t)
                   \/ ((exists e, In e l /\ deref e = None) /\
                       loop l = Abort Hang));
        [|destruct (Hloop elems) as [[Hall [t Ht]]|[Hex Ht]];
          rewrite Ht; clear Hloop]
    end.
    - induction l as [|x l IH]; [left; split; [constructor|now exists []]|].
      destruct (deref x) as [elem|] eqn:Hx.
      + destruct IH as [[Hall [t Ht]]|[[e [He Hnil]] Ht]].
        * left. split; [constructor; [congruence|exact Hall]|].
          rewrite Ht. cbn [bind]. eauto.
        * right. split; [exists e; split; [now right|exact Hnil]|].
          now rewrite Ht.
      + right. split; [|reflexivity]. exists x. split; [now left|exact Hx].
    - cbn [bind]. split; split.
      + intros [e [He Hnil]]. rewrite Forall_forall in Hall.
        now destruct (Hall _ He).
      + discriminate.
      + eauto.
      + intros _. exact Hall.
    - cbn [bind]. split; split.
      + reflexivity.
      + intros _. exact Hex.
      + intros Hall. destruct Hex as [e [He Hnil]].
        rewrite Forall_forall in Hall. now destruct (Hall _ He).
      + intros [text Htext]. discriminate.
  Qed.

  (** X8.  Whether a slice of records is written as a table is read off
      its first element alone; the other elements are not looked at.  A
      later element that is nil then makes the table panic. *)
Theorem isUniformStructSlice_first (first : value float64)
    (rest : list (value float64)) (depth : Z) (key : gostring) :
    isUniformStructSlice (first :: rest) = isUniformStructSlice [first]
    /\ (isUniformStructSlice [first] = true ->
        (exists e, In e rest /\ deref e = None) ->
        encodeTabularSlice opts (first :: rest) depth key = Abort Panic).
  Proof.
    split; [reflexivity|]. intros Huni Hnil.
    unfold encodeTabularSlice.
    cbn [isUniformStructSlice] in Huni.
    destruct (deref first) as [[]|] eqn:Hfirst; try discriminate Huni.
    cbv zeta.
    match goal with
    | |- bind (bind (?loop _) _) _ = _ =>
        assert (Hloop : forall l, (exists e, In e l /\ deref e = None) ->
                                  loop l = Abort Panic)
    end.
    { induction l as [|x l IH]; intros [e [He Hn]]; [contradiction|].
      destruct He as [->|He].
      - now rewrite Hn.
      - destruct (deref x) as [[]|]; try reflexivity.
        rewrite IH by eauto. reflexivity. }
    rewrite Hloop; [reflexivity|exact Hnil].
  Qed.

End ListSlices.

(** * Scalars *)

Section Scalars.

  Context {R : GoRuntime}.

  Import Strings StringFacts SplitFacts NumberFacts.

  Local Open Scope Z_scope.





  (** X11.  Every integer in the range of its kind, signed or not, and
      every boolean is written as a token that a line, a cell of a row and
      an element of an inline array carry unharmed: the token is decoded
      into the same value. *)
Theorem numbers_are_cell_safe :
    (forall k z, intInRange k z -> cellSafe (VInt k z))
    /\ (forall k z, uintInRange k z -> cellSafe (VUint k z))
    /\ (forall b, cellSafe (VBool b)).
  Proof.
    split; [|split].
    - intros k z. apply intToken_safe.
    - intros k z. apply uintToken_safe.
    - apply boolToken_safe.
  Qed.

  Local Close Scope Z_scope.


End Scalars.


(** * Array headers *)

Section Headers.

  Import Strings StringFacts SplitFacts NumberFacts.

Lemma span_app (p : ascii -> bool) (a : gostring) (x : ascii)
    (b : gostring) :
    Forall (fun c => p c = true) a -> p x = false ->
    span p (a ++ x :: b) = (a, x :: b).
  Proof.
    intros Ha Hx. induction Ha as [|c a Hc _ IH]; cbn [app span].
    - now rewrite Hx.
    - now rewrite Hc, IH.
  Qed.

Lemma digitsOnto_digits (f : nat) :
    forall n acc, Forall (fun c => Strconv.isDigit c = true) acc ->
    Forall (fun c => Strconv.isDigit c = true) (Strconv.digitsOnto f n acc).
  Proof.
    induction f as [|f IH]; intros n acc Hacc; [exact Hacc|].
    assert (Hd : Forall (fun c => Strconv.isDigit c = true)
                   (Strconv.digitChar (n mod 10) :: acc)).
    { constructor; [|exact Hacc].
      apply isDigit_digitChar, Z.mod_pos_bound. lia. }
    rewrite digitsOnto_S. destruct (n / 10 =? 0)%Z; [exact Hd|now apply IH].
  Qed.

Lemma lenTag_digits (n : nat) :
    exists digits,
      lenTag n = "["%char :: digits
      /\ digits <> []
      /\ Forall (fun c => Strconv.isDigit c = true) digits
      /\ Strconv.parseDigits digits 0 = Some (Z.of_nat n).
  Proof.
    exists (Strconv.FormatUint (Z.of_nat n)). repeat split.
    - unfold lenTag. rewrite FormatUint_nonneg by lia. reflexivity.
    - destruct (FormatUint_head (Z.of_nat n)) as [c [rest [-> _]]].
      discriminate.
    - now apply digitsOnto_digits.
    - apply parseDigits_FormatUint. lia.
  Qed.

Lemma matchBracket_digits (digits after : gostring) :
    digits <> [] -> Forall (fun c => Strconv.isDigit c = true) digits ->
    matchBracket ("["%char :: digits ++ "]"%char :: after)
    = Some (digits, matchColumns after).
  Proof.
    intros Hne Hd. cbn [matchBracket]. rewrite Ascii.eqb_refl.
    rewrite span_app by (try exact Hd; reflexivity).
    destruct digits; [congruence|].
    change (isHint "]"%char) with false. cbv iota.
    now rewrite Ascii.eqb_refl.
  Qed.

Lemma findDeclaration_key (key rest : gostring) (m : gostring * gostring) :
    key <> [] -> ~ In "["%char key -> ~ In LF key ->
    matchBracket rest = Some m ->
    findDeclaration false (key ++ rest) = Some m.
  Proof.
    intros Hne Hbr Hlf Hm.
    assert (Hgo : forall k, ~ In "["%char k -> ~ In LF k ->
                            findDeclaration true (k ++ rest) = Some m).
    { induction k as [|c k IH]; intros Hb Hl.
      - cbn [app]. destruct rest as [|r rest']; [discriminate Hm|].
        cbn [findDeclaration]. now rewrite Hm.
      - apply eqb_false_not_In in Hb as [Hcb Hb].
        apply eqb_false_not_In in Hl as [Hcl Hl].
        cbn [app findDeclaration].
        rewrite matchBracket_head by exact Hcb. rewrite Hcl.
        now apply IH. }
    destruct key as [|c key]; [congruence|].
    apply eqb_false_not_In in Hbr as [Hcb Hbr].
    apply eqb_false_not_In in Hlf as [Hcl Hlf].
    cbn [app findDeclaration]. rewrite Hcl. now apply Hgo.
  Qed.

Lemma beforeBracket_key (key rest : gostring) :
    key <> [] -> ~ In "["%char key -> ~ In LF key ->
    beforeBracket false (key ++ "["%char :: rest) = Some key.
  Proof.
    intros Hne Hbr Hlf.
    assert (Hgo : forall k, ~ In "["%char k -> ~ In LF k ->
                            beforeBracket true (k ++ "["%char :: rest)
                            = Some k).
    { induction k as [|c k IH]; intros Hb Hl.
      - cbn [app beforeBracket andb]. now rewrite Ascii.eqb_refl.
      - apply eqb_false_not_In in Hb as [Hcb Hb].
        apply eqb_false_not_In in Hl as [Hcl Hl].
        cbn [app beforeBracket andb]. rewrite Hcb, Hcl.
        now rewrite IH. }
    destruct key as [|c key]; [congruence|].
    apply eqb_false_not_In in Hbr as [Hcb Hbr].
    apply eqb_false_not_In in Hlf as [Hcl Hlf].
    cbn [app beforeBracket andb]. rewrite Hcl. now rewrite Hgo.
  Qed.

Lemma matchColumns_braces (cols after : gostring) :
    cols <> [] -> ~ In "}"%char cols ->
    matchColumns ("{"%char :: cols ++ "}"%char :: after) = cols.
  Proof.
    intros Hne Hc. cbn [matchColumns]. rewrite Ascii.eqb_refl.
    rewrite span_app.
    - now destruct cols.
    - apply Forall_forall. intros c Hin. apply negb_true_iff.
      apply Ascii.eqb_neq. intros ->. now apply Hc.
    - now rewrite Ascii.eqb_refl.
  Qed.

Lemma Join_columns (cols : list gostring) :
    cols <> [] -> Forall columnName cols ->
    Join cols (str ",") <> []
    /\ ~ In "}"%char (Join cols (str ","))
    /\ map TrimSpace (Split (Join cols (str ",")) ","%char) = cols.
  Proof.
    intros Hne Hall. repeat split.
    - destruct cols as [|c cols]; [congruence|].
      inversion Hall as [|? ? [Hc _] _]; subst.
      rewrite Join_flat_map. now destruct c.
    - intros Hin. change (str ",") with [","%char] in Hin.
      apply In_Join in Hin as [[p [Hp Hin]]|[Heq _]]; [|discriminate Heq].
      rewrite Forall_forall in Hall.
      now destruct (Hall _ Hp) as [_ [_ [_ Hb]]].
    - change (str ",") with [","%char]. rewrite Split_Join.
      + rewrite <- (map_id cols) at 2. apply map_ext_in.
        intros c Hc. rewrite Forall_forall in Hall.
        now destruct (Hall _ Hc) as [_ [Ht _]].
      + exact Hne.
      + eapply Forall_impl; [|exact Hall]. now intros c [_ [_ [Hc _]]].
  Qed.

  Section Header.

    Variables (key : gostring) (n : nat).
    Hypothesis Hne : key <> [].
    Hypothesis Hbr : ~ In "["%char key.
    Hypothesis Hlf : ~ In LF key.
    Hypothesis Hn : (Z.of_nat n < 2 ^ 63)%Z.

Lemma parse_plain_header :
      parseArrayDeclaration (key ++ lenTag n ++ str "]") = (Z.of_nat n, []).
    Proof.
      destruct (lenTag_digits n) as [digits [Htag [Hd [Hdig Hparse]]]].
      assert (Hatoi : Strconv.AtoiDigits digits = Z.of_nat n).
      { unfold Strconv.AtoiDigits. rewrite Hparse. lia. }
      rewrite Htag.
      unfold parseArrayDeclaration. cbn [app str list_ascii_of_string].
      rewrite (@findDeclaration_key key _ (digits, [])); try assumption.
      + now rewrite Hatoi.
      + now rewrite matchBracket_digits.
    Qed.

Lemma parse_table_header (cols : list gostring) :
      cols <> [] -> Forall columnName cols ->
      parseArrayDeclaration
        (key ++ lenTag n ++ str "]{" ++ Join cols (str ",") ++ str "}")
      = (Z.of_nat n, cols).
    Proof.
      intros Hcols Hall.
      destruct (lenTag_digits n) as [digits [Htag [Hd [Hdig Hparse]]]].
      assert (Hatoi : Strconv.AtoiDigits digits = Z.of_nat n).
      { unfold Strconv.AtoiDigits. rewrite Hparse. lia. }
      rewrite Htag.
      destruct (Join_columns Hcols Hall) as [Hj [Hjb Hsplit]].
      unfold parseArrayDeclaration.
      cbn [app str list_ascii_of_string].
      rewrite (@findDeclaration_key key _ (digits, Join cols (str ",")));
        try assumption.
      + rewrite Hatoi.
        replace (isEmpty (Join cols (str ","))) with false
          by now destruct (Join cols (str ",")).
        now rewrite Hsplit.
      + rewrite matchBracket_digits by assumption.
        now rewrite matchColumns_braces.
    Qed.

Lemma extract_header_key (rest : gostring) :
      extractKeyFromArray (key ++ lenTag n ++ rest) = key.
    Proof.
      destruct (lenTag_digits n) as [digits [Htag _]]. rewrite Htag.
      unfold extractKeyFromArray. cbn [app].
      now rewrite beforeBracket_key.
    Qed.

  End Header.

  (** X13.  The decoder reads the headers that the encoder writes.  For a
      key without bracket and line feed and a length below [2^63], the
      header [key[N]] declares an array of length [N] without columns, the
      header [key[N]{c1,...,ck}] one with the columns [c1 ... ck], and
      [extractKeyFromArray] gives the key back. *)
Theorem header_parse (key : gostring) (n : nat) (cols : list gostring)
    (rest : gostring) :
    key <> [] -> ~ In "["%char key -> ~ In LF key ->
    (Z.of_nat n < 2 ^ 63)%Z ->
    cols <> [] -> Forall columnName cols ->
    parseArrayDeclaration (key ++ lenTag n ++ str "]") = (Z.of_nat n, [])
    /\ parseArrayDeclaration
         (key ++ lenTag n ++ str "]{" ++ Join cols (str ",") ++ str "}")
       = (Z.of_nat n, cols)
    /\ extractKeyFromArray (key ++ lenTag n ++ rest) = key.
  Proof.
    intros Hne Hbr Hlf Hn Hcols Hall. split; [|split].
    - now apply parse_plain_header.
    - now apply parse_table_header.
    - now apply extract_header_key.
  Qed.

End Headers.

Lemma header_parse_witness :
  parseArrayDeclaration (str "users[12]") = (12%Z, [])
  /\ parseArrayDeclaration (str "users[12]{id,name}")
     = (12%Z, [str "id"; str "name"])
  /\ extractKeyFromArray (str "users[12]{id,name}") = str "users".
Proof.
  apply (@header_parse (str "users") 12 [str "id"; str "name"]
           (str "]{id,name}")).
  - discriminate.
  - intros H. vm_compute in H. intuition discriminate.
  - intros H. vm_compute in H. intuition discriminate.
  - reflexivity.
  - discriminate.
  - repeat constructor; closed_token.
Defined.

(** * Maps *)

Section Maps.

  Context {R : GoRuntime}.

  Import Strings StringFacts SplitFacts.

Lemma entryLine_eq (k : gostring) (v : value float64) :
    entryLine (VString k, v)
    = k ++ ":"%char :: SP :: writePrimitiveValue v.
  Proof. reflexivity. Qed.

Lemma setMapIndex_fresh (entries : list (value float64 * value float64))
    (key elem : value float64) :
    Forall (fun kv => keyEqb (fst kv) key = false) entries ->
    setMapIndex entries key elem = entries ++ [(key, elem)].
  Proof.
    induction 1 as [|[k e] entries Hk _ IH]; [reflexivity|].
    cbn [fst] in Hk. cbn [setMapIndex app]. now rewrite Hk, IH.
  Qed.

Lemma keyEqb_strings (T : type)
    (entries : list (value float64 * value float64)) (k : gostring) :
    Forall (plainEntry T) entries ->
    ~ In (VString k) (map fst entries) ->
    Forall (fun kv => keyEqb (fst kv) (VString k) = false) entries.
  Proof.
    induction 1 as [|[k' e] entries [[x [Hx _]] _] _ IH]; intros Hnot;
      constructor.
    - cbn [fst] in *. subst k'. cbn [keyEqb].
      apply gostring_eqb_neq. intros ->. apply Hnot. now left.
    - apply IH. intros Hin. apply Hnot. now right.
  Qed.

  Section Loop.

    Variable decodeValue' :
      value float64 -> nat -> decoder -> result (value float64 * decoder).

    Variable T : type.

    (** One turn of the loop of [decodeMap] on the line of a plain
        entry. *)
Lemma mapLines_plain_entry (n : nat)
      (entries : list (value float64 * value float64)) (k : gostring)
      (v : value float64) (pre post : list gostring) :
      plainEntry T (VString k, v) ->
      mapLines decodeValue' (S n) TString T 0 entries
        (cursor pre (entryLine (VString k, v) :: post))
      = mapLines decodeValue' n TString T 0
          (setMapIndex entries (VString k) v)
          (cursor (pre ++ [entryLine (VString k, v)]) post).
    Proof.
      intros [[k' [Hk' [Hkey Hunq]]] [[Hsc [Hne [Htrim [Hlf Hset]]]] Htype]].
      cbn [fst snd] in *. injection Hk' as <-.
      pose proof (keyLine_isBlank Hkey Hne Htrim) as Hblank.
      cbn [mapLines]. rewrite entryLine_eq.
      rewrite cursor_hasMore by exact Hblank. cbn [negb]. cbv iota.
      rewrite cursor_skip by exact Hblank.
      rewrite cursor_hasMore by exact Hblank. cbn [negb]. cbv iota.
      rewrite cursor_current. cbv zeta.
      change (0 <? 0) with false. cbn [andb]. cbv iota.
      rewrite (keyLine_TrimSpace Hkey Hne Htrim).
      rewrite (keyLine_Contains _ _). cbn [negb]. cbv iota.
      rewrite (keyLine_SplitN2 _ Hkey).
      rewrite (keyLine_key Hkey), (keyLine_value Htrim).
      cbn [setPrimitiveValue]. rewrite (keyLine_key Hkey), Hunq.
      cbn [bind].
      replace (isEmpty (writePrimitiveValue v)) with false
        by now destruct (writePrimitiveValue v).
      rewrite <- Htype, Hset. cbn [bind fst snd].
      now rewrite cursor_advance.
    Qed.

Lemma mapLines_plain_entries :
      forall (todo done : list (value float64 * value float64))
             (pre : list gostring) (n : nat),
        Forall (plainEntry T) (done ++ todo) ->
        NoDup (map fst (done ++ todo)) ->
        length todo <= n ->
        mapLines decodeValue' n TString T 0 done
          (cursor pre (map entryLine todo ++ [[]]))
        = Ok (done ++ todo, cursor (pre ++ map entryLine todo) [[]]).
    Proof.
      induction todo as [|[k v] todo IH]; intros done pre n Hall Hnd Hn.
      - cbn [map app]. rewrite !app_nil_r.
        destruct n; cbn [mapLines];
          now rewrite cursor_end by reflexivity.
      - destruct n as [|n]; [simpl in Hn; lia|].
        pose proof Hall as Hall0.
        apply Forall_app in Hall0 as [Hdone Htodo].
        inversion Htodo as [|? ? Hentry _]; subst.
        pose proof Hentry as [[k' [Hk' _]] _]. cbn [fst] in Hk'. subst k.
        cbn [map app]. rewrite mapLines_plain_entry by exact Hentry.
        rewrite setMapIndex_fresh.
        + rewrite IH.
          * now rewrite <- !app_assoc.
          * now rewrite <- app_assoc.
          * now rewrite <- app_assoc.
          * simpl in Hn. lia.
        + apply (keyEqb_strings k' Hdone).
          rewrite map_app in Hnd. cbn [map fst] in Hnd.
          apply NoDup_remove_2 in Hnd. intros Hin. apply Hnd.
          apply in_or_app. now left.
    Qed.

  End Loop.

  Variable opts : MarshalOptions.

Lemma encodeMap_plain (T : type)
    (entries : list (value float64 * value float64)) :
    Forall (plainEntry T) entries ->
    encodeValue opts (VMap TString T (Some entries)) 0 []
    = Ok (mapText entries).
  Proof.
    intros Hall. cbn [encodeValue]. unfold encodeMap.
    cbn [blockHeader blockDepth isEmpty app].
    match goal with
    | |- bind (?loop entries) _ = _ =>
        assert (Hloop : loop entries = Ok (mapText entries))
    end.
    { induction Hall as [|[k v] entries [[k' [Hk' [Hkey _]]] [Hsafe _]] _ IH];
        [reflexivity|].
      cbn [fst snd] in *. subst k. rewrite IH.
      rewrite encodeValue_scalar by apply Hsafe.
      unfold encodePrimitive. rewrite writeIndent_zero. cbn [Sprintv].
      replace (isEmpty k') with false
        by (destruct Hkey as [Hne _]; now destruct k').
      cbn [bind app]. unfold mapText. cbn [map concat].
      unfold entryLine. cbn [fst snd Sprintv]. now rewrite <- !app_assoc. }
    now rewrite Hloop.
  Qed.

Lemma entryLine_no_LF (T : type) (kv : value float64 * value float64) :
    plainEntry T kv -> ~ In LF (entryLine kv).
  Proof.
    destruct kv as [k v].
    intros [[k' [Hk' [[_ [_ [_ [_ [Hk _]]]]] _]]] [[_ [_ [_ [Hv _]]]] _]].
    cbn [fst snd] in *. subst k. rewrite entryLine_eq. intros H.
    apply in_app_or in H as [H|[H|[H|H]]]; try discriminate H; tauto.
  Qed.

Lemma mapText_lines (T : type)
    (entries : list (value float64 * value float64)) :
    Forall (plainEntry T) entries ->
    Split (mapText entries) LF = map entryLine entries ++ [[]].
  Proof.
    intros Hall. unfold mapText.
    rewrite <- (map_map entryLine (fun l => l ++ [LF])).
    apply Split_lines. apply Forall_map.
    eapply Forall_impl; [|exact Hall]. apply entryLine_no_LF.
  Qed.

  (** X14.  A map from strings to scalars round-trips.  When its keys are
      strings that a line carries as keys and its values are scalars of
      the element type that a line carries, the map is written one entry a
      line, in the order in which it is enumerated, and [Unmarshal] of
      that text into an empty or nil map of the same type sets the same
      entries, line after line. *)
Theorem map_round_trip (T : type)
    (entries : list (value float64 * value float64))
    (old : option (list (value float64 * value float64))) (fuel : nat) :
    entries <> [] ->
    Forall (plainEntry T) entries ->
    NoDup (map fst entries) ->
    mapEntries old = [] ->
    MarshalWithOptions (Some (VMap TString T (Some entries))) opts
    = Ok (mapText entries)
    /\ Unmarshal (S (S fuel)) (mapText entries)
         (Some (VPtr (TMap TString T) (Some (VMap TString T old))))
       = Ok (VPtr (TMap TString T)
               (Some (VMap TString T (Some entries)))).
  Proof.
    intros Hne Hall Hnd Hold. split; [now apply encodeMap_plain|].
    unfold Unmarshal, newDecoder, decode.
    rewrite (mapText_lines Hall).
    change {| lines := map entryLine entries ++ [[]]; pos := 0 |}
      with (cursor [] (map entryLine entries ++ [[]])).
    cbn [decodeValue]. unfold decodeValue_body at 1.
    destruct entries as [|[k v] entries]; [congruence|].
    set (todo := (k, v) :: entries) in *.
    assert (Hblank : isBlank (entryLine (k, v)) = false).
    { inversion Hall as [|? ? [[k' [Hk' [Hkey _]]] [[_ [Hn [Htrim _]]] _]] _];
        subst.
      cbn [fst snd] in *. subst k. rewrite entryLine_eq.
      now apply keyLine_isBlank. }
    change (map entryLine todo ++ [[]])
      with (entryLine (k, v) :: (map entryLine entries ++ [[]])).
    rewrite cursor_skip, cursor_hasMore by exact Hblank.
    cbn [negb]. cbv iota. unfold decodeMap. rewrite Hold.
    change (entryLine (k, v) :: (map entryLine entries ++ [[]]))
      with (map entryLine todo ++ [[]]).
    match goal with
    | |- context [mapLines ?rec ?n _ _ _ _ _] =>
        pose proof (@mapLines_plain_entries rec T todo [] [] n) as Hrun
    end.
    cbn [app] in Hrun. rewrite Hrun; [reflexivity|exact Hall|exact Hnd|].
    rewrite cursor_lines, length_app, length_map. simpl. lia.
  Qed.

End Maps.

Lemma map_round_trip_witness :
  let entries :=
    [(VString (float64 := @float64 integerRuntime) (str "b"), VInt KInt 2);
     (VString (str "a"), VInt KInt 1)] in
  MarshalWithOptions (R := integerRuntime)
    (Some (VMap TString (TInt KInt) (Some entries))) DefaultMarshalOptions
  = Ok (str "b: 2" ++ [LF] ++ str "a: 1" ++ [LF])
  /\ Unmarshal (R := integerRuntime) 2 (str "b: 2" ++ [LF] ++ str "a: 1" ++ [LF])
       (pointerTo (VMap TString (TInt KInt) None))
     = pointsTo (VMap TString (TInt KInt) (Some entries)).
Proof.
  intros entries.
  apply (@map_round_trip integerRuntime DefaultMarshalOptions (TInt KInt)
           entries None 0).
  - discriminate.
  - repeat constructor;
      try (eexists; split; [reflexivity|]); closed_token.
  - repeat constructor; simpl; intuition discriminate.
  - reflexivity.
Defined.

(** * The lines of arrays *)

Section HeaderLines.

  Context {R : GoRuntime}.

  Import Strings StringFacts SplitFacts NumberFacts.

Lemma lenTag_no_byte (n : nat) (c : ascii) :
    Strconv.isDigit c = false -> c <> "["%char -> ~ In c (lenTag n).
  Proof.
    intros Hd Hb. destruct (lenTag_digits n) as [digits [-> [_ [Hall _]]]].
    intros [H|H]; [now apply Hb|].
    rewrite Forall_forall in Hall. rewrite (Hall _ H) in Hd. discriminate.
  Qed.

  (** The header of an array under a key is the beginning of a line. *)
Lemma header_lineKey (name suffix : gostring) (c : ascii) (n : nat) :
    bareKey name -> graphic c = true -> ~ In ":"%char (suffix ++ [c]) ->
    lineKey (name ++ lenTag n ++ suffix ++ [c]).
  Proof.
    intros [Hne [Htrim [Hcolon [_ [_ [Hhash _]]]]]] Hc Hsuf. repeat split.
    - now destruct name.
    - apply TrimSpace_fixed in Htrim as [Hl _].
      apply TrimSpace_fixed. split.
      + apply ltrim1_app; [exact Hl|exact Hne|].
        destruct (lenTag_digits n) as [digits [-> _]]. reflexivity.
      + rewrite !app_assoc, rev_app_distr. cbn [rev app].
        apply graphic_inv in Hc as [Ha Hs]. now apply rtrim1_graphic.
    - intros H. apply in_app_or in H as [H|H]; [now apply Hcolon|].
      apply in_app_or in H as [H|H]; [|now apply Hsuf].
      revert H. now apply lenTag_no_byte.
    - destruct name as [|x name]; [congruence|].
      cbn [app HasPrefix str list_ascii_of_string] in *.
      now rewrite HasPrefix_nil in *.
  Qed.

  Section ColonLine.

    Variable key : gostring.
    Hypothesis Hkey : lineKey key.

Lemma colonLine_SplitN2 (tail : gostring) :
      SplitN2 (key ++ ":"%char :: tail) ":"%char = [key; tail].
    Proof. destruct Hkey as [_ [_ [Hc _]]]. now apply SplitN2_app. Qed.

Lemma colonLine_Contains (tail : gostring) :
      Contains (key ++ ":"%char :: tail) (str ":") = true.
    Proof. apply Contains_byte. apply in_or_app. right. now left. Qed.

Lemma colonLine_hash (tail : gostring) :
      HasPrefix (key ++ tail) (str "#") = false.
    Proof.
      destruct Hkey as [Hne [_ [_ Hhash]]].
      destruct key as [|x k]; [congruence|].
      cbn [app HasPrefix str list_ascii_of_string] in *.
      now rewrite HasPrefix_nil in *.
    Qed.

    (** The line [key:]. *)
Lemma colonLine_bare : TrimSpace (key ++ [":"%char]) = key ++ [":"%char].
    Proof.
      destruct Hkey as [Hne [Htrim _]].
      apply TrimSpace_fixed in Htrim as [Hl _].
      apply TrimSpace_fixed. split.
      - now apply ltrim1_app.
      - rewrite rev_app_distr. cbn [rev app]. now apply rtrim1_graphic.
    Qed.

    (** The line [key: tok]. *)
Lemma colonLine_token (tok : gostring) :
      tok <> [] -> TrimSpace tok = tok ->
      TrimSpace (key ++ ":"%char :: SP :: tok) = key ++ ":"%char :: SP :: tok.
    Proof.
      intros Htok Ht. destruct Hkey as [Hne [Htrim _]].
      apply TrimSpace_fixed in Htrim as [Hl _].
      apply TrimSpace_fixed in Ht as [_ Hr].
      apply TrimSpace_fixed. split.
      - now apply ltrim1_app.
      - rewrite rev_app_distr. cbn [rev].
        rewrite <- !app_assoc. cbn [app].
        apply rtrim1_app; [exact Hr| |reflexivity].
        intros H. apply (f_equal (@rev ascii)) in H.
        rewrite rev_involutive in H. now apply Htok.
    Qed.

Lemma colonLine_isBlank (line tail : gostring) :
      line = key ++ ":"%char :: tail -> TrimSpace line = line ->
      isBlank line = false.
    Proof.
      intros -> Htrim. apply isBlank_false; [|exact Htrim|].
      - destruct key; discriminate.
      - apply colonLine_hash.
    Qed.

  End ColonLine.

  Variable opts : MarshalOptions.

Lemma inlineText_token (elems : list (value float64)) :
    knownDelimiter opts -> elems <> [] -> Forall cellSafe elems ->
    inlineText opts elems <> []
    /\ TrimSpace (inlineText opts elems) = inlineText opts elems.
  Proof.
    intros Hdelim Hne Hsafe.
    destruct (knownDelimiter_byte Hdelim) as [sep [Hsep Hin]].
    assert (Htoks : Forall trimmed (map writePrimitiveValue elems)).
    { apply Forall_map. eapply Forall_impl; [|exact Hsafe].
      intros e [[_ [Hn [Ht _]]] _]. now split. }
    unfold inlineText. rewrite Hsep. split.
    - destruct elems as [|e elems]; [congruence|].
      inversion Htoks as [|? ? [Hn _] _]; subst.
      now destruct (Join_head (map writePrimitiveValue elems) [sep] Hn).
    - apply Join_TrimSpace; [now destruct elems|exact Htoks|].
      now apply delimiter_ascii.
  Qed.

Lemma inlineLine_eq (name : gostring) (elems : list (value float64)) :
    inlineLine opts name elems
    = (name ++ lenTag (length elems) ++ [] ++ ["]"%char])
        ++ ":"%char :: SP :: inlineText opts elems.
  Proof.
    unfold inlineLine. rewrite <- !app_assoc. reflexivity.
  Qed.

Lemma tableHeader_eq (name : gostring) (T : list (StructField * type))
    (n : nat) :
    tableHeader name T n
    = (name ++ lenTag n
         ++ (str "]{" ++ Join (columnNames T (seq 0 (length T))) (str ","))
         ++ ["}"%char])
        ++ [":"%char].
  Proof.
    unfold tableHeader. rewrite <- !app_assoc. reflexivity.
  Qed.

Lemma columnNames_seq (T : list (StructField * type)) :
    columnNames T (seq 0 (length T))
    = map (fun ft => getFieldName (fst ft)) T.
  Proof.
    unfold columnNames.
    apply (map_nth_error_seq (fun ft => getFieldName (fst ft)) [] T).
  Qed.

Lemma headerNames_columns (T : list (StructField * type)) :
    Forall (fun ft => headerName (getFieldName (fst ft))) T ->
    Forall headerName (columnNames T (seq 0 (length T))).
  Proof. intros H. rewrite columnNames_seq. now apply Forall_map. Qed.

Lemma Join_no_byte_names (cols : list gostring) (c : ascii) :
    c <> ","%char -> Forall (fun p => ~ In c p) cols ->
    ~ In c (Join cols (str ",")).
  Proof.
    intros Hc Hall Hin. change (str ",") with [","%char] in Hin.
    apply In_Join in Hin as [[p [Hp Hin]]|[Heq _]]; [|congruence].
    rewrite Forall_forall in Hall. now apply (Hall _ Hp).
  Qed.

  Section TableHeader.

    Variables (name : gostring) (T : list (StructField * type)) (n : nat).
    Hypothesis Hname : bareKey name.
    Hypothesis HT : T <> [].
    Hypothesis Hcols : Forall (fun ft => headerName (getFieldName (fst ft))) T.

Let cols := columnNames T (seq 0 (length T)).

Lemma table_columns : cols <> [] /\ Forall columnName cols.
    Proof.
      split.
      - unfold cols. rewrite columnNames_seq. now destruct T.
      - eapply Forall_impl; [|apply (headerNames_columns Hcols)].
        now intros c [Hc _].
    Qed.

Lemma table_no_byte (c : ascii) :
      c <> ","%char ->
      Forall (fun p => ~ In c p) cols ->
      c <> "]"%char -> c <> "{"%char -> c <> "}"%char ->
      ~ In c ((str "]{" ++ Join cols (str ",")) ++ ["}"%char]).
    Proof.
      intros Hc Hall H1 H2 H3 Hin.
      apply in_app_or in Hin as [Hin|[Hin|[]]]; [|congruence].
      cbn [app str list_ascii_of_string] in Hin.
      destruct Hin as [Hin|[Hin|Hin]]; try congruence.
      revert Hin. now apply Join_no_byte_names.
    Qed.

Lemma table_lineKey :
      lineKey (name ++ lenTag n ++ (str "]{" ++ Join cols (str ","))
                 ++ ["}"%char]).
    Proof.
      apply header_lineKey; [exact Hname|reflexivity|].
      apply table_no_byte; try discriminate.
      eapply Forall_impl; [|apply (headerNames_columns Hcols)].
      now intros c [_ [Hc _]].
    Qed.

Lemma table_no_LF : ~ In LF (tableHeader name T n).
    Proof.
      rewrite tableHeader_eq. intros Hin.
      apply in_app_or in Hin as [Hin|[Hin|[]]]; [|discriminate Hin].
      apply in_app_or in Hin as [Hin|Hin];
        [now destruct Hname as [_ [_ [_ [_ [Hlf _]]]]]|].
      apply in_app_or in Hin as [Hin|Hin].
      - revert Hin. apply lenTag_no_byte; [reflexivity|discriminate].
      - revert Hin. apply table_no_byte; try discriminate.
        eapply Forall_impl; [|apply (headerNames_columns Hcols)].
        now intros c [_ [_ Hc]].
    Qed.

  End TableHeader.

End HeaderLines.

Section FieldSteps.

  Context {R : GoRuntime}.

  Import Strings StringFacts SplitFacts NumberFacts.

  Variable decodeValue' :
    value float64 -> nat -> decoder -> result (value float64 * decoder).

  Variable opts : MarshalOptions.

  Hypothesis Hdelim : knownDelimiter opts.

  (** The loop of [decodeStruct] on the line of an inline array: the text
      after the header is read by [decodeInlineArray]. *)
Lemma structLines_inline_header (n : nat) (fm : fieldMap)
    (done rest : list (StructField * value float64)) (f : StructField)
    (v : value float64) (elems : list (value float64))
    (pre post : list gostring) :
    bareKey (getFieldName f) ->
    elems <> [] -> Forall cellSafe elems ->
    (Z.of_nat (length elems) < 2 ^ 63)%Z ->
    lookup fm (getFieldName f) = Some (length done) ->
    let line := inlineLine opts (getFieldName f) elems in
    structLines decodeValue' (S n) fm 0 (done ++ (f, v) :: rest)
      (cursor pre (line :: post))
    = v' <- decodeInlineArray v (inlineText opts elems) ;;
      structLines decodeValue' n fm 0 (done ++ (f, v') :: rest)
        (cursor (pre ++ [line]) post).
  Proof.
    intros Hname Hne Hsafe Hlen Hlook line. subst line.
    set (name := getFieldName f) in *.
    set (hdr := name ++ lenTag (length elems) ++ [] ++ ["]"%char]).
    assert (Hk : lineKey hdr).
    { apply header_lineKey; [exact Hname|reflexivity|].
      intros [H|[]]. discriminate H. }
    destruct (inlineText_token Hdelim Hne Hsafe) as [Htok Htt].
    pose proof (colonLine_token Hk Htok Htt) as Htrim.
    assert (Hblank : isBlank (hdr ++ ":"%char :: SP :: inlineText opts elems)
                     = false)
      by (eapply colonLine_isBlank; [exact Hk|reflexivity|exact Htrim]).
    rewrite inlineLine_eq. fold name. fold hdr.
    cbn [structLines].
    rewrite cursor_hasMore by exact Hblank. cbn [negb]. cbv iota.
    rewrite cursor_skip by exact Hblank.
    rewrite cursor_hasMore by exact Hblank. cbn [negb]. cbv iota.
    rewrite cursor_current. cbv zeta.
    change (0 <? 0) with false. cbn [andb]. cbv iota.
    rewrite Htrim, (colonLine_Contains hdr). cbn [negb]. cbv iota.
    rewrite (colonLine_SplitN2 Hk).
    rewrite (proj1 (proj2 Hk)), (TrimSpace_space Htt).
    assert (Hparse : parseArrayDeclaration hdr
                     = (Z.of_nat (length elems), [])).
    { destruct Hname as [Hn [_ [_ [Hbr [Hlf _]]]]].
      now apply parse_plain_header. }
    assert (Hextract : extractKeyFromArray hdr = name).
    { destruct Hname as [Hn [_ [_ [Hbr [Hlf _]]]]].
      now apply extract_header_key. }
    rewrite Hparse.
    replace (0 <=? Z.of_nat (length elems))%Z with true by lia.
    rewrite Hextract, Hlook, nth_error_middle.
    unfold decodeArrayField.
    replace (isEmpty (inlineText opts elems)) with false
      by now destruct (inlineText opts elems).
    cbn [negb]. rewrite cursor_advance.
    destruct (decodeInlineArray v (inlineText opts elems)) as [v'| |];
      cbn [bind fst snd]; [|reflexivity..].
    now rewrite setField_middle.
  Qed.

  (** One turn of the loop of [decodeStruct] on the line of an inline
      array. *)
Lemma structLines_inline_field (n : nat) (fm : fieldMap)
    (done rest : list (StructField * value float64)) (f : StructField)
    (t : type) (old : option (list (value float64)))
    (elems : list (value float64)) (pre post : list gostring) :
    bareKey (getFieldName f) ->
    elems <> [] -> Forall cellSafe elems ->
    Forall (fun e => typeOf e = t) elems ->
    (Z.of_nat (length elems) < 2 ^ 63)%Z ->
    lookup fm (getFieldName f) = Some (length done) ->
    structLines decodeValue' (S n) fm 0 (done ++ (f, VSlice t old) :: rest)
      (cursor pre (inlineLine opts (getFieldName f) elems :: post))
    = structLines decodeValue' n fm 0
        (done ++ (f, VSlice t (Some elems)) :: rest)
        (cursor (pre ++ [inlineLine opts (getFieldName f) elems]) post).
  Proof.
    intros Hname Hne Hsafe Htype Hlen Hlook.
    rewrite (@structLines_inline_header n fm done rest f (VSlice t old) elems
               pre post Hname Hne Hsafe Hlen Hlook).
    now rewrite (decodeInlineArray_tokens old Hsafe Htype Hne Hdelim).
  Qed.

Lemma decodeArrayField_columns (v : value float64) (length : Z)
    (cols : list gostring) (value : gostring) (indent : nat) (d : decoder) :
    cols <> [] ->
    decodeArrayField decodeValue' v length cols value indent d
    = decodeTabularArray v length cols indent d.
  Proof. now destruct cols. Qed.

  (** One turn of the loop of [decodeStruct] on a table: its header line
      and its rows. *)
Lemma structLines_table_field (n : nat) (fm : fieldMap)
    (done rest : list (StructField * value float64)) (f : StructField)
    (T : list (StructField * type)) (old : option (list (value float64)))
    (recs : list (list (StructField * value float64)))
    (pre post : list gostring) :
    bareKey (getFieldName f) ->
    recs <> [] -> T <> [] -> Forall (tableRow T) recs ->
    NoDup (map (fun ft => getFieldName (fst ft)) T) ->
    Forall (fun ft => headerName (getFieldName (fst ft))) T ->
    (Z.of_nat (length recs) < 2 ^ 63)%Z ->
    lookup fm (getFieldName f) = Some (length done) ->
    let header := tableHeader (getFieldName f) T (length recs) in
    let rows := map (fun r => rowLine opts 0 r (seq 0 (length T))) recs in
    structLines decodeValue' (S n) fm 0
      (done ++ (f, VSlice (TStruct T) old) :: rest)
      (cursor pre ((header :: rows) ++ post))
    = structLines decodeValue' n fm 0
        (done ++ (f, VSlice (TStruct T) (Some (map VStruct recs))) :: rest)
        (cursor (pre ++ header :: rows) post).
  Proof.
    intros Hname Hne HT Hall Hnd Hcols Hlen Hlook header rows.
    subst rows.
    set (name := getFieldName f) in *.
    set (cols := columnNames T (seq 0 (length T))).
    set (hdr := name ++ lenTag (length recs)
                  ++ (str "]{" ++ Join cols (str ",")) ++ ["}"%char]).
    pose proof (table_lineKey (length recs) Hname Hcols) as Hk.
    fold cols in Hk. fold hdr in Hk.
    pose proof (colonLine_bare Hk) as Htrim.
    assert (Hblank : isBlank (hdr ++ [":"%char]) = false)
      by (eapply colonLine_isBlank; [exact Hk|reflexivity|exact Htrim]).
    unfold header. rewrite tableHeader_eq. fold name. fold cols. fold hdr.
    cbn [app structLines].
    rewrite cursor_hasMore by exact Hblank. cbn [negb]. cbv iota.
    rewrite cursor_skip by exact Hblank.
    rewrite cursor_hasMore by exact Hblank. cbn [negb]. cbv iota.
    rewrite cursor_current. cbv zeta.
    change (0 <? 0) with false. cbn [andb]. cbv iota.
    rewrite Htrim, (colonLine_Contains hdr). cbn [negb]. cbv iota.
    rewrite (colonLine_SplitN2 Hk).
    rewrite (proj1 (proj2 Hk)).
    change (TrimSpace []) with (@nil ascii).
    destruct (table_columns HT Hcols) as [Hc1 Hc2]. fold cols in Hc1, Hc2.
    assert (Hparse : parseArrayDeclaration hdr
                     = (Z.of_nat (length recs), cols)).
    { destruct Hname as [Hn [_ [_ [Hbr [Hlf _]]]]].
      unfold hdr. rewrite <- !app_assoc.
      now apply parse_table_header. }
    assert (Hextract : extractKeyFromArray hdr = name).
    { destruct Hname as [Hn [_ [_ [Hbr [Hlf _]]]]].
      now apply extract_header_key. }
    rewrite Hparse.
    replace (0 <=? Z.of_nat (length recs))%Z with true by lia.
    rewrite Hextract, Hlook, nth_error_middle.
    rewrite decodeArrayField_columns by exact Hc1.
    rewrite cursor_advance. unfold cols.
    pose proof (@decodeTabularArray_rows R opts T recs (seq 0 (length T))
                  old 0 (getIndent (hdr ++ [":"%char]))
                  (pre ++ [hdr ++ [":"%char]]) post Hdelim HT Hall Hnd
                  (Permutation_refl _)) as Hrows.
    match type of Hrows with
    | ?lhs = _ =>
        match goal with |- bind ?m _ = _ => change m with lhs end
    end.
    rewrite Hrows.
    cbn [bind fst snd]. rewrite setField_middle.
    now rewrite <- app_assoc.
  Qed.

End FieldSteps.

(** * Blocks below a field *)

(** The run of a call whose result is known: the call is put in the
    form of the equation first, up to conversion. *)
Ltac run_with H :=
  match type of H with
  | ?lhs = _ =>
      match goal with
      | |- bind ?run _ = _ => change run with lhs
      | |- bind (bind ?run _) _ = _ => change run with lhs
      | |- bind (bind (bind ?run _) _) _ = _ => change run with lhs
      end
  end;
  rewrite H.

Section IndentedLines.

  Context {R : GoRuntime}.

  Import Strings StringFacts SplitFacts NumberFacts.

Lemma isBlank_spaces (m : nat) (l : gostring) :
    isBlank (repeat SP m ++ l) = isBlank l.
  Proof. unfold isBlank. now rewrite TrimSpace_spaces. Qed.

  (** A line that starts with a key starts at the margin. *)
Lemma getIndent_key (key tail : gostring) :
    key <> [] -> TrimSpace key = key -> getIndent (key ++ tail) = 0.
  Proof.
    intros Hne Htrim. apply TrimSpace_fixed in Htrim as [Hl _].
    destruct key as [|c k]; [congruence|].
    cbn [app getIndent].
    destruct (Ascii.eqb_spec c SP) as [->|_]; [discriminate Hl|reflexivity].
  Qed.

Lemma bareKey_lineKey (k : gostring) : bareKey k -> lineKey k.
  Proof.
    intros [Hne [Htrim [Hcolon [_ [_ [Hhash _]]]]]]. now repeat split.
  Qed.

Lemma fieldLine_isBlank (fv : StructField * value float64) :
    plainField fv -> isBlank (fieldLine fv) = false.
  Proof.
    intros [_ [Hkey [_ [Hne [Htrim _]]]]].
    rewrite fieldLine_eq. now apply keyLine_isBlank.
  Qed.

Lemma fieldLine_getIndent (fv : StructField * value float64) :
    plainField fv -> getIndent (fieldLine fv) = 0.
  Proof.
    intros [_ [[Hne [Htrim _]] _]]. unfold fieldLine.
    now apply getIndent_key.
  Qed.

  (** The lines after a block, seen from the cursor. *)
Lemma blockEnd_stop (e : nat) (pre post : list gostring) :
    blockEnd e post ->
    hasMore (cursor pre post) = false
    \/ (hasMore (cursor pre post) = true
        /\ skipEmptyLines (cursor pre post) = cursor pre post
        /\ (getIndent (currentLine (cursor pre post)) <? e) = true).
  Proof.
    intros [->|[l [rest [-> [Hblank Hind]]]]].
    - left. now apply cursor_end.
    - right. rewrite cursor_hasMore, cursor_skip, cursor_current
        by exact Hblank.
      repeat split. now apply Nat.ltb_lt.
  Qed.

Lemma blockEnd_nonempty (e : nat) (post : list gostring) :
    blockEnd e post -> 0 < length post.
  Proof.
    intros [->|[l [rest [-> _]]]]; simpl; lia.
  Qed.

Lemma blockEnd_weaken (e e' : nat) (post : list gostring) :
    blockEnd e post -> e <= e' -> blockEnd e' post.
  Proof.
    intros [->|[l [rest [-> [Hblank Hind]]]]] He; [now left|].
    right. exists l, rest. repeat split; [exact Hblank|lia].
  Qed.

  Section Loop.

    Variable decodeValue' :
      value float64 -> nat -> decoder -> result (value float64 * decoder).

    Variables (fm : fieldMap) (e m : nat).

    Hypothesis Hem : e <= m.

    (** One turn of the loop of [decodeStruct] on the line of a plain
        field that is [m] spaces in. *)
Lemma structLines_indented_field (n : nat)
      (done rest : list (StructField * value float64))
      (f : StructField) (v0 v : value float64)
      (pre post : list gostring) :
      plainField (f, v) ->
      typeOf v0 = typeOf v ->
      lookup fm (getFieldName f) = Some (length done) ->
      structLines decodeValue' (S n) fm e (done ++ (f, v0) :: rest)
        (cursor pre ((repeat SP m ++ fieldLine (f, v)) :: post))
      = structLines decodeValue' n fm e (done ++ (f, v) :: rest)
          (cursor (pre ++ [repeat SP m ++ fieldLine (f, v)]) post).
    Proof.
      intros Hplain Htype Hlook.
      pose proof (fieldLine_isBlank Hplain) as Hblank0.
      pose proof (fieldLine_getIndent Hplain) as Hind.
      destruct Hplain as [Hexp [Hkey [Hsc [Hne [Htrim [Hlf Hset]]]]]].
      cbn [fst snd] in *.
      assert (Hblank : isBlank (repeat SP m ++ fieldLine (f, v)) = false)
        by now rewrite isBlank_spaces.
      cbn [structLines].
      rewrite cursor_hasMore by exact Hblank. cbn [negb]. cbv iota.
      rewrite cursor_skip by exact Hblank.
      rewrite cursor_hasMore by exact Hblank. cbn [negb]. cbv iota.
      rewrite cursor_current. cbv zeta.
      rewrite getIndent_spaces, Hind, Nat.add_0_r.
      replace (m <? e) with false by (symmetry; apply Nat.ltb_ge; exact Hem).
      rewrite andb_false_r. cbv iota.
      rewrite TrimSpace_spaces, fieldLine_eq. cbn [fst snd].
      rewrite (keyLine_TrimSpace Hkey Hne Htrim).
      rewrite (keyLine_Contains _ _). cbn [negb]. cbv iota.
      rewrite (keyLine_SplitN2 _ Hkey).
      rewrite (keyLine_key Hkey), (keyLine_value Htrim).
      rewrite (keyLine_parse Hkey).
      change (0 <=? -1)%Z with false. cbv iota.
      rewrite Hlook, nth_error_middle.
      replace (isEmpty (writePrimitiveValue v)) with false
        by now destruct (writePrimitiveValue v).
      rewrite Htype, Hset. cbn [bind fst snd].
      now rewrite setField_middle, cursor_advance.
    Qed.

Lemma setNamed_middle (done rest : list (StructField * value float64))
      (f : StructField) (v0 v : value float64) (tok : gostring) :
      typeOf v0 = typeOf v ->
      setPrimitiveValue (typeOf v) tok = Ok v ->
      lookup fm (getFieldName f) = Some (length done) ->
      setNamed fm (done ++ (f, v0) :: rest) (getFieldName f) tok
      = Ok (done ++ (f, v) :: rest).
    Proof.
      intros Htype Hset Hlook. unfold setNamed, fieldType.
      rewrite Hlook, nth_error_middle, Htype, Hset. cbn [bind].
      now rewrite setField_middle.
    Qed.

    (** One turn of the loop of [decodeStructFromListItem]. *)
Lemma listItemLines_field (n : nat)
      (done rest : list (StructField * value float64))
      (f : StructField) (v0 v : value float64)
      (pre post : list gostring) :
      plainField (f, v) ->
      typeOf v0 = typeOf v ->
      lookup fm (getFieldName f) = Some (length done) ->
      listItemLines (S n) fm e (done ++ (f, v0) :: rest)
        (cursor pre ((repeat SP m ++ fieldLine (f, v)) :: post))
      = listItemLines n fm e (done ++ (f, v) :: rest)
          (cursor (pre ++ [repeat SP m ++ fieldLine (f, v)]) post).
    Proof.
      intros Hplain Htype Hlook.
      pose proof (fieldLine_isBlank Hplain) as Hblank0.
      pose proof (fieldLine_getIndent Hplain) as Hind.
      destruct Hplain as [Hexp [Hkey [Hsc [Hne [Htrim [Hlf Hset]]]]]].
      cbn [fst snd] in *.
      assert (Hblank : isBlank (repeat SP m ++ fieldLine (f, v)) = false)
        by now rewrite isBlank_spaces.
      cbn [listItemLines].
      rewrite cursor_hasMore by exact Hblank. cbn [negb]. cbv iota.
      rewrite cursor_skip by exact Hblank.
      rewrite cursor_hasMore by exact Hblank. cbn [negb]. cbv iota.
      rewrite cursor_current. cbv zeta.
      rewrite getIndent_spaces, Hind, Nat.add_0_r.
      replace (m <? e) with false by (symmetry; apply Nat.ltb_ge; exact Hem).
      cbv iota.
      rewrite TrimSpace_spaces, fieldLine_eq. cbn [fst snd].
      rewrite (keyLine_TrimSpace Hkey Hne Htrim).
      rewrite (keyLine_Contains _ _). cbn [negb]. cbv iota.
      rewrite (keyLine_SplitN2 _ Hkey).
      rewrite (keyLine_key Hkey), (keyLine_value Htrim).
      rewrite (@setNamed_middle done rest f v0 v _ Htype Hset Hlook). cbn [bind].
      now rewrite cursor_advance.
    Qed.

    (** The loop of [decodeStructFromListItem] over the lines of an item
        after the first, up to the line that is less far in. *)
Lemma listItemLines_fields :
      forall (todo ttodo done : list (StructField * value float64))
             (pre post : list gostring) (n : nat),
        Forall plainField todo ->
        Forall2 sameShape ttodo todo ->
        (forall j fv, nth_error todo j = Some fv ->
                      lookup fm (getFieldName (fst fv))
                      = Some (length done + j)) ->
        blockEnd e post ->
        length todo < n ->
        listItemLines n fm e (done ++ ttodo)
          (cursor pre (map (fun fv => repeat SP m ++ fieldLine fv) todo
                         ++ post))
        = Ok (done ++ todo,
              cursor (pre ++ map (fun fv => repeat SP m ++ fieldLine fv) todo)
                post).
    Proof.
      induction todo as [|[f v] todo IH];
        intros ttodo done pre post n Hall Hshape Hlook Hend Hn.
      - inversion Hshape; subst. cbn [map app]. rewrite !app_nil_r.
        destruct n as [|n]; [lia|]. cbn [listItemLines].
        destruct (blockEnd_stop pre Hend) as [Hno|[Hmore [Hskip Hlt]]].
        + now rewrite Hno.
        + rewrite Hmore. cbn [negb]. cbv iota.
          rewrite Hskip, Hmore. cbn [negb]. cbv iota zeta.
          now rewrite Hlt.
      - inversion Hshape as [|[f0 v0] ? ? ? [Hf Ht] Hshape']; subst.
        cbn [fst snd] in Hf, Ht. subst f0.
        inversion Hall as [|? ? Hplain Hall']; subst.
        destruct n as [|n]; [simpl in Hn; lia|].
        cbn [map app].
        pose proof (Hlook 0 (f, v) eq_refl) as Hl0. cbn [fst] in Hl0.
        rewrite Nat.add_0_r in Hl0.
        rewrite listItemLines_field; [|exact Hplain|exact Ht|exact Hl0].
        replace (done ++ (f, v) :: l) with ((done ++ [(f, v)]) ++ l)
          by now rewrite <- app_assoc.
        rewrite IH; [|exact Hall'|exact Hshape'| |exact Hend
                     |simpl in Hn; lia].
        + rewrite <- !app_assoc. reflexivity.
        + intros j fv Hj. rewrite (Hlook (S j) fv Hj).
          rewrite length_app. f_equal. simpl. lia.
    Qed.

    Hypothesis He : 0 < e.

    (** The loop of [decodeStruct] over a block of plain fields, up to
        the line that is less far in. *)
Lemma structLines_indented_fields :
      forall (todo ttodo done : list (StructField * value float64))
             (pre post : list gostring) (n : nat),
        Forall plainField todo ->
        Forall2 sameShape ttodo todo ->
        (forall j fv, nth_error todo j = Some fv ->
                      lookup fm (getFieldName (fst fv))
                      = Some (length done + j)) ->
        blockEnd e post ->
        length todo < n ->
        structLines decodeValue' n fm e (done ++ ttodo)
          (cursor pre (map (fun fv => repeat SP m ++ fieldLine fv) todo
                         ++ post))
        = Ok (done ++ todo,
              cursor (pre ++ map (fun fv => repeat SP m ++ fieldLine fv) todo)
                post).
    Proof.
      induction todo as [|[f v] todo IH];
        intros ttodo done pre post n Hall Hshape Hlook Hend Hn.
      - inversion Hshape; subst. cbn [map app]. rewrite !app_nil_r.
        destruct n as [|n]; [lia|]. cbn [structLines].
        destruct (blockEnd_stop pre Hend) as [Hno|[Hmore [Hskip Hlt]]].
        + now rewrite Hno.
        + rewrite Hmore. cbn [negb]. cbv iota.
          rewrite Hskip, Hmore. cbn [negb]. cbv iota zeta.
          rewrite Hlt.
          replace (0 <? e) with true by (symmetry; now apply Nat.ltb_lt).
          reflexivity.
      - inversion Hshape as [|[f0 v0] ? ? ? [Hf Ht] Hshape']; subst.
        cbn [fst snd] in Hf, Ht. subst f0.
        inversion Hall as [|? ? Hplain Hall']; subst.
        destruct n as [|n]; [simpl in Hn; lia|].
        cbn [map app].
        pose proof (Hlook 0 (f, v) eq_refl) as Hl0. cbn [fst] in Hl0.
        rewrite Nat.add_0_r in Hl0.
        rewrite structLines_indented_field;
          [|exact Hplain|exact Ht|exact Hl0].
        replace (done ++ (f, v) :: l) with ((done ++ [(f, v)]) ++ l)
          by now rewrite <- app_assoc.
        rewrite IH; [|exact Hall'|exact Hshape'| |exact Hend
                     |simpl in Hn; lia].
        + rewrite <- !app_assoc. reflexivity.
        + intros j fv Hj. rewrite (Hlook (S j) fv Hj).
          rewrite length_app. f_equal. simpl. lia.
    Qed.

  End Loop.

  Variable opts : MarshalOptions.

  Hypothesis Hindent : (2 <= Indent opts)%Z.

Lemma nestedLine_eq (depth : Z) :
    nestedLine opts depth
    = fun fv => repeat SP (Z.to_nat (depth * Indent opts)) ++ fieldLine fv.
  Proof. reflexivity. Qed.

Lemma lookup_record (target fields : list (StructField * value float64)) :
    Forall2 sameShape target fields ->
    Forall plainField fields -> NoDup (names fields) ->
    forall j fv, nth_error fields j = Some fv ->
                 lookup (buildFieldMap true 0 target [])
                   (getFieldName (fst fv))
                 = Some (length (@nil (StructField * value float64)) + j).
  Proof.
    intros Hshape Hall Hnd j fv Hj.
    apply (@lookup_buildFieldMap R true target 0 [] j).
    - exact (sameShape_live Hshape Hall).
    - now rewrite (sameShape_names Hshape).
    - rewrite (sameShape_names Hshape). unfold names.
      now rewrite nth_error_map, Hj.
  Qed.

  (** [decodeValue] on the block of a nested record, one level in. *)
Lemma decodeValue_nested_block (fuel : nat)
    (old inner : list (StructField * value float64))
    (pre post : list gostring) :
    inner <> [] -> Forall plainField inner -> NoDup (names inner) ->
    typeOf (VStruct old) = typeOf (VStruct inner) ->
    blockEnd 2 post ->
    decodeValue (S fuel) (VStruct old) 2
      (cursor pre (map (nestedLine opts 1) inner ++ post))
    = Ok (VStruct inner, cursor (pre ++ map (nestedLine opts 1) inner) post).
  Proof.
    intros Hne Hall Hnd Htype Hend.
    pose proof (sameShape_of_type Htype) as Hshape.
    cbn [decodeValue]. unfold decodeValue_body.
    rewrite nestedLine_eq.
    set (m := Z.to_nat (1 * Indent opts)).
    assert (Hm : 2 <= m) by (unfold m; lia).
    destruct inner as [|fv inner]; [congruence|].
    assert (Hblank : isBlank (repeat SP m ++ fieldLine fv) = false).
    { rewrite isBlank_spaces. apply fieldLine_isBlank.
      now inversion Hall. }
    cbn [map app].
    rewrite cursor_skip, cursor_hasMore by exact Hblank.
    cbn [negb]. cbv iota. unfold decodeStruct.
    match goal with
    | |- context [structLines ?rec ?n ?fm _ _ _] =>
        pose proof (@structLines_indented_fields rec fm 2 m Hm
                      ltac:(lia) (fv :: inner) old [] pre post n
                      Hall Hshape (lookup_record Hshape Hall Hnd) Hend)
          as Hrun
    end.
    cbn [map app] in Hrun.
    match type of Hrun with
    | _ -> ?lhs = _ =>
        match goal with |- bind ?run _ = _ => change run with lhs end
    end.
    rewrite Hrun; [reflexivity|].
    rewrite cursor_lines. cbn [length].
    pose proof (blockEnd_nonempty Hend). rewrite length_app, length_map. lia.
  Qed.

  (** One turn of the loop of [decodeStruct] on a nested record: its
      header line and its block. *)
Lemma structLines_nested_field (fuel n : nat) (fm : fieldMap)
    (done rest : list (StructField * value float64)) (f : StructField)
    (old inner : list (StructField * value float64))
    (pre post : list gostring) :
    bareKey (getFieldName f) ->
    inner <> [] -> Forall plainField inner -> NoDup (names inner) ->
    typeOf (VStruct old) = typeOf (VStruct inner) ->
    blockEnd 2 post ->
    lookup fm (getFieldName f) = Some (length done) ->
    let block := blockLine (getFieldName f) :: map (nestedLine opts 1) inner in
    structLines (decodeValue (S fuel)) (S n) fm 0
      (done ++ (f, VStruct old) :: rest) (cursor pre (block ++ post))
    = structLines (decodeValue (S fuel)) n fm 0
        (done ++ (f, VStruct inner) :: rest) (cursor (pre ++ block) post).
  Proof.
    intros Hname Hne Hall Hnd Htype Hend Hlook block. subst block.
    set (name := getFieldName f) in *.
    pose proof (bareKey_lineKey Hname) as Hk.
    pose proof (colonLine_bare Hk) as Htrim.
    assert (Hblank : isBlank (name ++ [":"%char]) = false)
      by (eapply colonLine_isBlank; [exact Hk|reflexivity|exact Htrim]).
    unfold blockLine. change (name ++ str ":") with (name ++ [":"%char]).
    cbn [app structLines].
    rewrite cursor_hasMore by exact Hblank. cbn [negb]. cbv iota.
    rewrite cursor_skip by exact Hblank.
    rewrite cursor_hasMore by exact Hblank. cbn [negb]. cbv iota.
    rewrite cursor_current. cbv zeta.
    change (0 <? 0) with false. cbn [andb]. cbv iota.
    rewrite Htrim, (colonLine_Contains name). cbn [negb]. cbv iota.
    rewrite (colonLine_SplitN2 Hk).
    rewrite (proj1 (proj2 Hk)).
    change (TrimSpace []) with (@nil ascii).
    rewrite (keyLine_parse Hname).
    change (0 <=? -1)%Z with false. cbv iota.
    rewrite Hlook, nth_error_middle. cbn [isEmpty].
    rewrite (getIndent_key [":"%char] (proj1 Hk) (proj1 (proj2 Hk))).
    rewrite cursor_advance. cbn [plus].
    pose proof (decodeValue_nested_block fuel (pre ++ [name ++ [":"%char]])
                  Hne Hall Hnd Htype Hend) as Hrun.
    run_with Hrun.
    cbn [bind fst snd]. rewrite setField_middle.
    now rewrite <- app_assoc.
  Qed.

  (** ** Lists of records *)

Lemma dashLine_TrimSpace (x : gostring) :
    x <> [] -> TrimSpace x = x -> TrimSpace (str "- " ++ x) = str "- " ++ x.
  Proof.
    intros Hne Htrim. apply TrimSpace_fixed in Htrim as [_ Hr].
    apply TrimSpace_fixed. split.
    - change (str "- " ++ x) with (["-"%char] ++ SP :: x).
      now apply ltrim1_app.
    - rewrite rev_app_distr.
      apply rtrim1_app; [exact Hr| |reflexivity].
      intros H. apply (f_equal (@rev ascii)) in H.
      rewrite rev_involutive in H. now apply Hne.
  Qed.

Lemma fieldLine_TrimSpace (fv : StructField * value float64) :
    plainField fv -> fieldLine fv <> [] /\ TrimSpace (fieldLine fv) = fieldLine fv.
  Proof.
    intros [_ [Hkey [_ [Hne [Htrim _]]]]]. rewrite fieldLine_eq. split.
    - destruct Hkey as [Hk _]. now destruct (getFieldName (fst fv)).
    - now apply keyLine_TrimSpace.
  Qed.

Lemma dashLine_isBlank (fv : StructField * value float64) (m : nat) :
    plainField fv ->
    isBlank (repeat SP m ++ str "- " ++ fieldLine fv) = false.
  Proof.
    intros Hplain. destruct (fieldLine_TrimSpace Hplain) as [Hne Htrim].
    rewrite isBlank_spaces. apply isBlank_false.
    - discriminate.
    - now apply dashLine_TrimSpace.
    - reflexivity.
  Qed.

Lemma scalars_shape (r : list (StructField * value float64)) :
    Forall plainField r -> Forall2 sameShape (zeroRecord (typeFields r)) r.
  Proof.
    induction 1 as [|[f v] r [_ [_ [Hsc _]]] _ IH]; constructor; [|exact IH].
    split; [reflexivity|]. cbn [fst snd] in *.
    destruct v; try discriminate Hsc; reflexivity.
  Qed.

Lemma names_typeFields (r : list (StructField * value float64)) :
    map (fun ft => getFieldName (fst ft)) (typeFields r) = names r.
  Proof. unfold typeFields, names. now rewrite map_map. Qed.

  Section Items.

    Variable T : list (StructField * type).

    Hypothesis HT : T <> [].
    Hypothesis Hnames : NoDup (map (fun ft => getFieldName (fst ft)) T).

Let m1 := Z.to_nat (1 * Indent opts).
Let m2 := Z.to_nat (2 * Indent opts).

Lemma itemLines_eq (fv : StructField * value float64)
      (rest : list (StructField * value float64)) :
      itemLines opts (fv :: rest)
      = (repeat SP m1 ++ str "- " ++ fieldLine fv)
          :: map (fun fv => repeat SP m2 ++ fieldLine fv) rest.
    Proof. reflexivity. Qed.

    (** The first line of an item starts one level in, with a dash. *)
Lemma itemLines_head (r : list (StructField * value float64)) :
      listItem T r ->
      exists fv rest,
        r = fv :: rest
        /\ isBlank (repeat SP m1 ++ str "- " ++ fieldLine fv) = false
        /\ getIndent (repeat SP m1 ++ str "- " ++ fieldLine fv) = m1.
    Proof.
      intros [Htype Hall]. destruct r as [|fv rest].
      - exfalso. apply HT. now rewrite <- Htype.
      - exists fv, rest. inversion Hall as [|? ? Hplain _]; subst.
        repeat split.
        + now apply dashLine_isBlank.
        + rewrite getIndent_spaces.
          change (getIndent (str "- " ++ fieldLine fv)) with 0. lia.
    Qed.

Lemma itemLines_count (recs : list (list (StructField * value float64))) :
      Forall (listItem T) recs ->
      length recs <= length (flat_map (itemLines opts) recs).
    Proof.
      induction 1 as [|r recs Hitem _ IH]; [simpl; lia|].
      destruct (itemLines_head Hitem) as [fv [rest [-> _]]].
      cbn [flat_map length]. rewrite itemLines_eq, length_app.
      cbn [length]. lia.
    Qed.

    (** [decodeStructFromListItem] on the lines of an item. *)
Lemma decodeStructFromListItem_item (fv : StructField * value float64)
      (rest : list (StructField * value float64))
      (pre post : list gostring) :
      listItem T (fv :: rest) ->
      blockEnd (m1 + 2) post ->
      decodeStructFromListItem (zeroRecord T) (fieldLine fv) (m1 + 2)
        (cursor pre (map (fun fv => repeat SP m2 ++ fieldLine fv) rest
                       ++ post))
      = Ok (fv :: rest,
            cursor (pre ++ map (fun fv => repeat SP m2 ++ fieldLine fv) rest)
              post).
    Proof.
      intros [Htype Hall] Hend.
      pose proof (scalars_shape Hall) as Hshape.
      assert (Hnd : NoDup (names (fv :: rest)))
        by (rewrite <- names_typeFields, Htype; exact Hnames).
      pose proof (lookup_record Hshape Hall Hnd) as Hlook.
      rewrite <- Htype. clear Htype.
      destruct fv as [f v].
      inversion Hall as [|? ? Hplain Hall']; subst.
      change (zeroRecord (typeFields ((f, v) :: rest)))
        with ((f, zero (typeOf v)) :: zeroRecord (typeFields rest)) in *.
      inversion Hshape as [|? ? ? ? [_ Hz] Hshape']; subst.
      cbn [snd] in Hz.
      set (z0 := zero (typeOf v)) in *.
      set (zrest := zeroRecord (typeFields rest)) in *.
      unfold decodeStructFromListItem. cbv zeta.
      pose proof Hplain as [Hexp [Hkey [Hsc [Hne [Htrim [Hlf Hset]]]]]].
      cbn [fst snd] in *.
      rewrite fieldLine_eq. cbn [fst snd].
      rewrite (keyLine_Contains _ _), (keyLine_SplitN2 _ Hkey).
      rewrite (keyLine_key Hkey), (keyLine_value Htrim).
      pose proof (Hlook 0 (f, v) eq_refl) as Hl0. cbn [fst plus length] in Hl0.
      pose proof (@setNamed_middle _ [] zrest f z0 v _ Hz Hset Hl0) as Hfirst.
      run_with Hfirst. cbn [bind app].
      assert (Hm : m1 + 2 <= m2) by (unfold m1, m2; lia).
      apply (@listItemLines_fields _ (m1 + 2) m2 Hm rest zrest [(f, v)]
               pre post); [exact Hall'|exact Hshape'| |exact Hend|].
      - intros j fv Hj. exact (Hlook (S j) fv Hj).
      - rewrite cursor_lines, length_app, length_map.
        pose proof (blockEnd_nonempty Hend) as Hpost. unfold gostring in *. lia.
    Qed.

    (** One turn of the loop of [decodeSlice] on the lines of an item. *)
Lemma sliceItems_item (n : nat) (acc : list (value float64))
      (r : list (StructField * value float64)) (pre post : list gostring) :
      listItem T r ->
      blockEnd (m1 + 2) post ->
      sliceItems (S n) (TStruct T) 2
        (cursor pre (itemLines opts r ++ post)) acc
      = sliceItems n (TStruct T) 2
          (cursor (pre ++ itemLines opts r) post) (acc ++ [VStruct r]).
    Proof.
      intros Hitem Hend.
      destruct (itemLines_head Hitem) as [fv [rest [-> [Hblank Hind]]]].
      pose proof Hitem as [_ Hall].
      inversion Hall as [|? ? Hplain _]; subst.
      destruct (fieldLine_TrimSpace Hplain) as [Hne Htrim].
      rewrite itemLines_eq. cbn [app sliceItems].
      rewrite cursor_hasMore by exact Hblank. cbn [negb]. cbv iota.
      rewrite cursor_skip by exact Hblank.
      rewrite cursor_hasMore by exact Hblank. cbn [negb]. cbv iota.
      rewrite cursor_current. cbv zeta.
      rewrite Hind.
      replace (m1 <? 2) with false
        by (symmetry; apply Nat.ltb_ge; unfold m1; lia).
      rewrite andb_false_r. cbv iota.
      rewrite TrimSpace_spaces, (dashLine_TrimSpace Hne Htrim).
      change (HasPrefix (str "- " ++ fieldLine fv) (str "- "))
        with (HasPrefix (fieldLine fv) []).
      rewrite HasPrefix_nil. cbn [negb]. cbv iota.
      change (skipn 2 (str "- " ++ fieldLine fv)) with (fieldLine fv).
      rewrite Htrim. cbn [zero]. fold (zeroRecord T).
      replace (Contains (fieldLine fv) (str ":")) with true.
      2:{ symmetry. rewrite fieldLine_eq. apply keyLine_Contains. }
      rewrite cursor_advance.
      pose proof (decodeStructFromListItem_item
                    (pre ++ [repeat SP m1 ++ str "- " ++ fieldLine fv])
                    Hitem Hend) as Hrun.
      run_with Hrun.
      cbn [bind fst snd]. now rewrite <- app_assoc.
    Qed.

    (** The loop of [decodeSlice] over the items of a list. *)
Lemma sliceItems_items :
      forall (recs : list (list (StructField * value float64)))
             (acc : list (value float64)) (pre post : list gostring)
             (n : nat),
        Forall (listItem T) recs ->
        blockEnd 2 post ->
        length recs < n ->
        sliceItems n (TStruct T) 2
          (cursor pre (flat_map (itemLines opts) recs ++ post)) acc
        = Ok (acc ++ map VStruct recs,
              cursor (pre ++ flat_map (itemLines opts) recs) post).
    Proof.
      induction recs as [|r recs IH]; intros acc pre post n Hall Hend Hn.
      - cbn [flat_map map app]. rewrite !app_nil_r.
        destruct n as [|n]; [simpl in Hn; lia|]. cbn [sliceItems].
        destruct (blockEnd_stop pre Hend) as [Hno|[Hmore [Hskip Hlt]]].
        + now rewrite Hno.
        + rewrite Hmore. cbn [negb]. cbv iota.
          rewrite Hskip, Hmore. cbn [negb]. cbv iota zeta.
          now rewrite Hlt.
      - inversion Hall as [|? ? Hitem Hall']; subst.
        destruct n as [|n]; [simpl in Hn; lia|].
        cbn [flat_map map]. rewrite <- app_assoc.
        rewrite sliceItems_item; [|exact Hitem|].
        + rewrite IH; [|exact Hall'|exact Hend|simpl in Hn; lia].
          now rewrite <- !app_assoc.
        + destruct recs as [|r' recs'].
          * cbn [flat_map app]. apply (blockEnd_weaken Hend). lia.
          * inversion Hall' as [|? ? Hitem' _]; subst.
            destruct (itemLines_head Hitem')
              as [fv [rest [-> [Hblank Hind]]]].
            right. eexists _, _. cbn [flat_map].
            rewrite itemLines_eq. cbn [app].
            split; [reflexivity|]. split; [exact Hblank|]. lia.
    Qed.

    (** [decodeValue] on the block of a list. *)
Lemma decodeValue_list_block (fuel : nat)
      (old : option (list (value float64)))
      (recs : list (list (StructField * value float64)))
      (pre post : list gostring) :
      recs <> [] -> Forall (listItem T) recs ->
      blockEnd 2 post ->
      decodeValue (S fuel) (VSlice (TStruct T) old) 2
        (cursor pre (flat_map (itemLines opts) recs ++ post))
      = Ok (VSlice (TStruct T) (Some (map VStruct recs)),
            cursor (pre ++ flat_map (itemLines opts) recs) post).
    Proof.
      intros Hne Hall Hend.
      cbn [decodeValue]. unfold decodeValue_body.
      pose proof (@sliceItems_items recs [] pre post
                    (length (lines (cursor pre (flat_map (itemLines opts) recs
                                                  ++ post))))
                    Hall Hend) as Hrun.
      destruct recs as [|r recs]; [congruence|].
      inversion Hall as [|? ? Hitem _]; subst.
      destruct (itemLines_head Hitem) as [fv [rest [-> [Hblank Hind]]]].
      cbn [flat_map] in *. rewrite itemLines_eq in *. cbn [app] in *.
      rewrite cursor_skip, cursor_hasMore by exact Hblank.
      cbn [negb]. cbv iota. unfold decodeSlice.
      match type of Hrun with
      | _ -> ?lhs = _ =>
          match goal with |- bind ?run _ = _ => change run with lhs end
      end.
      rewrite Hrun; [reflexivity|].
      rewrite cursor_lines. cbn [length].
      pose proof (blockEnd_nonempty Hend) as Hpost.
      inversion Hall as [|? ? _ Hall']; subst.
      pose proof (itemLines_count Hall') as Hcount.
      rewrite !length_app, length_map. unfold gostring in *. lia.
    Qed.

  End Items.

Lemma listHeader_eq (name : gostring) (n : nat) :
    listHeader name n = (name ++ lenTag n ++ [] ++ ["]"%char]) ++ [":"%char].
  Proof. unfold listHeader. rewrite <- !app_assoc. reflexivity. Qed.

  (** The loop of [decodeStruct] on the header line of a list: the block
      below it is read by [decodeValue], two spaces in. *)
Lemma structLines_list_header
    (rec : value float64 -> nat -> decoder -> result (value float64 * decoder))
    (n : nat) (fm : fieldMap)
    (done rest : list (StructField * value float64)) (f : StructField)
    (v : value float64) (N : nat) (pre tail : list gostring) :
    bareKey (getFieldName f) ->
    (Z.of_nat N < 2 ^ 63)%Z ->
    lookup fm (getFieldName f) = Some (length done) ->
    structLines rec (S n) fm 0 (done ++ (f, v) :: rest)
      (cursor pre (listHeader (getFieldName f) N :: tail))
    = r <- rec v 2 (cursor (pre ++ [listHeader (getFieldName f) N]) tail) ;;
      structLines rec n fm 0
        (setField (done ++ (f, v) :: rest) (length done) (fst r)) (snd r).
  Proof.
    intros Hname Hlen Hlook.
    set (name := getFieldName f) in *.
    set (hdr := name ++ lenTag N ++ [] ++ ["]"%char]).
    assert (Hk : lineKey hdr).
    { apply header_lineKey; [exact Hname|reflexivity|].
      intros [H|[]]. discriminate H. }
    pose proof (colonLine_bare Hk) as Htrim.
    assert (Hblank : isBlank (hdr ++ [":"%char]) = false)
      by (eapply colonLine_isBlank; [exact Hk|reflexivity|exact Htrim]).
    rewrite listHeader_eq. fold hdr.
    cbn [structLines].
    rewrite cursor_hasMore by exact Hblank. cbn [negb]. cbv iota.
    rewrite cursor_skip by exact Hblank.
    rewrite cursor_hasMore by exact Hblank. cbn [negb]. cbv iota.
    rewrite cursor_current. cbv zeta.
    change (0 <? 0) with false. cbn [andb]. cbv iota.
    rewrite Htrim, (colonLine_Contains hdr). cbn [negb]. cbv iota.
    rewrite (colonLine_SplitN2 Hk).
    rewrite (proj1 (proj2 Hk)).
    change (TrimSpace []) with (@nil ascii).
    assert (Hparse : parseArrayDeclaration hdr = (Z.of_nat N, [])).
    { destruct Hname as [Hn [_ [_ [Hbr [Hlf _]]]]].
      now apply parse_plain_header. }
    assert (Hextract : extractKeyFromArray hdr = name).
    { destruct Hname as [Hn [_ [_ [Hbr [Hlf _]]]]].
      now apply extract_header_key. }
    rewrite Hparse.
    replace (0 <=? Z.of_nat N)%Z with true by lia.
    rewrite Hextract, Hlook, nth_error_middle.
    unfold decodeArrayField. cbn [isEmpty negb].
    rewrite (getIndent_key [":"%char] (proj1 Hk) (proj1 (proj2 Hk))).
    rewrite cursor_advance. reflexivity.
  Qed.

  (** One turn of the loop of [decodeStruct] on a list of records: its
      header line and its items. *)
Lemma structLines_list_field (fuel n : nat) (fm : fieldMap)
    (done rest : list (StructField * value float64)) (f : StructField)
    (T : list (StructField * type)) (old : option (list (value float64)))
    (recs : list (list (StructField * value float64)))
    (pre post : list gostring) :
    bareKey (getFieldName f) ->
    recs <> [] -> T <> [] -> Forall (listItem T) recs ->
    NoDup (map (fun ft => getFieldName (fst ft)) T) ->
    (Z.of_nat (length recs) < 2 ^ 63)%Z ->
    blockEnd 2 post ->
    lookup fm (getFieldName f) = Some (length done) ->
    let block := listHeader (getFieldName f) (length recs)
                   :: flat_map (itemLines opts) recs in
    structLines (decodeValue (S fuel)) (S n) fm 0
      (done ++ (f, VSlice (TStruct T) old) :: rest)
      (cursor pre (block ++ post))
    = structLines (decodeValue (S fuel)) n fm 0
        (done ++ (f, VSlice (TStruct T) (Some (map VStruct recs))) :: rest)
        (cursor (pre ++ block) post).
  Proof.
    intros Hname Hne HT Hall Hnd Hlen Hend Hlook block. subst block.
    cbn [app].
    rewrite (@structLines_list_header (decodeValue (S fuel)) n fm done rest f
               (VSlice (TStruct T) old) (length recs) pre
               (flat_map (itemLines opts) recs ++ post) Hname Hlen Hlook).
    pose proof (decodeValue_list_block HT Hnd fuel old
                  (pre ++ [listHeader (getFieldName f) (length recs)])
                  Hne Hall Hend) as Hrun.
    run_with Hrun.
    cbn [bind fst snd]. rewrite setField_middle.
    now rewrite <- app_assoc.
  Qed.

End IndentedLines.

(** * Documents *)

Section Documents.

  Context {R : GoRuntime}.

  Import Strings StringFacts SplitFacts NumberFacts.

  Variable opts : MarshalOptions.

  Hypothesis Hdelim : knownDelimiter opts.

Lemma unlines_app (a b : list gostring) :
    unlines (a ++ b) = unlines a ++ unlines b.
  Proof. unfold unlines. now rewrite map_app, concat_app. Qed.

Lemma scalar_type (e : value float64) (t : type) :
    isScalar e = true -> typeOf e = t -> derefType t = t /\ isComposite t = false.
  Proof. intros He <-. destruct e; try discriminate He; now split. Qed.

Lemma encodeSlice_scalars (t : type) (elems : list (value float64))
    (depth : Z) (key : gostring) :
    elems <> [] -> Forall cellSafe elems ->
    Forall (fun e => typeOf e = t) elems ->
    encodeSlice opts t elems depth key
    = Ok (encodePrimitiveSlice opts elems depth key).
  Proof.
    intros Hne Hsafe Htype. destruct elems as [|e elems]; [congruence|].
    inversion Hsafe as [|? ? [[Hsc _] _] _]; subst.
    inversion Htype as [|? ? Ht _]; subst.
    unfold encodeSlice. destruct e; try discriminate Hsc; reflexivity.
  Qed.

Lemma delimiter_not_LF (sep : ascii) :
    In sep [","%char; "|"%char; TAB] -> sep <> LF.
  Proof. intros [<-|[<-|[<-|[]]]]; discriminate. Qed.

Lemma Join_no_LF (toks : list gostring) (sep : ascii) :
    In sep [","%char; "|"%char; TAB] ->
    Forall (fun tok => ~ In LF tok) toks -> ~ In LF (Join toks [sep]).
  Proof.
    intros Hsep Hall Hin.
    apply In_Join in Hin as [[p [Hp Hin]]|[Heq _]].
    - rewrite Forall_forall in Hall. now apply (Hall _ Hp).
    - symmetry in Heq. now apply (delimiter_not_LF Hsep).
  Qed.

Lemma repeat_SP_no_LF (n : nat) : ~ In LF (repeat SP n).
  Proof. intros H. apply repeat_spec in H. discriminate H. Qed.

Lemma inlineText_no_LF (elems : list (value float64)) :
    Forall cellSafe elems -> ~ In LF (inlineText opts elems).
  Proof.
    intros Hsafe.
    destruct (knownDelimiter_byte Hdelim) as [sep [Hsep Hin]].
    unfold inlineText. rewrite Hsep. apply Join_no_LF; [exact Hin|].
    apply Forall_map. eapply Forall_impl; [|exact Hsafe].
    now intros e [[_ [_ [_ [Hlf _]]]] _].
  Qed.

Lemma rowLine_no_LF (T : list (StructField * type))
    (r : list (StructField * value float64)) (depth : Z) :
    tableRow T r -> ~ In LF (rowLine opts depth r (seq 0 (length T))).
  Proof.
    intros Hrow.
    destruct (knownDelimiter_byte Hdelim) as [sep [Hsep Hin]].
    unfold rowLine, writeIndent. rewrite Hsep. intros H.
    apply in_app_or in H as [H|H]; [now apply repeat_SP_no_LF in H|].
    revert H. apply Join_no_LF; [exact Hin|].
    rewrite <- (tableRow_length Hrow). unfold cells.
    rewrite (map_nth_error_seq (fun fv => writePrimitiveValue (snd fv)) [] r).
    apply Forall_map. destruct Hrow as [_ Hr].
    eapply Forall_impl; [|exact Hr].
    now intros fv [_ [_ [[[_ [_ [_ [Hlf _]]]] _] _]]].
  Qed.

Lemma nestedLine_no_LF (depth : Z) (fv : StructField * value float64) :
    plainField fv -> ~ In LF (nestedLine opts depth fv).
  Proof.
    intros Hplain H. unfold nestedLine, writeIndent in H.
    apply in_app_or in H as [H|H]; [now apply repeat_SP_no_LF in H|].
    revert H. now apply fieldLine_no_LF.
  Qed.

Lemma itemLines_no_LF (T : list (StructField * type))
    (r : list (StructField * value float64)) :
    listItem T r -> Forall (fun l => ~ In LF l) (itemLines opts r).
  Proof.
    intros [_ Hall]. destruct r as [|fv rest]; [constructor|].
    inversion Hall as [|? ? Hplain Hall']; subst. cbn [itemLines].
    constructor.
    - unfold writeIndent. intros H.
      apply in_app_or in H as [H|H]; [now apply repeat_SP_no_LF in H|].
      apply in_app_or in H as [H|H].
      + cbn in H. intuition discriminate.
      + revert H. now apply fieldLine_no_LF.
    - apply Forall_map. eapply Forall_impl; [|exact Hall'].
      intros fv' Hfv. now apply nestedLine_no_LF.
  Qed.

  (** The block of a nested record, as [encodeStruct] writes it. *)
Lemma encodeStruct_nested (name : gostring)
    (inner : list (StructField * value float64)) :
    name <> [] -> Forall plainField inner ->
    encodeValue opts (VStruct inner) 0 name
    = Ok (unlines (blockLine name :: map (nestedLine opts 1) inner)).
  Proof.
    intros Hname Hall. cbn [encodeValue]. unfold encodeStruct.
    assert (Hemp : isEmpty name = false) by now destruct name.
    unfold blockHeader, blockDepth. rewrite Hemp, writeIndent_zero.
    match goal with
    | |- bind (?loop inner) _ = _ =>
        assert (Hloop : loop inner
                        = Ok (unlines (map (nestedLine opts 1) inner)))
    end.
    { induction Hall as [|[f v] inner [Hexp [Hkey Hsafe]] _ IH];
        [reflexivity|].
      cbn [fst snd] in *.
      destruct (bareKey_live f Hexp Hkey) as [Hskip Hemp'].
      unfold skipped in Hskip. apply orb_false_iff in Hskip as [He Hd].
      rewrite He, Hd, IH.
      rewrite encodeValue_scalar by apply Hsafe.
      unfold encodePrimitive. rewrite Hemp'.
      cbn [bind]. unfold unlines, nestedLine, fieldLine.
      cbn [map concat fst snd]. now rewrite <- !app_assoc. }
    rewrite Hloop. cbn [bind]. unfold unlines, blockLine.
    cbn [map concat app]. now rewrite <- !app_assoc.
  Qed.

  (** The lines of an item of a list, as [encodeListItem] writes them. *)
Lemma encodeListItem_rest (depth : Z)
    (rest : list (StructField * value float64)) :
    Forall plainField rest ->
    encodeListItem_from opts false rest depth
    = unlines (map (nestedLine opts depth) rest).
  Proof.
    induction 1 as [|[f v] rest [Hexp [Hkey _]] _ IH]; [reflexivity|].
    cbn [fst snd] in *.
    destruct (bareKey_live f Hexp Hkey) as [Hskip _].
    unfold skipped in Hskip. apply orb_false_iff in Hskip as [He Hd].
    cbn [encodeListItem_from]. rewrite He, Hd, IH.
    unfold unlines, nestedLine, fieldLine. cbn [map concat fst snd].
    now rewrite <- !app_assoc.
  Qed.

Lemma encodeListItem_lines (r : list (StructField * value float64)) :
    r <> [] -> Forall plainField r ->
    writeIndent opts 1 ++ str "- " ++ encodeListItem opts r 2
    = unlines (itemLines opts r).
  Proof.
    intros Hne Hall. destruct r as [|[f v] rest]; [congruence|].
    inversion Hall as [|? ? [Hexp [Hkey _]] Hall']; subst.
    cbn [fst snd] in *.
    destruct (bareKey_live f Hexp Hkey) as [Hskip _].
    unfold skipped in Hskip. apply orb_false_iff in Hskip as [He Hd].
    unfold encodeListItem. cbn [encodeListItem_from]. rewrite He, Hd.
    rewrite (encodeListItem_rest 2 Hall').
    unfold unlines. cbn [itemLines map concat].
    unfold fieldLine. cbn [fst snd]. now rewrite <- !app_assoc.
  Qed.

Lemma encodeListSlice_items (name : gostring)
    (T : list (StructField * type))
    (recs : list (list (StructField * value float64))) :
    T <> [] -> Forall (listItem T) recs ->
    encodeListSlice opts (map VStruct recs) 0 name
    = Ok (unlines (listHeader name (length recs)
                     :: flat_map (itemLines opts) recs)).
  Proof.
    intros HT Hall. unfold encodeListSlice.
    match goal with
    | |- bind (?loop (map VStruct recs)) _ = _ =>
        assert (Hloop : loop (map VStruct recs)
                        = Ok (unlines (flat_map (itemLines opts) recs)))
    end.
    { induction Hall as [|r recs [Htype Hr] _ IH]; [reflexivity|].
      cbn [map deref]. cbv zeta. rewrite IH. cbn [bind flat_map].
      rewrite unlines_app, <- encodeListItem_lines;
        [|intros ->; apply HT; now rewrite <- Htype|exact Hr].
      now rewrite <- !app_assoc. }
    rewrite Hloop. cbn [bind]. rewrite writeIndent_zero, length_map.
    unfold unlines, listHeader. cbn [map concat app].
    now rewrite <- !app_assoc.
  Qed.

  (** What the encoder and the decoder need of the lines of a field. *)
Lemma fieldLines_facts (f : StructField) (old v : value float64)
    (ls : list gostring) :
    fieldLines opts f old v ls ->
    IsExported f = true
    /\ bareKey (getFieldName f)
    /\ encodeValue opts v 0 (getFieldName f) = Ok (unlines ls)
    /\ Forall (fun l => ~ In LF l) ls
    /\ exists l rest, ls = l :: rest /\ isBlank l = false /\ getIndent l = 0.
  Proof.
    intros [f0 old0 v0 Hplain Htype
           |f0 t old0 elems Hexp Hname Hne Hsafe Htype Hlen
           |f0 T old0 recs Hexp Hname Htab Hne HT Hall Hnd Hcols Hlen
           |f0 old0 inner Hexp Hname Hind Hne Hall Hnd Htype
           |f0 T old0 recs Hexp Hname Htab Hind Hne HT Hall Hnd Hlen].
    - pose proof Hplain as [Hexp [Hkey [Hsc [Htok [Htrim _]]]]].
      cbn [fst snd] in *.
      refine (conj Hexp (conj Hkey (conj _ (conj _ _)))).
      + rewrite encodeValue_scalar by exact Hsc.
        unfold encodePrimitive. rewrite writeIndent_zero.
        replace (isEmpty (getFieldName f0)) with false
          by (destruct Hkey as [Hk _]; now destruct (getFieldName f0)).
        unfold unlines, fieldLine. cbn [map concat fst snd app].
        now rewrite app_nil_r, <- !app_assoc.
      + constructor; [|constructor]. now apply fieldLine_no_LF.
      + exists (fieldLine (f0, v0)), []. split; [reflexivity|]. split.
        * rewrite fieldLine_eq. now apply keyLine_isBlank.
        * now apply fieldLine_getIndent.
    - assert (Hk : lineKey (getFieldName f0 ++ lenTag (length elems)
                              ++ [] ++ ["]"%char])).
      { apply header_lineKey; [exact Hname|reflexivity|].
        intros [H|[]]. discriminate H. }
      destruct (inlineText_token Hdelim Hne Hsafe) as [Htok Htt].
      refine (conj Hexp (conj Hname (conj _ (conj _ _)))).
      + cbn [encodeValue]. rewrite (encodeSlice_scalars 0 _ Hne Hsafe Htype).
        rewrite encodePrimitiveSlice_inlineText, writeIndent_zero.
        unfold unlines, inlineLine. cbn [map concat app].
        now rewrite app_nil_r, <- !app_assoc.
      + constructor; [|constructor]. unfold inlineLine. intros H.
        destruct Hname as [_ [_ [_ [_ [Hlf _]]]]].
        apply in_app_or in H as [H|H]; [now apply Hlf|].
        apply in_app_or in H as [H|H].
        * revert H. apply lenTag_no_byte; [reflexivity|discriminate].
        * apply in_app_or in H as [H|H].
          -- cbn in H. intuition discriminate.
          -- revert H. now apply inlineText_no_LF.
      + eexists _, []. split; [reflexivity|]. rewrite inlineLine_eq. split.
        * eapply colonLine_isBlank; [exact Hk|reflexivity|].
          now apply colonLine_token.
        * apply getIndent_key; apply Hk.
    - pose proof (table_lineKey (length recs) Hname Hcols) as Hk.
      refine (conj Hexp (conj Hname (conj _ (conj _ _)))).
      + rewrite (@encodeSlice_rows R opts T recs 0 _ Htab Hne Hall).
        rewrite (@encodeTabularSlice_rows R opts T recs 0 _ Hne Hall).
        rewrite writeIndent_zero.
        unfold unlines, tableHeader. cbn [map concat app].
        rewrite map_map. now rewrite <- !app_assoc.
      + constructor; [now apply table_no_LF|].
        apply Forall_map. eapply Forall_impl; [|exact Hall].
        intros r Hr. now apply rowLine_no_LF.
      + eexists _, _. split; [reflexivity|]. rewrite tableHeader_eq. split.
        * eapply colonLine_isBlank; [exact Hk|reflexivity|].
          now apply colonLine_bare.
        * apply getIndent_key; apply Hk.
    - pose proof (bareKey_lineKey Hname) as Hk.
      refine (conj Hexp (conj Hname (conj _ (conj _ _)))).
      + apply encodeStruct_nested; [apply Hname|exact Hall].
      + constructor.
        * unfold blockLine. intros H.
          destruct Hname as [_ [_ [_ [_ [Hlf _]]]]].
          apply in_app_or in H as [H|[H|[]]]; [now apply Hlf|discriminate H].
        * apply Forall_map. eapply Forall_impl; [|exact Hall].
          intros fv Hfv. now apply nestedLine_no_LF.
      + eexists _, _. split; [reflexivity|].
        unfold blockLine. change (str ":") with [":"%char]. split.
        * eapply colonLine_isBlank; [exact Hk|reflexivity|].
          now apply colonLine_bare.
        * apply getIndent_key; apply Hk.
    - assert (Hk : lineKey (getFieldName f0 ++ lenTag (length recs)
                              ++ [] ++ ["]"%char])).
      { apply header_lineKey; [exact Hname|reflexivity|].
        intros [H|[]]. discriminate H. }
      refine (conj Hexp (conj Hname (conj _ (conj _ _)))).
      + cbn [encodeValue]. unfold encodeSlice.
        destruct recs as [|r recs]; [congruence|].
        cbn [map derefType]. rewrite Htab. cbn [andb].
        change (VStruct r :: map VStruct recs) with (map VStruct (r :: recs)).
        now apply (encodeListSlice_items _ HT).
      + constructor.
        * unfold listHeader. intros H.
          destruct Hname as [_ [_ [_ [_ [Hlf _]]]]].
          apply in_app_or in H as [H|H]; [now apply Hlf|].
          apply in_app_or in H as [H|H].
          -- revert H. apply lenTag_no_byte; [reflexivity|discriminate].
          -- cbn in H. intuition discriminate.
        * apply Forall_flat_map. eapply Forall_impl; [|exact Hall].
          intros r Hr. now apply (@itemLines_no_LF T).
      + eexists _, _. split; [reflexivity|]. rewrite listHeader_eq. split.
        * eapply colonLine_isBlank; [exact Hk|reflexivity|].
          now apply colonLine_bare.
        * apply getIndent_key; apply Hk.
  Qed.

  (** The lines of the fields that follow end a block. *)
Lemma documentLines_blockEnd target fields ls (e : nat) :
    documentLines opts target fields ls -> 0 < e -> blockEnd e (ls ++ [[]]).
  Proof.
    intros [|f old v ls0 target0 fields0 rest Hf _] He; [now left|].
    destruct (fieldLines_facts Hf)
      as [_ [_ [_ [_ [l [ls' [-> [Hblank Hind]]]]]]]].
    right. eexists _, _. rewrite <- !app_assoc. cbn [app].
    split; [reflexivity|]. split; [exact Hblank|lia].
  Qed.

Lemma structLines_document (fuel : nat) (fm : fieldMap) :
    forall target fields ls,
      documentLines opts target fields ls ->
      forall (done : list (StructField * value float64))
             (pre : list gostring) (n : nat),
        (forall j fv, nth_error fields j = Some fv ->
                      lookup fm (getFieldName (fst fv))
                      = Some (length done + j)) ->
        length fields <= n ->
        structLines (decodeValue (S fuel)) n fm 0 (done ++ target)
          (cursor pre (ls ++ [[]]))
        = Ok (done ++ fields, cursor (pre ++ ls) [[]]).
  Proof.
    induction 1 as [|f old v ls target fields rest Hf Hrest IH];
      intros done pre n Hlook Hn.
    - cbn [app]. rewrite !app_nil_r.
      destruct n; cbn [structLines];
        now rewrite cursor_end by reflexivity.
    - destruct n as [|n]; [simpl in Hn; lia|].
      pose proof (Hlook 0 (f, v) eq_refl) as Hl0. cbn [fst] in Hl0.
      rewrite Nat.add_0_r in Hl0.
      pose proof (documentLines_blockEnd Hrest (e := 2) ltac:(lia)) as Hend.
      assert (Hnext :
                structLines (decodeValue (S fuel)) (S n) fm 0
                  (done ++ (f, old) :: target)
                  (cursor pre (ls ++ rest ++ [[]]))
                = structLines (decodeValue (S fuel)) n fm 0
                    (done ++ (f, v) :: target)
                    (cursor (pre ++ ls) (rest ++ [[]]))).
      { destruct Hf as [f0 old0 v0 Hplain Htype
                       |f0 t old0 elems Hexp Hname Hne Hsafe Htype Hlen
                       |f0 T old0 recs Hexp Hname Htab Hne HT Hall Hnd
                          Hcols Hlen
                       |f0 old0 inner Hexp Hname Hind Hne Hall Hnd Htype
                       |f0 T old0 recs Hexp Hname Htab Hind Hne HT Hall Hnd
                          Hlen].
        - now apply structLines_plain_field.
        - now apply structLines_inline_field.
        - now apply structLines_table_field.
        - now apply structLines_nested_field.
        - now apply structLines_list_field. }
      rewrite <- app_assoc, Hnext.
      replace (done ++ (f, v) :: target) with ((done ++ [(f, v)]) ++ target)
        by now rewrite <- app_assoc.
      rewrite IH.
      + now rewrite <- !app_assoc.
      + intros j fv Hj. rewrite (Hlook (S j) fv Hj).
        rewrite length_app. f_equal. simpl. lia.
      + simpl in Hn. lia.
  Qed.

Lemma documentLines_encode target fields ls :
    documentLines opts target fields ls ->
    encodeValue opts (VStruct fields) 0 [] = Ok (unlines ls).
  Proof.
    intros Hdoc. cbn [encodeValue]. unfold encodeStruct.
    cbn [blockHeader blockDepth isEmpty app].
    match goal with
    | |- bind (?loop fields) _ = _ =>
        assert (Hloop : loop fields = Ok (unlines ls))
    end.
    { induction Hdoc as [|f old v ls target fields rest Hf _ IH];
        [reflexivity|].
      destruct (fieldLines_facts Hf) as [Hexp [Hkey [Henc _]]].
      destruct (bareKey_live f Hexp Hkey) as [Hskip _].
      unfold skipped in Hskip. apply orb_false_iff in Hskip as [He Hd].
      rewrite He, Hd, IH, Henc. cbn [bind]. now rewrite unlines_app. }
    now rewrite Hloop.
  Qed.

Lemma documentLines_no_LF target fields ls :
    documentLines opts target fields ls -> Forall (fun l => ~ In LF l) ls.
  Proof.
    induction 1 as [|f old v ls target fields rest Hf _ IH]; [constructor|].
    apply Forall_app. split; [|exact IH].
    now destruct (fieldLines_facts Hf) as [_ [_ [_ [H _]]]].
  Qed.

Lemma documentLines_shape target fields ls :
    documentLines opts target fields ls ->
    names target = names fields
    /\ Forall (fun fv => IsExported (fst fv) = true
                         /\ getFieldName (fst fv) <> str "-") target
    /\ typeOf (VStruct target) = typeOf (VStruct fields).
  Proof.
    induction 1 as [|f old v ls target fields rest Hf _ [IHn [IHl IHt]]];
      [repeat split; constructor|].
    destruct (fieldLines_facts Hf) as [Hexp [Hkey _]].
    repeat split.
    - unfold names in *. cbn [map fst]. now rewrite IHn.
    - constructor; [|exact IHl]. split; [exact Hexp|]. apply Hkey.
    - cbn [typeOf map fst snd] in *. injection IHt as IHt.
      rewrite IHt. do 3 f_equal.
      destruct Hf; [assumption|reflexivity|reflexivity|assumption
                   |reflexivity].
  Qed.

Lemma documentLines_length target fields ls :
    documentLines opts target fields ls -> length fields <= length ls.
  Proof.
    induction 1 as [|f old v ls target fields rest Hf _ IH]; [simpl; lia|].
    destruct (fieldLines_facts Hf) as [_ [_ [_ [_ [l [r [-> _]]]]]]].
    cbn [length app]. rewrite length_app. lia.
  Qed.

  (** X15.  A document round-trips.  A record whose fields are plain
      scalars, sequences of scalars that are not empty, tables of records
      (with tabular mode on), nested records of plain scalars and lists of
      records (with tabular mode off; both with an indentation of two at
      least), under keys that a line carries and no two the same, is
      written as the lines of its fields, and [Unmarshal] of that text into
      a record of the same type gives the record again. *)
Theorem document_round_trip
    (target fields : list (StructField * value float64))
    (ls : list gostring) (fuel : nat) :
    documentLines opts target fields ls ->
    NoDup (names fields) ->
    MarshalWithOptions (Some (VStruct fields)) opts = Ok (unlines ls)
    /\ Unmarshal (S (S fuel)) (unlines ls)
         (Some (VPtr (typeOf (VStruct fields)) (Some (VStruct target))))
       = Ok (VPtr (typeOf (VStruct fields)) (Some (VStruct fields))).
  Proof.
    intros Hdoc Hnd. split; [now apply (documentLines_encode Hdoc)|].
    destruct (documentLines_shape Hdoc) as [Hnames [Hlive _]].
    unfold Unmarshal, newDecoder, decode, unlines.
    rewrite (Split_lines (documentLines_no_LF Hdoc)).
    change {| lines := ls ++ [[]]; pos := 0 |} with (cursor [] (ls ++ [[]])).
    cbn [decodeValue]. unfold decodeValue_body at 1.
    assert (Hrun : forall n,
               length fields <= n ->
               structLines (decodeValue (S fuel)) n
                 (buildFieldMap true 0 target []) 0 target
                 (cursor [] (ls ++ [[]]))
               = Ok (fields, cursor ls [[]])).
    { intros n Hn.
      apply (@structLines_document fuel (buildFieldMap true 0 target [])
               target fields ls Hdoc [] [] n); [|exact Hn].
      intros j fv Hj.
      apply (@lookup_buildFieldMap R true target 0 [] j).
      - exact Hlive.
      - now rewrite Hnames.
      - rewrite Hnames. unfold names. now rewrite nth_error_map, Hj. }
    pose proof (documentLines_length Hdoc) as Hlen.
    destruct Hdoc as [|f old v ls0 target fields rest Hf Hrest].
    - reflexivity.
    - destruct (fieldLines_facts Hf)
        as [_ [_ [_ [_ [l [ls' [-> [Hblank _]]]]]]]].
      cbn [app] in *.
      rewrite cursor_skip, cursor_hasMore by exact Hblank.
      cbn [negb]. cbv iota. unfold decodeStruct.
      rewrite Hrun; [reflexivity|].
      rewrite cursor_lines. cbn [length] in *.
      rewrite length_app. lia.
  Qed.

End Documents.

Lemma document_round_trip_witness :
  let users := [user (R := integerRuntime) 1 (str "ann");
                user (R := integerRuntime) 2 (str "bob")] in
  let home := [(tagged "City" "city", VString (str "Oslo"));
               (tagged "Zip" "zip", VInt KInt 150)] in
  let fields :=
    [(tagged "Name" "name", VString (str "Ada"));
     (tagged "Home" "home", VStruct home);
     (tagged "Tags" "tags",
      VSlice TString (Some [VString (str "x"); VString (str "y")]));
     (tagged "Users" "users",
      VSlice (TStruct userType) (Some (map VStruct users)))] in
  let target :=
    [(tagged "Name" "name", VString []);
     (tagged "Home" "home", VStruct (zeroRecord (typeFields home)));
     (tagged "Tags" "tags", VSlice TString None);
     (tagged "Users" "users", VSlice (TStruct userType) None)] in
  let text :=
    str "name: Ada" ++ [LF]
      ++ str "home:" ++ [LF]
      ++ str "  city: Oslo" ++ [LF] ++ str "  zip: 150" ++ [LF]
      ++ str "tags[2]: x,y" ++ [LF]
      ++ str "users[2]{id,name}:" ++ [LF]
      ++ str "  1,ann" ++ [LF] ++ str "  2,bob" ++ [LF] in
  let listed :=
    {| Indent := 2; Delimiter := DelimiterComma; UseTabular := false |} in
  let team :=
    [(tagged "Users" "users",
      VSlice (TStruct userType) (Some (map VStruct users)));
     (tagged "Count" "count", VInt KInt 2)] in
  let empty :=
    [(tagged "Users" "users", VSlice (TStruct userType) None);
     (tagged "Count" "count", VInt KInt 0)] in
  let list :=
    str "users[2]:" ++ [LF]
      ++ str "  - id: 1" ++ [LF] ++ str "    name: ann" ++ [LF]
      ++ str "  - id: 2" ++ [LF] ++ str "    name: bob" ++ [LF]
      ++ str "count: 2" ++ [LF] in
  (Marshal (R := integerRuntime) (Some (VStruct fields)) = Ok text
   /\ Unmarshal (R := integerRuntime) 2 text (pointerTo (VStruct target))
      = pointsTo (VStruct fields))
  /\ (MarshalWithOptions (R := integerRuntime) (Some (VStruct team)) listed
      = Ok list
      /\ Unmarshal (R := integerRuntime) 2 list (pointerTo (VStruct empty))
         = pointsTo (VStruct team)).
Proof.
  intros users home fields target text listed team empty list. split.
  - apply (@document_round_trip integerRuntime DefaultMarshalOptions
             (or_introl eq_refl) target fields
             ([str "name: Ada"]
                ++ [str "home:"; str "  city: Oslo"; str "  zip: 150"]
                ++ [str "tags[2]: x,y"]
                ++ [str "users[2]{id,name}:"; str "  1,ann"; str "  2,bob"]
                ++ [])
             0).
    + apply DocumentField;
        [|apply DocumentField;
          [|apply DocumentField;
            [|apply DocumentField; [|apply DocumentEnd]]]].
      * apply (@ScalarLines integerRuntime DefaultMarshalOptions
                 (tagged "Name" "name") (VString []) (VString (str "Ada")));
          [closed_token|reflexivity].
      * apply (@NestedLines integerRuntime DefaultMarshalOptions
                 (tagged "Home" "home") (zeroRecord (typeFields home)) home);
          try reflexivity; try discriminate;
          try (repeat constructor; closed_token).
      * apply (@InlineLines integerRuntime DefaultMarshalOptions
                 (tagged "Tags" "tags") TString None
                 [VString (str "x"); VString (str "y")]);
          try reflexivity; try discriminate;
          try (repeat constructor; closed_token).
      * apply (@TableLines integerRuntime DefaultMarshalOptions
                 (tagged "Users" "users") userType None users);
          try reflexivity; try discriminate;
          try (repeat constructor; closed_token).
    + vm_compute. repeat constructor; simpl; intuition discriminate.
  - apply (@document_round_trip integerRuntime listed
             (or_introl eq_refl) empty team
             ([str "users[2]:"; str "  - id: 1"; str "    name: ann";
               str "  - id: 2"; str "    name: bob"]
                ++ [str "count: 2"] ++ [])
             0).
    + apply DocumentField; [|apply DocumentField; [|apply DocumentEnd]].
      * apply (@ListLines integerRuntime listed
                 (tagged "Users" "users") userType None users);
          try reflexivity; try discriminate;
          try (repeat constructor; closed_token).
      * apply (@ScalarLines integerRuntime listed
                 (tagged "Count" "count") (VInt KInt 0) (VInt KInt 2));
          [closed_token|reflexivity].
    + vm_compute. repeat constructor; simpl; intuition discriminate.
Defined.

(** * The step of the decoder *)

Section ShallowIndent.

  Context {R : GoRuntime}.

  Import Strings StringFacts SplitFacts.

  Variable opts : MarshalOptions.

  (** X16.  The decoder looks for the block of a field two spaces in,
      whatever indentation the encoder was given.  With an indentation
      below two, [decodeValue] leaves the block of a nested record unread
      and returns the record as it was, at the same line; of a list it
      reads no item and returns the empty slice. *)
Theorem shallow_block_unread (fuel : nat)
    (fv : StructField * value float64) (pre post : list gostring) :
    (Indent opts < 2)%Z -> plainField fv ->
    let line := nestedLine opts 1 fv in
    let item := writeIndent opts 1 ++ str "- " ++ fieldLine fv in
    (forall old,
        decodeValue (S fuel) (VStruct old) 2 (cursor pre (line :: post))
        = Ok (VStruct old, cursor pre (line :: post)))
    /\ (forall t old,
           decodeValue (S fuel) (VSlice t old) 2 (cursor pre (item :: post))
           = Ok (VSlice t (Some []), cursor pre (item :: post))).
  Proof.
    intros Hshallow Hplain line item. subst line item.
    unfold nestedLine, writeIndent.
    set (m := Z.to_nat (1 * Indent opts)).
    assert (Hm : (m <? 2) = true) by (apply Nat.ltb_lt; unfold m; lia).
    split.
    - intros old.
      assert (Hblank : isBlank (repeat SP m ++ fieldLine fv) = false)
        by (rewrite isBlank_spaces; now apply fieldLine_isBlank).
      cbn [decodeValue]. unfold decodeValue_body.
      rewrite cursor_skip, cursor_hasMore by exact Hblank.
      cbn [negb]. cbv iota. unfold decodeStruct.
      rewrite cursor_lines. cbn [length]. rewrite Nat.add_succ_r.
      cbn [structLines].
      rewrite cursor_hasMore by exact Hblank. cbn [negb]. cbv iota.
      rewrite cursor_skip by exact Hblank.
      rewrite cursor_hasMore by exact Hblank. cbn [negb]. cbv iota.
      rewrite cursor_current. cbv zeta.
      rewrite getIndent_spaces, (fieldLine_getIndent Hplain), Nat.add_0_r.
      rewrite Hm. reflexivity.
    - intros t old.
      pose proof (dashLine_isBlank m Hplain) as Hblank.
      cbn [decodeValue]. unfold decodeValue_body.
      rewrite cursor_skip, cursor_hasMore by exact Hblank.
      cbn [negb]. cbv iota. unfold decodeSlice.
      rewrite cursor_lines. cbn [length]. rewrite Nat.add_succ_r.
      cbn [sliceItems].
      rewrite cursor_hasMore by exact Hblank. cbn [negb]. cbv iota.
      rewrite cursor_skip by exact Hblank.
      rewrite cursor_hasMore by exact Hblank. cbn [negb]. cbv iota.
      rewrite cursor_current. cbv zeta.
      rewrite getIndent_spaces.
      change (getIndent (str "- " ++ fieldLine fv)) with 0.
      rewrite Nat.add_0_r, Hm. reflexivity.
  Qed.

End ShallowIndent.

Lemma shallow_block_unread_witness :
  let narrow :=
    {| Indent := 1; Delimiter := DelimiterComma; UseTabular := true |} in
  let home :=
    [(tagged "City" "city", VString (float64 := @float64 integerRuntime) [])]
  in
  let block := cursor [str "home:"] [str " city: Oslo"; []] in
  decodeValue (R := integerRuntime) 1 (VStruct home) 2 block
  = Ok (VStruct home, block).
Proof.
  intros narrow home block.
  apply (@shallow_block_unread integerRuntime narrow 0
           (tagged "City" "city", VString (str "Oslo")) [str "home:"] [[]]).
  - reflexivity.
  - closed_token.
Defined.

(** What follows for a document written with an indentation of one: the
    lines of the nested record are read as fields of the record around
    it. *)
Lemma shallow_indent_example :
  let narrow :=
    {| Indent := 1; Delimiter := DelimiterComma; UseTabular := true |} in
  let city := tagged "City" "city" in
  let home := tagged "Home" "home" in
  let record (c h : gostring) : value (@float64 integerRuntime) :=
    VStruct [(city, VString c); (home, VStruct [(city, VString h)])] in
  let text := str "city: Rome" ++ [LF] ++ str "home:" ++ [LF]
                ++ str " city: Oslo" ++ [LF] in
  MarshalWithOptions (R := integerRuntime) (Some (record (str "Rome") (str "Oslo"))) narrow
  = Ok text
  /\ Unmarshal (R := integerRuntime) 3 text (pointerTo (record [] []))
     = pointsTo (record (str "Oslo") []).
Proof. repeat split. Qed.

(** * The cursor moves forward *)

(** The branches of a call that returned a result. *)
Ltac branches H :=
  repeat (cbv zeta in H;
          match type of H with
          | Ok _ = Ok _ => injection H as <-
          | Err _ = Ok _ => discriminate H
          | Abort _ = Ok _ => discriminate H
          | (if ?b then _ else _) = Ok _ => destruct b
          | bind ?m _ = Ok _ =>
              let E := fresh "E" in
              destruct m as [?|?|?] eqn:E; cbn [bind] in H;
              [|discriminate H..]
          | match ?x with _ => _ end = Ok _ => destruct x
          end).

Ltac forwards :=
  unfold forward in *;
  cbn [lines pos advance skipEmptyLines fst snd] in *;
  repeat match goal with H : _ /\ _ |- _ => destruct H end;
  split; [congruence|lia].

Section Forward.

  Context {R : GoRuntime}.

Lemma tabularRows_forward :
    forall n i len fm fieldNames indent zeroElem d slice r,
      tabularRows n i len fm fieldNames indent zeroElem d slice = Ok r ->
      forward d (snd r).
  Proof.
    induction n as [|n IH]; intros i len fm fieldNames indent zeroElem d
                                   slice r H; cbn [tabularRows] in H.
    - branches H. forwards.
    - branches H; try (apply IH in H); forwards.
  Qed.

Lemma listItemLines_forward :
    forall n fm e fields d r,
      listItemLines n fm e fields d = Ok r -> forward d (snd r).
  Proof.
    induction n as [|n IH]; intros fm e fields d r H;
      cbn [listItemLines] in H.
    - branches H. forwards.
    - branches H; try (apply IH in H); forwards.
  Qed.

Lemma sliceItems_forward :
    forall n t e d slice r,
      sliceItems n t e d slice = Ok r -> forward d (snd r).
  Proof.
    induction n as [|n IH]; intros t e d slice r H; cbn [sliceItems] in H.
    - branches H. forwards.
    - branches H; try (apply IH in H);
        repeat match goal with
          | E : decodeStructFromListItem _ _ _ _ = Ok _ |- _ =>
              unfold decodeStructFromListItem in E; branches E;
              apply listItemLines_forward in E
          | E : _ = Ok _ |- _ => branches E
          end;
        forwards.
  Qed.

Lemma decodeTabularArray_forward v len fieldNames indent d r :
    decodeTabularArray v len fieldNames indent d = Ok r -> forward d (snd r).
  Proof.
    unfold decodeTabularArray. intros H. branches H.
    apply tabularRows_forward in E. forwards.
  Qed.

Lemma decodeSlice_forward v e d r :
    decodeSlice v e d = Ok r -> forward d (snd r).
  Proof.
    unfold decodeSlice. intros H. branches H.
    apply sliceItems_forward in E. forwards.
  Qed.

  Section Loops.

    Variable decodeValue' :
      value float64 -> nat -> decoder -> result (value float64 * decoder).

    Hypothesis Hrec :
      forall v e d r, decodeValue' v e d = Ok r -> forward d (snd r).

Lemma decodeArrayField_forward v len fieldNames value indent d r :
      decodeArrayField decodeValue' v len fieldNames value indent d = Ok r ->
      forward d (snd r).
    Proof.
      unfold decodeArrayField. intros H.
      destruct fieldNames; [|now apply decodeTabularArray_forward in H].
      destruct (negb (isEmpty value)); [|now apply Hrec in H].
      branches H. forwards.
    Qed.

Lemma structLines_forward :
      forall n fm e fields d r,
        structLines decodeValue' n fm e fields d = Ok r -> forward d (snd r).
    Proof.
      induction n as [|n IH]; intros fm e fields d r H;
        cbn [structLines] in H.
      - branches H. forwards.
      - branches H; try (apply IH in H);
          repeat match goal with
            | E : decodeArrayField _ _ _ _ _ _ _ = Ok _ |- _ =>
                apply decodeArrayField_forward in E
            | E : decodeValue' _ _ _ = Ok _ |- _ => apply Hrec in E
            | E : _ = Ok _ |- _ => branches E
            end;
          forwards.
    Qed.

Lemma mapLines_forward :
      forall n kt et e entries d r,
        mapLines decodeValue' n kt et e entries d = Ok r -> forward d (snd r).
    Proof.
      induction n as [|n IH]; intros kt et e entries d r H;
        cbn [mapLines] in H.
      - branches H. forwards.
      - branches H; try (apply IH in H);
          repeat match goal with
            | E : decodeValue' _ _ _ = Ok _ |- _ => apply Hrec in E
            | E : _ = Ok _ |- _ => branches E
            end;
          forwards.
    Qed.

Lemma decodeValue_body_forward v e d r :
      decodeValue_body decodeValue' v e d = Ok r -> forward d (snd r).
    Proof.
      unfold decodeValue_body, decodeStruct, decodeMap. intros H.
      cbv zeta in H.
      destruct (negb (hasMore (skipEmptyLines d)));
        [injection H as <-; forwards|].
      destruct v; branches H;
        repeat match goal with
          | E : structLines _ _ _ _ _ _ = Ok _ |- _ =>
              apply structLines_forward in E
          | E : mapLines _ _ _ _ _ _ _ = Ok _ |- _ =>
              apply mapLines_forward in E
          | E : decodeSlice _ _ _ = Ok _ |- _ => apply decodeSlice_forward in E
          | E : decodeValue' _ _ _ = Ok _ |- _ => apply Hrec in E
          | E : _ = Ok _ |- _ => branches E
          end;
        forwards.
    Qed.

  End Loops.

Lemma decodeValue_moves (fuel : nat) :
    forall v e d r, decodeValue fuel v e d = Ok r -> forward d (snd r).
  Proof.
    induction fuel as [|fuel IH]; intros v e d r H; [discriminate H|].
    cbn [decodeValue] in H.
    now apply (@decodeValue_body_forward (decodeValue fuel) IH) in H.
  Qed.

  (** X17.  The decoder moves forward over its lines and leaves them as
      they are: after a call of [decodeValue] that returns, the decoder has
      the lines it had, and its position is not before the one it had. *)
Theorem decodeValue_forward (fuel : nat) (v : value float64)
    (expectedIndent : nat) (d : decoder) (r : value float64 * decoder) :
    decodeValue fuel v expectedIndent d = Ok r ->
    lines (snd r) = lines d /\ pos d <= pos (snd r).
  Proof.
    intros H. apply decodeValue_moves in H. exact H.
  Qed.

End Forward.

Lemma decodeValue_forward_witness :
  let name := tagged "Name" "name" in
  let d := newDecoder (str "name: Ada" ++ [LF]) in
  let r : value (@float64 integerRuntime) * decoder :=
    (VStruct [(name, VString (str "Ada"))], {| lines := lines d; pos := 1 |})
  in
  lines (snd r) = lines d /\ pos d <= pos (snd r).
Proof.
  intros name d r.
  apply (@decodeValue_forward integerRuntime 2
           (VStruct [(name, VString [])]) 0 d r).
  reflexivity.
Defined.

(** * The decoder terminates *)

(** The branches of a call that returned a result, with what led to
    them. *)
Ltac branches_eq H :=
  repeat (cbv zeta in H;
          match type of H with
          | Ok _ = Ok _ => injection H as <-
          | Err _ = Ok _ => discriminate H
          | Abort _ = Ok _ => discriminate H
          | (if ?b then _ else _) = Ok _ => destruct b eqn:?
          | bind ?m _ = Ok _ =>
              let E := fresh "E" in
              destruct m as [?|?|?] eqn:E; cbn [bind] in H;
              [|discriminate H..]
          | match ?x with _ => _ end = Ok _ => destruct x eqn:?
          end).

Section Depth.

  Context {R : GoRuntime}.

Lemma vdepth_pos (v : value float64) : 1 <= vdepth v.
  Proof. destruct v as [| | | | | |? [?|]| | | | |]; cbn [vdepth]; lia. Qed.

Lemma list_max_bound (l : list nat) (B : nat) :
    Forall (fun x => x <= B) l -> list_max l <= B.
  Proof. intros H. now apply list_max_le. Qed.

Lemma vdepth_zero : forall t : type, vdepth (zero t) <= tdepth t.
  Proof.
    fix IH 1. intros [| | | | | |elem|elem|len elem|key elem|fields|];
      cbn [zero vdepth tdepth]; try lia.
    apply le_n_S. rewrite map_map. cbn [snd].
    induction fields as [|[f t] fields IHf]; [reflexivity|].
    unfold list_max in *. cbn [map fold_right snd]. pose proof (IH t). lia.
  Qed.

Lemma setPrimitiveValue_depth :
    forall (t : type) (s : gostring) (v : value float64),
      setPrimitiveValue t s = Ok v -> vdepth v <= tdepth t.
  Proof.
    induction t; intros s v H; cbn [setPrimitiveValue] in H;
      branches H; cbn [vdepth tdepth]; try lia.
    apply IHt in E. lia.
  Qed.

Lemma tdepth_typeOf : forall v : value float64, tdepth (typeOf v) <= vdepth v.
  Proof.
    fix IH 1.
    intros [| | | | | |elem [x|]|elem data|elem data|key elem entries|fields|];
      cbn [typeOf vdepth tdepth]; try lia.
    apply le_n_S. rewrite map_map. cbn [snd].
    induction fields as [|[f v] fields IHf]; [reflexivity|].
    unfold list_max in *. cbn [map fold_right snd]. pose proof (IH v). lia.
  Qed.

  (** The fields of a record are less deep than the record. *)
Lemma field_depth (fields : list (StructField * value float64)) :
    Forall (fun fv => S (vdepth (snd fv)) <= vdepth (VStruct fields)) fields.
  Proof.
    cbn [vdepth]. apply Forall_forall. intros fv Hin. apply le_n_S.
    assert (H : Forall (fun x => x <= list_max (map (fun fv => vdepth (snd fv))
                                                  fields))
                  (map (fun fv => vdepth (snd fv)) fields))
      by now apply list_max_le.
    rewrite Forall_forall in H. apply H.
    now apply (in_map (fun fv => vdepth (snd fv))).
  Qed.

Lemma setField_depth (B : nat) (fields : list (StructField * value float64))
    (i : nat) (v : value float64) :
    Forall (fun fv => vdepth (snd fv) <= B) fields -> vdepth v <= B ->
    Forall (fun fv => vdepth (snd fv) <= B) (setField fields i v).
  Proof.
    intros H Hv. revert i. induction H as [|[f w] fields Hw Hrest IH];
      intros i.
    - destruct i; constructor.
    - destruct i; cbn [setField]; constructor;
        [exact Hv|exact Hrest|exact Hw|apply IH].
  Qed.

Lemma nth_error_depth (B : nat) (fields : list (StructField * value float64))
    (i : nat) (f : StructField) (v : value float64) :
    Forall (fun fv => vdepth (snd fv) <= B) fields ->
    nth_error fields i = Some (f, v) -> vdepth v <= B.
  Proof.
    intros H Hi. apply nth_error_In in Hi. rewrite Forall_forall in H.
    now apply (H _ Hi).
  Qed.

  Section Loops.

    Variable decodeValue' :
      value float64 -> nat -> decoder -> result (value float64 * decoder).

    Hypothesis Hrec :
      forall v e d r, decodeValue' v e d = Ok r -> vdepth (fst r) <= vdepth v.

Lemma decodeArrayField_depth v len fieldNames value indent d r :
      decodeArrayField decodeValue' v len fieldNames value indent d = Ok r ->
      vdepth (fst r) <= vdepth v.
    Proof.
      unfold decodeArrayField, decodeTabularArray, decodeInlineArray.
      intros H. pose proof (vdepth_pos v).
      destruct fieldNames.
      - destruct (negb (isEmpty value)); [|now apply Hrec in H].
        branches H. branches E. exact H0.
      - branches H. exact H0.
    Qed.

Lemma structLines_depth (B : nat) :
      forall n fm e fields d r,
        structLines decodeValue' n fm e fields d = Ok r ->
        Forall (fun fv => vdepth (snd fv) <= B) fields ->
        Forall (fun fv => vdepth (snd fv) <= B) (fst r).
    Proof.
      induction n as [|n IH]; intros fm e fields d r H Hall;
        cbn [structLines] in H.
      - branches H. exact Hall.
      - branches_eq H; try exact Hall;
          (apply IH in H; [exact H|]); try exact Hall;
          (apply setField_depth; [exact Hall|]);
          match goal with
          | Hn : nth_error fields _ = Some (_, ?fv) |- _ =>
              pose proof (nth_error_depth _ Hall Hn) as Hfv
          end;
          repeat match goal with
            | E : (if _ then _ else _) = Ok _ |- _ => branches_eq E
            | E : decodeArrayField _ _ _ _ _ _ _ = Ok _ |- _ =>
                apply decodeArrayField_depth in E
            | E : decodeValue' _ _ _ = Ok _ |- _ => apply Hrec in E
            | E : setPrimitiveValue (typeOf ?fv) _ = Ok _ |- _ =>
                apply setPrimitiveValue_depth in E;
                pose proof (tdepth_typeOf fv)
            end;
          cbn [fst snd] in *; lia.
    Qed.

Lemma record_depth (B : nat)
      (fields : list (StructField * value float64)) :
      Forall (fun fv => vdepth (snd fv) <= B) fields ->
      vdepth (VStruct fields) <= S B.
    Proof.
      intros H. cbn [vdepth]. apply le_n_S. apply list_max_le.
      now apply Forall_map.
    Qed.

Lemma fields_depth (fields : list (StructField * value float64)) :
      Forall (fun fv => vdepth (snd fv)
                        <= list_max (map (fun fv => vdepth (snd fv)) fields))
        fields.
    Proof.
      eapply Forall_impl; [|apply field_depth].
      intros fv H. cbn [vdepth] in H. lia.
    Qed.

Lemma decodeValue_body_depth v e d r :
      decodeValue_body decodeValue' v e d = Ok r ->
      vdepth (fst r) <= vdepth v.
    Proof.
      unfold decodeValue_body, decodeStruct, decodeMap, decodeSlice.
      intros H. cbv zeta in H.
      destruct (negb (hasMore (skipEmptyLines d)));
        [injection H as <-; reflexivity|].
      destruct v as [| | | | | |elem [x|]| | | |fields|];
        branches H; cbn [fst vdepth typeOf tdepth] in *; try lia;
        try (apply setPrimitiveValue_depth in E; cbn [tdepth] in E; lia).
      - apply Hrec in E. lia.
      - apply Hrec in E. pose proof (vdepth_zero elem). lia.
      - apply structLines_depth
          with (B := list_max (map (fun fv => vdepth (snd fv)) fields)) in E;
          [|apply fields_depth].
        now apply record_depth in E.
    Qed.

  End Loops.

Lemma decodeValue_depth (fuel : nat) :
    forall v e d r,
      decodeValue fuel v e d = Ok r -> vdepth (fst r) <= vdepth v.
  Proof.
    induction fuel as [|fuel IH]; intros v e d r H; [discriminate H|].
    cbn [decodeValue] in H.
    now apply (@decodeValue_body_depth (decodeValue fuel) IH) in H.
  Qed.

End Depth.

Section LinesLeft.

  Context {R : GoRuntime}.

Lemma hasMore_remaining (d : decoder) :
    hasMore d = true -> pos d < length (lines d).
  Proof.
    unfold hasMore. intros H.
    destruct (Nat.lt_ge_cases (pos d) (length (lines d))) as [Hlt|Hge];
      [exact Hlt|].
    rewrite skipn_all2 in H by exact Hge. discriminate H.
  Qed.

Lemma hasMore_negb (d : decoder) :
    negb (hasMore d) = false -> pos d < length (lines d).
  Proof.
    intros H. apply hasMore_remaining. now destruct (hasMore d).
  Qed.

End LinesLeft.

(** The branches of a call that did not return. *)
Ltac aborts H :=
  repeat (cbv zeta in H;
          match type of H with
          | Ok _ = Abort _ => discriminate H
          | Err _ = Abort _ => discriminate H
          | Abort Panic = Abort _ => injection H as <-
          | (if ?b then _ else _) = Abort _ => destruct b eqn:?
          | bind ?m _ = Abort _ =>
              let E := fresh "E" in
              destruct m as [?|?|?] eqn:E; cbn [bind] in H;
              [|discriminate H|injection H as <-]
          | match ?x with _ => _ end = Abort _ => destruct x eqn:?
          end).

(** What is left of the lines, from what is known of the cursors. *)
Ltac lines_left :=
  repeat match goal with
    | H : negb (hasMore ?d) = false |- _ => apply hasMore_negb in H
    | H : forward _ _ |- _ => destruct H
    end;
  unfold remaining in *;
  cbn [lines pos advance skipEmptyLines fst snd] in *;
  repeat match goal with
    | H : lines _ = lines _ |- _ => apply (f_equal (@length gostring)) in H
    end;
  lia.

Section Termination.

  Context {R : GoRuntime}.

Lemma setPrimitiveValue_returns_or_fails :
    forall (t : type) (s : gostring) (a : abort),
      setPrimitiveValue t s <> Abort a.
  Proof.
    induction t; intros s a H; cbn [setPrimitiveValue] in H; aborts H.
    now apply IHt in E.
  Qed.

Lemma setNamed_abort fm fields key value a :
    setNamed fm fields key value = Abort a -> a = Panic.
  Proof.
    unfold setNamed, fieldType. intros H. aborts H; [|reflexivity].
    now apply setPrimitiveValue_returns_or_fails in E.
  Qed.

Lemma assignColumns_abort fm :
    forall fieldNames j values elem a,
      assignColumns fm fieldNames j values elem = Abort a -> a = Panic.
  Proof.
    induction fieldNames as [|name rest IH]; intros j values elem a H;
      cbn [assignColumns] in H; aborts H.
    - now apply IH in H.
    - destruct (j <? length values); [|discriminate E].
      now apply setNamed_abort in E.
  Qed.

Lemma tabularRows_abort :
    forall n i len fm fieldNames indent zeroElem d slice a,
      tabularRows n i len fm fieldNames indent zeroElem d slice = Abort a ->
      remaining d <= n -> a = Panic.
  Proof.
    induction n as [|n IH];
      intros i len fm fieldNames indent zeroElem d slice a H Hn;
      cbn [tabularRows] in H;
      (destruct ((i <? len)%Z && hasMore d) eqn:Hc; [|discriminate H]);
      apply andb_true_iff in Hc as [_ Hmore];
      apply hasMore_remaining in Hmore.
    - unfold remaining in Hn. lia.
    - aborts H.
      + apply IH in H; [exact H|lines_left].
      + apply IH in H; [exact H|lines_left].
      + now apply assignColumns_abort in E.
  Qed.

Lemma decodeTabularArray_abort v len fieldNames indent d a :
    decodeTabularArray v len fieldNames indent d = Abort a -> a = Panic.
  Proof.
    unfold decodeTabularArray. intros H. aborts H; try reflexivity.
    apply tabularRows_abort in E; [exact E|]. unfold remaining. lia.
  Qed.

Lemma decodeInlineArray_abort v value a :
    decodeInlineArray v value = Abort a -> a = Panic.
  Proof.
    unfold decodeInlineArray. intros H. aborts H; try reflexivity.
    exfalso.
    match type of E with
    | ?loop _ _ = Abort ?w =>
        assert (Hloop : forall ps ac, loop ps ac <> Abort w)
    end.
    { induction ps as [|part ps IH]; intros ac E'; [discriminate E'|].
      aborts E'; try (now apply IH in E').
      match goal with
      | E0 : setPrimitiveValue _ _ = Abort _ |- _ =>
          now apply setPrimitiveValue_returns_or_fails in E0
      end. }
    now apply Hloop in E.
  Qed.

Lemma listItemLines_abort :
    forall n fm e fields d a,
      listItemLines n fm e fields d = Abort a -> remaining d <= n ->
      a = Panic.
  Proof.
    induction n as [|n IH]; intros fm e fields d a H Hn;
      cbn [listItemLines] in H;
      (destruct (negb (hasMore d)) eqn:Hmore; [discriminate H|]).
    - lines_left.
    - aborts H;
        first [ match goal with
                | E : setNamed _ _ _ _ = Abort _ |- _ =>
                    now apply setNamed_abort in E
                end
              | apply IH in H; [exact H|lines_left] ].
  Qed.

Lemma decodeStructFromListItem_abort fields firstLine e d a :
    decodeStructFromListItem fields firstLine e d = Abort a -> a = Panic.
  Proof.
    unfold decodeStructFromListItem. intros H. aborts H.
    - apply listItemLines_abort in H; [exact H|]. unfold remaining. lia.
    - aborts E; try reflexivity.
      match goal with
      | E : setNamed _ _ _ _ = Abort _ |- _ => now apply setNamed_abort in E
      end.
  Qed.

Lemma sliceItems_abort :
    forall n t e d slice a,
      sliceItems n t e d slice = Abort a -> remaining d <= n -> a = Panic.
  Proof.
    induction n as [|n IH]; intros t e d slice a H Hn;
      cbn [sliceItems] in H;
      (destruct (negb (hasMore d)) eqn:Hmore; [discriminate H|]).
    - lines_left.
    - aborts H.
      + apply IH in H; [exact H|].
        repeat match goal with
          | E : decodeStructFromListItem _ _ _ _ = Ok _ |- _ =>
              unfold decodeStructFromListItem in E; branches E;
              apply listItemLines_forward in E
          | E : _ = Ok _ |- _ => branches E
          end;
          lines_left.
      + aborts E; try reflexivity;
          match goal with
          | E : decodeStructFromListItem _ _ _ _ = Abort _ |- _ =>
              now apply decodeStructFromListItem_abort in E
          | E : setPrimitiveValue _ _ = Abort _ |- _ =>
              now apply setPrimitiveValue_returns_or_fails in E
          end.
  Qed.

Lemma decodeSlice_abort v e d a :
    decodeSlice v e d = Abort a -> a = Panic.
  Proof.
    unfold decodeSlice. intros H. aborts H; try reflexivity.
    apply sliceItems_abort in E; [exact E|]. unfold remaining. lia.
  Qed.

  Section Loops.

    Variable decodeValue' :
      value float64 -> nat -> decoder -> result (value float64 * decoder).

    (** The bound of the calls one level down. *)
    Variable F : nat.

    Hypothesis Hfwd :
      forall v e d r, decodeValue' v e d = Ok r -> forward d (snd r).

    Hypothesis Hdepth :
      forall v e d r, decodeValue' v e d = Ok r -> vdepth (fst r) <= vdepth v.

    Hypothesis Habort :
      forall v e d a,
        decodeValue' v e d = Abort a -> vdepth v + remaining d <= F ->
        a = Panic.

Lemma fieldStep_ok (z : Z) (l : list gostring) (text : gostring)
      (v : value float64) (indent : nat) (d : decoder)
      (p : value float64 * decoder) :
      (if (0 <=? z)%Z
       then decodeArrayField decodeValue' v z l text indent d
       else if isEmpty text then decodeValue' v (indent + 2) d
            else fv <- setPrimitiveValue (typeOf v) text ;; Ok (fv, d))
      = Ok p ->
      forward d (snd p) /\ vdepth (fst p) <= vdepth v.
    Proof.
      intros H. branches H.
      - split;
          [now apply (@decodeArrayField_forward R decodeValue' Hfwd) in H
          |now apply (@decodeArrayField_depth R decodeValue' Hdepth) in H].
      - split; [now apply Hfwd in H|now apply Hdepth in H].
      - apply setPrimitiveValue_depth in E. pose proof (tdepth_typeOf v).
        split; [forwards|cbn [fst]; lia].
    Qed.

Lemma fieldStep_abort (z : Z) (l : list gostring) (text : gostring)
      (v : value float64) (indent : nat) (d : decoder) (a : abort) :
      (if (0 <=? z)%Z
       then decodeArrayField decodeValue' v z l text indent d
       else if isEmpty text then decodeValue' v (indent + 2) d
            else fv <- setPrimitiveValue (typeOf v) text ;; Ok (fv, d))
      = Abort a ->
      vdepth v + remaining d <= F -> a = Panic.
    Proof.
      intros H Hv. unfold decodeArrayField in H. aborts H;
        try (now apply Habort in H);
        try (now apply decodeTabularArray_abort in H);
        match goal with
        | E : decodeInlineArray _ _ = Abort _ |- _ =>
            now apply decodeInlineArray_abort in E
        | E : setPrimitiveValue _ _ = Abort _ |- _ =>
            now apply setPrimitiveValue_returns_or_fails in E
        end.
    Qed.

    (** The loop of [decodeStruct] stops before its bound. *)
Lemma structLines_abort (B : nat) :
      forall n fm e fields d a,
        structLines decodeValue' n fm e fields d = Abort a ->
        remaining d <= n ->
        Forall (fun fv => vdepth (snd fv) <= B) fields ->
        B + remaining d <= S F ->
        a = Panic.
    Proof.
      induction n as [|n IH]; intros fm e fields d a H Hn Hall HF;
        cbn [structLines] in H;
        (destruct (negb (hasMore d)) eqn:Hmore; [discriminate H|]).
      - lines_left.
      - aborts H; try reflexivity;
          try match goal with
            | Hnth : nth_error fields _ = Some (_, ?fv) |- _ =>
                pose proof (nth_error_depth _ Hall Hnth) as Hfv
            end.
        all: first
          [ match goal with
            | E : (if _ then _ else _) = Abort _ |- _ =>
                apply fieldStep_abort in E; [exact E|lines_left]
            end
          | match goal with
            | E : (if _ then _ else _) = Ok _ |- _ =>
                apply fieldStep_ok in E as [Hp Hd];
                apply IH in H;
                [exact H|lines_left
                |apply setField_depth; [exact Hall|lia]|lines_left]
            end
          | apply IH in H; [exact H|lines_left|exact Hall|lines_left] ].
    Qed.

Lemma mapStep_ok (text : gostring) (t : type) (indent : nat)
      (d : decoder) (p : value float64 * decoder) :
      (if isEmpty text then decodeValue' (zero t) (indent + 2) d
       else elem <- setPrimitiveValue t text ;; Ok (elem, d))
      = Ok p ->
      forward d (snd p).
    Proof.
      intros H. branches H; [now apply Hfwd in H|forwards].
    Qed.

Lemma mapStep_abort (text : gostring) (t : type) (indent : nat)
      (d : decoder) (a : abort) :
      (if isEmpty text then decodeValue' (zero t) (indent + 2) d
       else elem <- setPrimitiveValue t text ;; Ok (elem, d))
      = Abort a ->
      tdepth t + remaining d <= F -> a = Panic.
    Proof.
      intros H Ht. pose proof (vdepth_zero t). aborts H.
      - apply Habort in H; [exact H|lia].
      - now apply setPrimitiveValue_returns_or_fails in E.
    Qed.

    (** The loop of [decodeMap] stops before its bound. *)
Lemma mapLines_abort :
      forall n kt et e entries d a,
        mapLines decodeValue' n kt et e entries d = Abort a ->
        remaining d <= n ->
        tdepth et + remaining d <= S F ->
        a = Panic.
    Proof.
      induction n as [|n IH]; intros kt et e entries d a H Hn HF;
        cbn [mapLines] in H;
        (destruct (negb (hasMore d)) eqn:Hmore; [discriminate H|]).
      - lines_left.
      - aborts H; try reflexivity;
          first
            [ match goal with
              | E : setPrimitiveValue _ _ = Abort _ |- _ =>
                  now apply setPrimitiveValue_returns_or_fails in E
              end
            | match goal with
              | E : (if _ then _ else _) = Abort _ |- _ =>
                  apply mapStep_abort in E; [exact E|lines_left]
              end
            | match goal with
              | E : (if _ then _ else _) = Ok _ |- _ =>
                  apply mapStep_ok in E;
                  apply IH in H; [exact H|lines_left|lines_left]
              end
            | apply IH in H; [exact H|lines_left|lines_left] ].
    Qed.

Lemma skipEmptyLines_remaining (d : decoder) :
      remaining (skipEmptyLines d) <= remaining d.
    Proof. unfold remaining. cbn [lines pos skipEmptyLines]. lia. Qed.

Lemma decodeValue_body_abort v e d a :
      decodeValue_body decodeValue' v e d = Abort a ->
      vdepth v + remaining d <= S F ->
      a = Panic.
    Proof.
      unfold decodeValue_body, decodeStruct, decodeMap. intros H HF.
      cbv zeta in H. pose proof (skipEmptyLines_remaining d) as Hskip.
      destruct (negb (hasMore (skipEmptyLines d))); [discriminate H|].
      destruct v as [| | | | | |elem [x|]| | |kt et entries|fields|];
        cbn [vdepth] in HF; aborts H; try reflexivity;
        try match goal with
          | E : bind _ _ = Abort _ |- _ => aborts E
          end;
        try match goal with
          | E : setPrimitiveValue _ _ = Abort _ |- _ =>
              now apply setPrimitiveValue_returns_or_fails in E
          | E : decodeSlice _ _ _ = Abort _ |- _ =>
              now apply decodeSlice_abort in E
          | E : mapLines _ _ _ _ _ _ _ = Abort _ |- _ =>
              apply mapLines_abort in E;
              [exact E|unfold remaining; lia|cbn [tdepth]; lia]
          | E : decodeValue' _ _ _ = Abort _ |- _ =>
              apply Habort in E; [exact E|]
          end.
      - lia.
      - pose proof (vdepth_zero elem). lia.
      - apply structLines_abort
          with (B := list_max (map (fun fv => vdepth (snd fv)) fields)) in E;
          [exact E|unfold remaining; lia|apply fields_depth|lia].
    Qed.

  End Loops.

Lemma decodeValue_abort (fuel : nat) :
    forall v e d a,
      decodeValue fuel v e d = Abort a -> vdepth v + remaining d <= fuel ->
      a = Panic.
  Proof.
    induction fuel as [|fuel IH]; intros v e d a H HF.
    - pose proof (vdepth_pos v). lia.
    - cbn [decodeValue] in H.
      apply (@decodeValue_body_abort (decodeValue fuel) fuel
               (decodeValue_moves fuel) (@decodeValue_depth R fuel) IH)
        in H; [exact H|exact HF].
  Qed.

Lemma Unmarshal_abort (fuel : nat) (data : gostring)
    (v : option (value float64)) (a : abort) :
    (forall elem target,
        v = Some (VPtr elem (Some target)) ->
        vdepth target + length (Strings.Split data LF) <= fuel) ->
    Unmarshal fuel data v = Abort a -> a = Panic.
  Proof.
    intros HF H. unfold Unmarshal, decode in H.
    destruct v as [[| | | | | |elem [target|]| | | | |]|]; try discriminate H.
    aborts H. apply decodeValue_abort in E; [exact E|].
    specialize (HF elem target eq_refl).
    unfold remaining, newDecoder. cbn [lines pos]. lia.
  Qed.

  (** X18.  The decoder terminates.  A call of [Unmarshal] returns a
      value or an error, or it panics: it does not go on without end,
      whatever the text and whatever the target, of a type that is not
      recursive.  The bound on the depth of the nested calls is reached by
      no call that is given the depth of the target and the number of
      lines, and the loops over the lines stop before their bounds, each
      turn passing a line. *)
Theorem Unmarshal_terminates (fuel : nat) (data : gostring)
    (v : option (value float64)) :
    (forall elem target,
        v = Some (VPtr elem (Some target)) ->
        vdepth target + length (Strings.Split data LF) <= fuel) ->
    Unmarshal fuel data v <> Abort OutOfFuel
    /\ Unmarshal fuel data v <> Abort Hang.
  Proof.
    intros HF. split; intros H; apply (Unmarshal_abort _ HF) in H;
      discriminate H.
  Qed.

End Termination.

Lemma Unmarshal_terminates_witness :
  let text := str "name: Ada" ++ [LF] ++ str "tags[2]: x,y" ++ [LF] in
  let target : value (@float64 integerRuntime) :=
    VStruct [(tagged "Name" "name", VString []);
             (tagged "Tags" "tags", VSlice TString None)] in
  Unmarshal (R := integerRuntime) 5 text (pointerTo target)
  <> Abort OutOfFuel
  /\ Unmarshal (R := integerRuntime) 5 text (pointerTo target) <> Abort Hang.
Proof.
  intros text target.
  apply (@Unmarshal_terminates integerRuntime 5 text (pointerTo target)).
  intros elem tgt Heq. injection Heq as _ <-. vm_compute. lia.
Defined.

(** * Lists that one side of the codec has and the other has not *)

Section Lists.

  Context {R : GoRuntime}.

  Import Strings StringFacts SplitFacts NumberFacts.

Lemma dash_isBlank (m : nat) (x : gostring) :
    x <> [] -> TrimSpace x = x -> isBlank (repeat SP m ++ str "- " ++ x) = false.
  Proof.
    intros Hne Htrim. rewrite isBlank_spaces. apply isBlank_false.
    - discriminate.
    - now apply dashLine_TrimSpace.
    - reflexivity.
  Qed.

Lemma scalar_zero (e : value float64) (t : type) :
    isScalar e = true -> typeOf e = t -> isScalar (zero t) = true.
  Proof. intros He <-. now destruct e. Qed.

Lemma listHeader_no_LF (name : gostring) (n : nat) :
    bareKey name -> ~ In LF (listHeader name n).
  Proof.
    intros [_ [_ [_ [_ [Hlf _]]]]] H. unfold listHeader in H.
    apply in_app_or in H as [H|H]; [now apply Hlf|].
    apply in_app_or in H as [H|H].
    - revert H. apply lenTag_no_byte; [reflexivity|discriminate].
    - cbn in H. intuition discriminate.
  Qed.

Lemma listHeader_isBlank (name : gostring) (n : nat) :
    bareKey name -> isBlank (listHeader name n) = false.
  Proof.
    intros Hname. rewrite listHeader_eq.
    assert (Hk : lineKey (name ++ lenTag n ++ [] ++ ["]"%char])).
    { apply header_lineKey; [exact Hname|reflexivity|].
      intros [H|[]]. discriminate H. }
    eapply colonLine_isBlank; [exact Hk|reflexivity|].
    now apply colonLine_bare.
  Qed.

Lemma lookup_single (f : StructField) (v : value float64) :
    IsExported f = true -> bareKey (getFieldName f) ->
    lookup (buildFieldMap true 0 [(f, v)] []) (getFieldName f)
    = Some (length (@nil (StructField * value float64))).
  Proof.
    intros Hexp Hname.
    apply (@lookup_buildFieldMap R true [(f, v)] 0 [] 0).
    - constructor; [|constructor]. split; [exact Hexp|]. apply Hname.
    - repeat constructor. intros [].
    - reflexivity.
  Qed.

  Section Scalars.

    Variables (t : type) (m : nat).

    Hypothesis Hm : 2 <= m.

    (** One turn of the loop of [decodeSlice] on the item of a scalar. *)
Lemma sliceItems_scalar (n : nat) (acc : list (value float64))
      (e : value float64) (pre post : list gostring) :
      lineSafe e -> typeOf e = t ->
      sliceItems (S n) t 2 (cursor pre (dashLine m e :: post)) acc
      = sliceItems n t 2 (cursor (pre ++ [dashLine m e]) post) (acc ++ [e]).
    Proof.
      intros [Hsc [Hne [Htrim [Hlf Hset]]]] Ht.
      pose proof (dash_isBlank m Hne Htrim) as Hblank.
      pose proof (scalar_zero e Hsc Ht) as Hzero.
      unfold dashLine. cbn [sliceItems].
      rewrite cursor_hasMore by exact Hblank. cbn [negb]. cbv iota.
      rewrite cursor_skip by exact Hblank.
      rewrite cursor_hasMore by exact Hblank. cbn [negb]. cbv iota.
      rewrite cursor_current. cbv zeta.
      rewrite getIndent_spaces.
      change (getIndent (str "- " ++ writePrimitiveValue e)) with 0.
      rewrite Nat.add_0_r.
      replace (m <? 2) with false by (symmetry; apply Nat.ltb_ge; exact Hm).
      rewrite andb_false_r. cbv iota.
      rewrite TrimSpace_spaces, (dashLine_TrimSpace Hne Htrim).
      change (HasPrefix (str "- " ++ writePrimitiveValue e) (str "- "))
        with (HasPrefix (writePrimitiveValue e) []).
      rewrite HasPrefix_nil. cbn [negb]. cbv iota.
      change (skipn 2 (str "- " ++ writePrimitiveValue e))
        with (writePrimitiveValue e).
      rewrite Htrim, cursor_advance. rewrite Ht in Hset.
      destruct (zero t); try discriminate Hzero;
        now rewrite Hset.
    Qed.

    (** The loop of [decodeSlice] over the items of a list of scalars. *)
Lemma sliceItems_scalars :
      forall (elems acc : list (value float64)) (pre post : list gostring)
             (n : nat),
        Forall lineSafe elems -> Forall (fun e => typeOf e = t) elems ->
        blockEnd 2 post ->
        length elems < n ->
        sliceItems n t 2 (cursor pre (map (dashLine m) elems ++ post)) acc
        = Ok (acc ++ elems, cursor (pre ++ map (dashLine m) elems) post).
    Proof.
      induction elems as [|e elems IH];
        intros acc pre post n Hsafe Htype Hend Hn.
      - cbn [map app]. rewrite !app_nil_r.
        destruct n as [|n]; [simpl in Hn; lia|]. cbn [sliceItems].
        destruct (blockEnd_stop pre Hend) as [Hno|[Hmore [Hskip Hlt]]].
        + now rewrite Hno.
        + rewrite Hmore. cbn [negb]. cbv iota.
          rewrite Hskip, Hmore. cbn [negb]. cbv iota zeta.
          now rewrite Hlt.
      - pose proof (Forall_inv Hsafe) as He.
        pose proof (Forall_inv_tail Hsafe) as Hsafe'.
        pose proof (Forall_inv Htype) as Ht.
        pose proof (Forall_inv_tail Htype) as Htype'.
        destruct n as [|n]; [simpl in Hn; lia|].
        cbn [map app].
        rewrite sliceItems_scalar; [|exact He|exact Ht].
        rewrite IH; [|exact Hsafe'|exact Htype'|exact Hend|simpl in Hn; lia].
        now rewrite <- !app_assoc.
    Qed.

  End Scalars.

  (** X19.  A list of scalars is read, though the encoder writes none: it
      writes the scalars of a slice on the line of the header.  Below the
      header of a field that is a slice of scalars, items that are two
      spaces in or more, each a dash and a token, are read into the
      slice, in their order.  The length that the header declares is not
      compared with their number. *)
Theorem scalar_list_read (f : StructField) (t : type)
    (old : option (list (value float64))) (elems : list (value float64))
    (declared m fuel : nat) :
    IsExported f = true -> bareKey (getFieldName f) ->
    (Z.of_nat declared < 2 ^ 63)%Z ->
    2 <= m ->
    elems <> [] ->
    Forall lineSafe elems -> Forall (fun e => typeOf e = t) elems ->
    Unmarshal (S (S fuel))
      (unlines (listHeader (getFieldName f) declared
                  :: map (dashLine m) elems))
      (pointerTo (VStruct [(f, VSlice t old)]))
    = pointsTo (VStruct [(f, VSlice t (Some elems))]).
  Proof.
    intros Hexp Hname Hlen Hm Hne Hsafe Htype.
    set (hdr := listHeader (getFieldName f) declared).
    assert (Hlf : Forall (fun l => ~ In LF l) (hdr :: map (dashLine m) elems)).
    { constructor; [now apply listHeader_no_LF|].
      apply Forall_map. eapply Forall_impl; [|exact Hsafe].
      intros e [_ [_ [_ [He _]]]] H. unfold dashLine in H.
      apply in_app_or in H as [H|H]; [now apply repeat_SP_no_LF in H|].
      apply in_app_or in H as [H|H]; [|now apply He].
      cbn in H. intuition discriminate. }
    pose proof (listHeader_isBlank declared Hname) as Hblank. fold hdr in Hblank.
    unfold Unmarshal, newDecoder, decode, pointerTo, pointsTo, unlines.
    rewrite (Split_lines Hlf).
    change {| lines := (hdr :: map (dashLine m) elems) ++ [[]]; pos := 0 |}
      with (cursor [] (hdr :: map (dashLine m) elems ++ [[]])).
    cbn [decodeValue]. unfold decodeValue_body at 1.
    rewrite cursor_skip, cursor_hasMore by exact Hblank.
    cbn [negb]. cbv iota. unfold decodeStruct.
    rewrite cursor_lines. cbn [length plus].
    pose proof (@structLines_list_header R (decodeValue (S fuel))
                  (length (map (dashLine m) elems ++ [[]]))
                  (buildFieldMap true 0 [(f, VSlice t old)] [])
                  [] [] f (VSlice t old) declared []
                  (map (dashLine m) elems ++ [[]])
                  Hname Hlen (@lookup_single f (VSlice t old) Hexp Hname))
      as Hstep.
    fold hdr in Hstep. cbn [app] in Hstep.
    run_with Hstep. clear Hstep.
    assert (Hblock :
              decodeValue (S fuel) (VSlice t old) 2
                (cursor [hdr] (map (dashLine m) elems ++ [[]]))
              = Ok (VSlice t (Some elems),
                    cursor ([hdr] ++ map (dashLine m) elems) [[]])).
    { cbn [decodeValue]. unfold decodeValue_body.
      pose proof (@sliceItems_scalars t m Hm elems [] [hdr] [[]]
                    (length (lines (cursor [hdr] (map (dashLine m) elems
                                                    ++ [[]]))))
                    Hsafe Htype (or_introl eq_refl)) as Hrun.
      destruct elems as [|e elems]; [congruence|].
      inversion Hsafe as [|? ? [_ [Hne' [Htrim' _]]] _]; subst.
      pose proof (dash_isBlank m Hne' Htrim') as Hb.
      cbn [map app] in *. fold (dashLine m e) in Hb.
      rewrite cursor_skip, cursor_hasMore by exact Hb.
      cbn [negb]. cbv iota. unfold decodeSlice.
      match type of Hrun with
      | _ -> ?lhs = _ =>
          match goal with |- bind ?run _ = _ => change run with lhs end
      end.
      rewrite Hrun; [reflexivity|].
      rewrite cursor_lines. cbn [length]. rewrite length_app, length_map.
      cbn [length]. lia. }
    run_with Hblock. cbn [bind fst snd setField length app].
    destruct (length (map (dashLine m) elems ++ [[]])); cbn [structLines];
      now rewrite cursor_end by reflexivity.
  Qed.

  Section MapLists.

    Variable opts : MarshalOptions.

Lemma encodeListItemMap_rest (depth : Z)
      (entries : list (value float64 * value float64)) :
      encodeListItemMap_from opts false entries depth
      = unlines (map (fun kv => writeIndent opts depth ++ entryLine kv)
                   entries).
    Proof.
      induction entries as [|[k v] entries IH]; [reflexivity|].
      cbn [encodeListItemMap_from]. rewrite IH.
      unfold unlines, entryLine. cbn [map concat fst snd].
      now rewrite <- !app_assoc.
    Qed.

Lemma encodeListItemMap_lines
      (entries : list (value float64 * value float64)) :
      entries <> [] ->
      writeIndent opts 1 ++ str "- " ++ encodeListItemMap opts entries 2
      = unlines (mapItemLines opts entries).
    Proof.
      intros Hne. destruct entries as [|[k v] entries]; [congruence|].
      unfold encodeListItemMap. cbn [encodeListItemMap_from].
      rewrite encodeListItemMap_rest.
      unfold unlines. cbn [mapItemLines map concat].
      unfold entryLine. cbn [fst snd]. now rewrite <- !app_assoc.
    Qed.

Lemma encodeListSlice_maps (name : gostring) (T : type)
      (maps : list (list (value float64 * value float64))) :
      Forall (fun es => es <> []) maps ->
      encodeListSlice opts (map (fun es => VMap TString T (Some es)) maps)
        0 name
      = Ok (unlines (listHeader name (length maps)
                       :: flat_map (mapItemLines opts) maps)).
    Proof.
      intros Hall. unfold encodeListSlice.
      match goal with
      | |- bind (?loop ?l) _ = _ =>
          assert (Hloop : loop l
                          = Ok (unlines (flat_map (mapItemLines opts) maps)))
      end.
      { induction Hall as [|es maps Hes _ IH]; [reflexivity|].
        cbn [map deref]. cbv zeta. rewrite IH. cbn [bind flat_map mapEntries].
        rewrite unlines_app, <- (encodeListItemMap_lines Hes).
        now rewrite <- !app_assoc. }
      rewrite Hloop. cbn [bind]. rewrite writeIndent_zero, length_map.
      unfold unlines, listHeader. cbn [map concat app].
      now rewrite <- !app_assoc.
    Qed.

Lemma entryLine_TrimSpace (T : type)
      (kv : value float64 * value float64) :
      plainEntry T kv ->
      entryLine kv <> [] /\ TrimSpace (entryLine kv) = entryLine kv.
    Proof.
      destruct kv as [k v].
      intros [[k' [Hk' [Hkey _]]] [[_ [Hne [Htrim _]]] _]].
      cbn [fst snd] in *. subst k. rewrite entryLine_eq. split.
      - destruct Hkey as [Hk _]. now destruct k'.
      - now apply keyLine_TrimSpace.
    Qed.

Lemma mapItemLines_no_LF (T : type)
      (entries : list (value float64 * value float64)) :
      Forall (plainEntry T) entries ->
      Forall (fun l => ~ In LF l) (mapItemLines opts entries).
    Proof.
      intros Hall. destruct entries as [|kv rest]; [constructor|].
      inversion Hall as [|? ? Hkv Hall']; subst. cbn [mapItemLines].
      constructor.
      - unfold writeIndent. intros H.
        apply in_app_or in H as [H|H]; [now apply repeat_SP_no_LF in H|].
        apply in_app_or in H as [H|H].
        + cbn in H. intuition discriminate.
        + revert H. now apply (@entryLine_no_LF R T).
      - apply Forall_map. eapply Forall_impl; [|exact Hall'].
        intros kv' Hkv' H. unfold writeIndent in H.
        apply in_app_or in H as [H|H]; [now apply repeat_SP_no_LF in H|].
        revert H. now apply (@entryLine_no_LF R T).
    Qed.

    (** X20.  A list of maps is written and is not read.  A record with a
        slice of maps from strings to scalars is written as a list, each
        map an item; with an indentation of two at least, [Unmarshal] of
        that text into a record of the same type returns the error of a
        kind that is not supported, for every such slice that is not
        empty: [decodeSlice] reads an item that is no record as one
        scalar. *)
Theorem map_list_unread (f : StructField) (T : type)
      (old : option (list (value float64)))
      (maps : list (list (value float64 * value float64))) (fuel : nat) :
      IsExported f = true -> bareKey (getFieldName f) ->
      (2 <= Indent opts)%Z ->
      (Z.of_nat (length maps) < 2 ^ 63)%Z ->
      maps <> [] ->
      Forall (fun es => es <> [] /\ Forall (plainEntry T) es) maps ->
      let listed :=
        VSlice (TMap TString T)
          (Some (map (fun es => VMap TString T (Some es)) maps)) in
      let text :=
        unlines (listHeader (getFieldName f) (length maps)
                   :: flat_map (mapItemLines opts) maps) in
      MarshalWithOptions (Some (VStruct [(f, listed)])) opts = Ok text
      /\ Unmarshal (S (S fuel)) text
           (pointerTo (VStruct [(f, VSlice (TMap TString T) old)]))
         = Err (ErrUnsupportedKind (TMap TString T)).
    Proof.
      intros Hexp Hname Hindent Hlen Hne Hall listed text.
      subst listed text.
      set (hdr := listHeader (getFieldName f) (length maps)).
      assert (Hnonempty : Forall (fun es => es <> []) maps)
        by (eapply Forall_impl; [|exact Hall]; now intros es [H _]).
      split.
      - unfold MarshalWithOptions, encode. cbn [encodeValue].
        unfold encodeStruct. cbn [blockHeader blockDepth isEmpty app].
        destruct (bareKey_live f Hexp Hname) as [Hskip _].
        unfold skipped in Hskip. apply orb_false_iff in Hskip as [He Hd].
        rewrite He, Hd. cbn [encodeValue]. unfold encodeSlice.
        destruct maps as [|es maps]; [congruence|].
        cbn [map derefType].
        change (VMap TString T (Some es)
                  :: map (fun es => VMap TString T (Some es)) maps)
          with (map (fun es => VMap TString T (Some es)) (es :: maps)).
        rewrite (encodeListSlice_maps _ T Hnonempty).
        cbn [bind]. now rewrite !app_nil_r.
      - assert (Hlf : Forall (fun l => ~ In LF l)
                        (hdr :: flat_map (mapItemLines opts) maps)).
        { constructor; [now apply listHeader_no_LF|].
          apply Forall_flat_map. eapply Forall_impl; [|exact Hall].
          intros es [_ Hes]. now apply (@mapItemLines_no_LF T). }
        pose proof (listHeader_isBlank (length maps) Hname) as Hblank.
        fold hdr in Hblank.
        unfold Unmarshal, newDecoder, decode, pointerTo, unlines.
        rewrite (Split_lines Hlf).
        change {| lines := (hdr :: flat_map (mapItemLines opts) maps) ++ [[]];
                  pos := 0 |}
          with (cursor [] (hdr :: flat_map (mapItemLines opts) maps ++ [[]])).
        cbn [decodeValue]. unfold decodeValue_body at 1.
        rewrite cursor_skip, cursor_hasMore by exact Hblank.
        cbn [negb]. cbv iota. unfold decodeStruct.
        rewrite cursor_lines. cbn [length plus].
        pose proof (@structLines_list_header R (decodeValue (S fuel))
                      (length (flat_map (mapItemLines opts) maps ++ [[]]))
                      (buildFieldMap true 0
                         [(f, VSlice (TMap TString T) old)] [])
                      [] [] f (VSlice (TMap TString T) old) (length maps) []
                      (flat_map (mapItemLines opts) maps ++ [[]])
                      Hname Hlen
                      (@lookup_single f (VSlice (TMap TString T) old)
                         Hexp Hname))
          as Hstep.
        fold hdr in Hstep. cbn [app] in Hstep.
        run_with Hstep. clear Hstep.
        assert (Hblock :
                  decodeValue (S fuel) (VSlice (TMap TString T) old) 2
                    (cursor [hdr] (flat_map (mapItemLines opts) maps ++ [[]]))
                  = Err (ErrUnsupportedKind (TMap TString T))).
        { destruct maps as [|es maps]; [congruence|].
          inversion Hall as [|? ? [Hes Hplain] _]; subst.
          destruct es as [|kv es]; [congruence|].
          inversion Hplain as [|? ? Hkv _]; subst.
          destruct (entryLine_TrimSpace Hkv) as [Hne' Htrim'].
          set (m := Z.to_nat (1 * Indent opts)).
          pose proof (dash_isBlank m Hne' Htrim') as Hb.
          cbn [flat_map mapItemLines app]. unfold writeIndent. fold m.
          cbn [decodeValue]. unfold decodeValue_body.
          rewrite cursor_skip, cursor_hasMore by exact Hb.
          cbn [negb]. cbv iota. unfold decodeSlice.
          rewrite cursor_lines. cbn [length]. rewrite Nat.add_succ_r.
          cbn [sliceItems].
          rewrite cursor_hasMore by exact Hb. cbn [negb]. cbv iota.
          rewrite cursor_skip by exact Hb.
          rewrite cursor_hasMore by exact Hb. cbn [negb]. cbv iota.
          rewrite cursor_current. cbv zeta.
          rewrite getIndent_spaces.
          change (getIndent (str "- " ++ entryLine kv)) with 0.
          rewrite Nat.add_0_r.
          replace (m <? 2) with false
            by (symmetry; apply Nat.ltb_ge; unfold m; lia).
          rewrite andb_false_r. cbv iota.
          rewrite TrimSpace_spaces, (dashLine_TrimSpace Hne' Htrim').
          change (HasPrefix (str "- " ++ entryLine kv) (str "- "))
            with (HasPrefix (entryLine kv) []).
          rewrite HasPrefix_nil. reflexivity. }
        run_with Hblock. reflexivity.
    Qed.

  End MapLists.

End Lists.

Lemma scalar_list_read_witness :
  let items := tagged "Items" "items" in
  let text := str "items[5]:" ++ [LF] ++ str "  - a" ++ [LF]
                ++ str "  - b" ++ [LF] in
  Unmarshal (R := integerRuntime) 2 text
    (pointerTo (VStruct [(items, VSlice TString None)]))
  = pointsTo (VStruct [(items, VSlice TString
                                 (Some [VString (str "a");
                                        VString (str "b")]))]).
Proof.
  intros items text.
  apply (@scalar_list_read integerRuntime items TString None
           [VString (str "a"); VString (str "b")] 5 2 0);
    try reflexivity; try discriminate; try lia;
    try (repeat constructor; closed_token).
Defined.

Lemma map_list_unread_witness :
  let rows := tagged "Rows" "rows" in
  let row (k : gostring) (z : Z)
    : list (value (@float64 integerRuntime) * value (@float64 integerRuntime))
    := [(VString k, VInt KInt z)] in
  let listed :=
    VSlice (TMap TString (TInt KInt))
      (Some [VMap TString (TInt KInt) (Some (row (str "a") 1%Z));
             VMap TString (TInt KInt) (Some (row (str "b") 2%Z))]) in
  let text := str "rows[2]:" ++ [LF] ++ str "  - a: 1" ++ [LF]
                ++ str "  - b: 2" ++ [LF] in
  Marshal (R := integerRuntime) (Some (VStruct [(rows, listed)])) = Ok text
  /\ Unmarshal (R := integerRuntime) 2 text
       (pointerTo (VStruct [(rows, VSlice (TMap TString (TInt KInt)) None)]))
     = Err (ErrUnsupportedKind (TMap TString (TInt KInt))).
Proof.
  intros rows row listed text.
  apply (@map_list_unread integerRuntime DefaultMarshalOptions rows
           (TInt KInt) None [row (str "a") 1%Z; row (str "b") 2%Z] 0);
    [reflexivity|closed_token|vm_compute; discriminate|reflexivity
    |discriminate|].
  unfold row.
  repeat (apply Forall_cons; [split; [discriminate|]|]);
    try apply Forall_nil;
    (apply Forall_cons; [|apply Forall_nil]);
    (split; [eexists; split; [reflexivity|closed_token]|closed_token]).
Defined.

(** * Arrays *)

Section Arrays.

  Context {R : GoRuntime}.

  Import Strings StringFacts SplitFacts NumberFacts.

  Variable opts : MarshalOptions.

  Hypothesis Hdelim : knownDelimiter opts.

  (** X21.  An array is written and cannot be read.  A record with an
      array of scalars is written as a record with a slice of them, on the
      line of an inline array; [Unmarshal] of that text into a record of
      the same type panics: [decodeInlineArray] makes a slice of the type
      of the field, which is no slice type. *)
Theorem array_field_panics (f : StructField) (t : type)
    (old elems : list (value float64)) (fuel : nat) :
    IsExported f = true -> bareKey (getFieldName f) ->
    elems <> [] -> Forall cellSafe elems ->
    Forall (fun e => typeOf e = t) elems ->
    (Z.of_nat (length elems) < 2 ^ 63)%Z ->
    let text := unlines [inlineLine opts (getFieldName f) elems] in
    MarshalWithOptions (Some (VStruct [(f, VArray t elems)])) opts = Ok text
    /\ Unmarshal (S (S fuel)) text (pointerTo (VStruct [(f, VArray t old)]))
       = Abort Panic.
  Proof.
    intros Hexp Hname Hne Hsafe Htype Hlen text. subst text.
    destruct (fieldLines_facts Hdelim
                (InlineLines opts f None Hexp Hname Hne Hsafe Htype Hlen))
      as [_ [_ [Henc [Hlf [l [ls [Heq [Hblank _]]]]]]]].
    injection Heq as <- <-.
    split.
    - unfold MarshalWithOptions, encode. cbn [encodeValue].
      unfold encodeStruct. cbn [blockHeader blockDepth isEmpty app].
      destruct (bareKey_live f Hexp Hname) as [Hskip _].
      unfold skipped in Hskip. apply orb_false_iff in Hskip as [He Hd].
      rewrite He, Hd. cbn [encodeValue] in *. rewrite Henc.
      cbn [bind]. now rewrite !app_nil_r.
    - unfold Unmarshal, newDecoder, decode, pointerTo.
      unfold unlines. rewrite (Split_lines Hlf).
      set (line := inlineLine opts (getFieldName f) elems) in *.
      change {| lines := [line] ++ [[]]; pos := 0 |}
        with (cursor [] [line; []]).
      cbn [decodeValue]. unfold decodeValue_body at 1.
      rewrite cursor_skip, cursor_hasMore by exact Hblank.
      cbn [negb]. cbv iota. unfold decodeStruct.
      rewrite cursor_lines. cbn [length plus].
      pose proof (@structLines_inline_header R (decodeValue (S fuel)) opts
                    Hdelim 1 (buildFieldMap true 0 [(f, VArray t old)] [])
                    [] [] f (VArray t old) elems [] [[]]
                    Hname Hne Hsafe Hlen
                    (@lookup_single R f (VArray t old) Hexp Hname)) as Hstep.
      cbv zeta in Hstep. fold line in Hstep. cbn [app] in Hstep.
      run_with Hstep. reflexivity.
  Qed.

End Arrays.

Lemma array_field_panics_witness :
  let pair := tagged "Pair" "pair" in
  let text := str "pair[2]: 1,2" ++ [LF] in
  Marshal (R := integerRuntime)
    (Some (VStruct [(pair, VArray (TInt KInt) [VInt KInt 1; VInt KInt 2])]))
  = Ok text
  /\ Unmarshal (R := integerRuntime) 2 text
       (pointerTo (VStruct [(pair, VArray (TInt KInt)
                                     [VInt KInt 0; VInt KInt 0])]))
     = Abort Panic.
Proof.
  intros pair text.
  apply (@array_field_panics integerRuntime DefaultMarshalOptions
           (or_introl eq_refl) pair (TInt KInt) [VInt KInt 0; VInt KInt 0]
           [VInt KInt 1; VInt KInt 2] 0);
    try reflexivity; try discriminate;
    try (repeat constructor; closed_token).
Defined.

(** * Untyped targets *)

Section UntypedTargets.

  Context {R : GoRuntime}.

  Import Strings StringFacts SplitFacts.

Lemma inference_sets (tok : gostring) (v : value float64) :
    TrimSpace tok = tok -> UntypedInference (unquote tok) v ->
    setPrimitiveValue TInterface tok = Ok v.
  Proof.
    intros Htrim H. rewrite setPrimitiveValue_TInterface. cbv zeta.
    rewrite Htrim. revert H. generalize (unquote tok). intros u H.
    destruct H as [|t i Hn Hi|t f Hn Hi Hf|t b Hn Hi Hf Hb|t Hn Hi Hf Hb];
      [reflexivity|..]; apply gostring_eqb_neq in Hn; rewrite Hn.
    - now rewrite Hi.
    - now rewrite Hi, Hf.
    - now rewrite Hi, Hf, Hb.
    - now rewrite Hi, Hf, Hb.
  Qed.

Lemma tokenLine_eq (k tok : gostring) :
    tokenLine (k, tok) = k ++ ":"%char :: SP :: tok.
  Proof. reflexivity. Qed.

Lemma tokenLine_isBlank (kt : gostring * gostring) :
    plainToken kt -> isBlank (tokenLine kt) = false.
  Proof.
    destruct kt as [k tok]. intros [Hk [_ [_ [[Hne Htrim] _]]]].
    cbn [fst snd] in *. rewrite tokenLine_eq.
    eapply colonLine_isBlank; [exact Hk|reflexivity|].
    now apply colonLine_token.
  Qed.

Lemma tokenLine_no_LF (kt : gostring * gostring) :
    plainToken kt -> ~ In LF (tokenLine kt).
  Proof.
    destruct kt as [k tok]. intros [_ [_ [Hk [_ Htok]]]].
    cbn [fst snd] in *. rewrite tokenLine_eq. intros H.
    apply in_app_or in H as [H|[H|[H|H]]]; try discriminate H; tauto.
  Qed.

  Section Loop.

    Variable decodeValue' :
      value float64 -> nat -> decoder -> result (value float64 * decoder).

    (** One turn of the loop of [decodeMap] on a line of a map of any. *)
Lemma mapLines_token_entry (n : nat)
      (entries : list (value float64 * value float64)) (k tok : gostring)
      (v : value float64) (pre post : list gostring) :
      plainToken (k, tok) -> UntypedInference (unquote tok) v ->
      mapLines decodeValue' (S n) TString TInterface 0 entries
        (cursor pre (tokenLine (k, tok) :: post))
      = mapLines decodeValue' n TString TInterface 0
          (setMapIndex entries (VString k) v)
          (cursor (pre ++ [tokenLine (k, tok)]) post).
    Proof.
      intros Hplain Hv. pose proof (tokenLine_isBlank Hplain) as Hblank.
      destruct Hplain as [Hk [Hunq [_ [[Hne Htrim] _]]]].
      cbn [fst snd] in *. rewrite tokenLine_eq in *.
      cbn [mapLines].
      rewrite cursor_hasMore by exact Hblank. cbn [negb]. cbv iota.
      rewrite cursor_skip by exact Hblank.
      rewrite cursor_hasMore by exact Hblank. cbn [negb]. cbv iota.
      rewrite cursor_current. cbv zeta.
      change (0 <? 0) with false. cbn [andb]. cbv iota.
      rewrite (colonLine_token Hk Hne Htrim).
      rewrite (colonLine_Contains k). cbn [negb]. cbv iota.
      rewrite (colonLine_SplitN2 Hk).
      rewrite (proj1 (proj2 Hk)), (TrimSpace_space Htrim).
      change (setPrimitiveValue TString k)
        with (@Ok (value float64) (VString (unquote (TrimSpace k)))).
      rewrite (proj1 (proj2 Hk)), Hunq. cbn [bind].
      replace (isEmpty tok) with false by now destruct tok.
      rewrite (inference_sets Htrim Hv). cbn [bind fst snd].
      now rewrite cursor_advance.
    Qed.

Lemma mapLines_token_entries :
      forall (todo : list (gostring * gostring)) (vs : list (value float64))
             (done : list (value float64 * value float64))
             (pre : list gostring) (n : nat),
        Forall plainToken todo ->
        NoDup (map fst todo) ->
        Forall2 (fun kt v => UntypedInference (unquote (snd kt)) v) todo vs ->
        (forall k, In k (map fst todo) ->
                   Forall (fun kv => keyEqb (fst kv) (VString k) = false)
                     done) ->
        length todo <= n ->
        mapLines decodeValue' n TString TInterface 0 done
          (cursor pre (map tokenLine todo ++ [[]]))
        = Ok (done ++ combine (map (fun kt => VString (fst kt)) todo) vs,
              cursor (pre ++ map tokenLine todo) [[]]).
    Proof.
      induction todo as [|[k tok] todo IH];
        intros vs done pre n Hall Hnd Hvs Hfresh Hn.
      - inversion Hvs; subst. cbn [map app combine]. rewrite !app_nil_r.
        destruct n; cbn [mapLines];
          now rewrite cursor_end by reflexivity.
      - inversion Hvs as [|? v ? vs' Hv Hvs']; subst.
        inversion Hall as [|? ? Hplain Hall']; subst.
        inversion Hnd as [|? ? Hnotin Hnd']; subst.
        destruct n as [|n]; [simpl in Hn; lia|].
        cbn [map app combine fst snd] in *.
        rewrite (@mapLines_token_entry n done k tok v pre
                   (map tokenLine todo ++ [[]]) Hplain Hv).
        rewrite setMapIndex_fresh by (apply Hfresh; now left).
        rewrite (IH vs'); [|exact Hall'|exact Hnd'|exact Hvs'| |simpl in Hn; lia].
        + now rewrite <- !app_assoc.
        + intros k' Hin. apply Forall_app. split.
          * apply Hfresh. now right.
          * constructor; [|constructor]. cbn [fst keyEqb].
            apply gostring_eqb_neq. intros ->. now apply Hnotin.
    Qed.

  End Loop.

  (** X22.  Into an untyped target, [Unmarshal] reads a map from strings
      to untyped values.  A line that is a key, a colon, a space and a
      token gives an entry: its key is the text before the first colon,
      whatever brackets it holds, for the header of an array is looked for
      in the lines of a record only; its value is inferred from the token
      as in C5.  The map is listed in the order of the lines, in which the
      entries are set. *)
Theorem untyped_target_map (kts : list (gostring * gostring))
    (vs : list (value float64)) (old : option (value float64))
    (fuel : nat) :
    kts <> [] ->
    Forall plainToken kts ->
    NoDup (map fst kts) ->
    Forall2 (fun kt v => UntypedInference (unquote (snd kt)) v) kts vs ->
    Unmarshal (S (S fuel)) (unlines (map tokenLine kts))
      (pointerTo (VInterface old))
    = pointsTo
        (VInterface
           (Some (VMap TString TInterface
                    (Some (combine (map (fun kt => VString (fst kt)) kts)
                             vs))))).
  Proof.
    intros Hne Hall Hnd Hvs.
    assert (Hlf : Forall (fun l => ~ In LF l) (map tokenLine kts)).
    { apply Forall_map. eapply Forall_impl; [|exact Hall].
      apply tokenLine_no_LF. }
    unfold Unmarshal, newDecoder, decode, pointerTo, pointsTo, unlines.
    rewrite (Split_lines Hlf).
    change {| lines := map tokenLine kts ++ [[]]; pos := 0 |}
      with (cursor [] (map tokenLine kts ++ [[]])).
    cbn [decodeValue typeOf]. unfold decodeValue_body at 1.
    pose proof (@mapLines_token_entries (decodeValue (S fuel)) kts vs [] []
                  (length (lines (cursor [] (map tokenLine kts ++ [[]]))))
                  Hall Hnd Hvs) as Hrun.
    destruct kts as [|kt kts]; [congruence|].
    pose proof (tokenLine_isBlank (Forall_inv Hall)) as Hblank.
    cbn [map app] in *.
    rewrite cursor_skip, cursor_hasMore by exact Hblank.
    cbn [negb]. cbv iota. unfold decodeMap. cbn [mapEntries].
    match type of Hrun with
    | _ -> _ -> ?lhs = _ =>
        match goal with
        | |- bind (bind (bind ?run _) _) _ = _ => change run with lhs
        end
    end.
    rewrite Hrun; [reflexivity|intros; constructor|].
    rewrite cursor_lines. cbn [length]. rewrite length_app, length_map.
    cbn [length]. lia.
  Qed.

End UntypedTargets.

Lemma untyped_target_map_witness :
  let text := str "name: Ada" ++ [LF] ++ str "age: 36" ++ [LF]
                ++ str "tags[2]: x,y" ++ [LF] ++ str "note: null" ++ [LF] in
  let entries : list (value (@float64 integerRuntime)
                      * value (@float64 integerRuntime)) :=
    [(VString (str "name"), VInterface (Some (VString (str "Ada"))));
     (VString (str "age"), VInterface (Some (VInt KInt64 36)));
     (VString (str "tags[2]"), VInterface (Some (VString (str "x,y"))));
     (VString (str "note"), VInterface None)] in
  Unmarshal (R := integerRuntime) 2 text (pointerTo (VInterface None))
  = pointsTo (VInterface (Some (VMap TString TInterface (Some entries)))).
Proof.
  intros text entries.
  apply (@untyped_target_map integerRuntime
           [(str "name", str "Ada"); (str "age", str "36");
            (str "tags[2]", str "x,y"); (str "note", str "null")]
           (map snd entries) None 0).
  - discriminate.
  - repeat (apply Forall_cons; [closed_token|]). apply Forall_nil.
  - vm_compute. repeat constructor; simpl; intuition discriminate.
  - repeat (apply Forall2_cons; [|]); try apply Forall2_nil.
    + apply InferString; try reflexivity. discriminate.
    + apply InferInt; [discriminate|reflexivity].
    + apply InferString; try reflexivity. discriminate.
    + apply InferNull.
Defined.
